(** * pandas.core.series: a shallow embedding of the Series alignment core

    The development follows src/pandas/core/series.py.  A Series is a value
    buffer (an ndarray with one element kind) paired with a label index and
    an optional name.  Python exceptions are results of an error monad;
    objects whose identity matters (reindex without copy, set_value) live
    in a store of Series objects addressed by location.

    Numeric elements are exact integers ([VNum]); a buffer of floating kind
    holds [VNum] and the NaN sentinel [VNaN].  A value assigned into a
    buffer is converted to the buffer's element kind ([np_store]), which
    refuses what the kind cannot hold. *)

From Stdlib Require Import ZArith String Bool Lia.
From stdpp Require Import base option list gmap strings sorting.

Open Scope Z_scope.
Open Scope nat_scope.

(** ** Python exceptions and the error monad *)

Inductive exn :=
  | KeyError | IndexError | TypeError | ValueError
  | AssertionError | InvalidIndexError | OverflowError.

Inductive result (A : Type) :=
  | Ok (a : A)
  | Raise (e : exn).
Arguments Ok {A} a.
Arguments Raise {A} e.

Global Instance result_ret : MRet result := λ A a, Ok a.
Global Instance result_bind : MBind result := λ A B f m,
  match m with Ok a => f a | Raise e => Raise e end.
Global Instance result_fmap : FMap result := λ A B f m,
  match m with Ok a => Ok (f a) | Raise e => Raise e end.

Global Instance exn_eq_dec : EqDecision exn.
Proof. solve_decision. Defined.

(** [try m except e: h] *)
Definition try_except {A} (m : result A) (e : exn) (h : result A) : result A :=
  match m with
  | Ok a => Ok a
  | Raise e' => if decide (e' = e) then h else Raise e'
  end.

Definition is_ok {A} (m : result A) : bool :=
  match m with Ok _ => true | Raise _ => false end.

(** Monadic traversals of lists, left to right (the order in which numpy's
    elementwise loops visit elements). *)
Fixpoint mapR {A B} (f : A → result B) (l : list A) : result (list B) :=
  match l with
  | [] => Ok []
  | x :: l => y ← f x; k ← mapR f l; Ok (y :: k)
  end.

(** ** Labels, values, element kinds *)

Inductive label :=
  | LInt (z : Z)
  | LStr (s : string).

Global Instance label_eq_dec : EqDecision label.
Proof. solve_decision. Defined.
Global Instance label_inhabited : Inhabited label := populate (LInt 0).

(** Python 2 ordering of labels: numbers before strings. *)
Definition label_leb (a b : label) : bool :=
  match a, b with
  | LInt x, LInt y => (x <=? y)%Z
  | LInt _, LStr _ => true
  | LStr _, LInt _ => false
  | LStr s, LStr t => String.leb s t
  end.

Inductive value :=
  | VNaN                (* the floating missing sentinel, numpy.nan *)
  | VNone               (* the object-domain missing sentinel, None *)
  | VNum (z : Z)
  | VBool (b : bool).

Global Instance value_eq_dec : EqDecision value.
Proof. solve_decision. Defined.
Global Instance value_inhabited : Inhabited value := populate VNaN.

(** pandas.core.common.isnull / notnull on one element. *)
Definition isnull (v : value) : bool :=
  match v with VNaN | VNone => true | _ => false end.
Definition notnull (v : value) : bool := negb (isnull v).

Inductive Dtype := Floating | Integer | Boolean | Datetime | Object.

Global Instance Dtype_eq_dec : EqDecision Dtype.
Proof. solve_decision. Defined.

(** pandas.core.common.is_integer_dtype. *)
Definition is_integer_dtype (d : Dtype) : bool :=
  match d with Integer => true | _ => false end.

(** pandas.core.common._maybe_upcast: integers go to floating, booleans to
    object, so that the result can hold the missing sentinel. *)
Definition _maybe_upcast_dtype (d : Dtype) : Dtype :=
  match d with
  | Integer => Floating
  | Boolean => Object
  | d => d
  end.

(** ** numpy arrays *)

Record ndarray := mk_ndarray { dtype : Dtype; data : list value }.

Global Instance ndarray_eq_dec : EqDecision ndarray.
Proof. solve_decision. Defined.

(** numpy's conversion of a Python scalar stored into a buffer of a given
    element kind ([arr[i] = v]).  An integer buffer takes a number or a
    boolean (as 0 or 1) within the 64-bit range and refuses NaN
    (ValueError: cannot convert float NaN to integer), None (TypeError) and
    a number out of range (OverflowError); a floating buffer takes numbers,
    booleans and NaN, and None as NaN; a boolean buffer takes the truth
    value of the object; an object buffer takes the object as it is; a
    datetime buffer takes an instant (a number), and a missing value as the
    missing instant. *)
Definition np_store (d : Dtype) (v : value) : result value :=
  match d, v with
  | Object, _ => Ok v
  | Integer, VNum z =>
      if decide (- 2 ^ 63 ≤ z < 2 ^ 63)%Z then Ok v else Raise OverflowError
  | Integer, VBool b => Ok (VNum (Z.b2z b))
  | Integer, VNaN => Raise ValueError
  | Integer, VNone => Raise TypeError
  | Floating, VNum _ | Floating, VNaN => Ok v
  | Floating, VBool b => Ok (VNum (Z.b2z b))
  | Floating, VNone => Ok VNaN
  | Boolean, VBool _ => Ok v
  | Boolean, VNum z => Ok (VBool (negb (z =? 0)%Z))
  | Boolean, VNaN => Ok (VBool true)
  | Boolean, VNone => Ok (VBool false)
  | Datetime, VNum _ => Ok v
  | Datetime, VBool b => Ok (VNum (Z.b2z b))
  | Datetime, VNaN | Datetime, VNone => Ok VNaN
  end.

(** Python's normalisation of one integer subscript against a length:
    negative subscripts count from the end, anything outside [-n, n) is an
    IndexError. *)
Definition norm_pos (n : nat) (i : Z) : result nat :=
  if decide (0 ≤ i < Z.of_nat n)%Z then Ok (Z.to_nat i)
  else if decide (- Z.of_nat n ≤ i < 0)%Z then Ok (Z.to_nat (Z.of_nat n + i))
  else Raise IndexError.

(** Bounds of the Python slice [start:stop] (step 1) on a length. *)
Definition slice_bound (n : nat) (d : nat) (b : option Z) : nat :=
  match b with
  | None => d
  | Some i => if decide (i < 0)%Z then Z.to_nat (Z.of_nat n + i)
              else Nat.min n (Z.to_nat i)
  end.
Definition slice_lo (n : nat) (start : option Z) : nat := slice_bound n 0 start.
Definition slice_hi (n : nat) (start stop : option Z) : nat :=
  Nat.max (slice_lo n start) (slice_bound n n stop).

(** [l[start:stop]] *)
Definition getslice {A} (l : list A) (start stop : option Z) : list A :=
  let lo := slice_lo (length l) start in
  let hi := slice_hi (length l) start stop in
  firstn (hi - lo) (skipn lo l).

(** [l[start:stop] = src] for an array [src]: numpy refuses a source whose
    length differs from the slice's (a source of length one is broadcast). *)
Definition setslice {A} (l : list A) (start stop : option Z) (src : list A)
    : result (list A) :=
  let lo := slice_lo (length l) start in
  let hi := slice_hi (length l) start stop in
  if decide (length src = hi - lo) then Ok (firstn lo l ++ src ++ skipn hi l)
  else match src with
       | [x] => Ok (firstn lo l ++ replicate (hi - lo) x ++ skipn hi l)
       | _ => Raise ValueError
       end.

(** [l[start:stop] = x] for a scalar [x]. *)
Definition setslice_scalar {A} (l : list A) (start stop : option Z) (x : A)
    : list A :=
  let lo := slice_lo (length l) start in
  let hi := slice_hi (length l) start stop in
  firstn lo l ++ replicate (hi - lo) x ++ skipn hi l.

(** [l[mask]] for a boolean mask of the same length. *)
Fixpoint bool_select {A} (mask : list bool) (l : list A) : list A :=
  match mask, l with
  | b :: mask, x :: l => if b then x :: bool_select mask l else bool_select mask l
  | _, _ => []
  end.

Definition np_getmask {A} (l : list A) (mask : list bool) : result (list A) :=
  if decide (length mask = length l) then Ok (bool_select mask l)
  else Raise IndexError.

(** [mask.sum()] *)
Definition mask_sum (mask : list bool) : nat := length (filter (λ b, b = true) mask).

(** [l[positions]], fancy indexing with an integer array. *)
Definition fancy {A} (l : list A) (positions : list Z) : result (list A) :=
  mapR (λ i, p ← norm_pos (length l) i;
             match l !! p with Some x => Ok x | None => Raise IndexError end)
       positions.

(** [ndarray.take(indices)] *)
Definition np_take (a : ndarray) (indices : list Z) : result ndarray :=
  d ← fancy (data a) indices; Ok (mk_ndarray (dtype a) d).

(** [np.putmask(a, mask, v)] with a scalar [v]. *)
Definition putmask (l : list value) (mask : list bool) (v : value) : list value :=
  zip_with (λ (b : bool) x, if b then v else x) mask l.

(** [np.where(cond, x, y)] on three arrays of one length. *)
Fixpoint np_where (cond : list bool) (x y : list value) : list value :=
  match cond, x, y with
  | c :: cond, a :: x, b :: y => (if c then a else b) :: np_where cond x y
  | _, _, _ => []
  end.

(** Modelled from the spec: pandas.core.common.take_1d is missing from the
    source; it gathers through a position map in which -1 marks an absent
    source position, and absent slots receive [fill_value].  Of the two
    policies the spec allows for a kind that cannot hold the sentinel, this
    is the implicit upcast, the one the source itself applies in [shift]
    through [_maybe_upcast]. *)
Definition take_1d (a : ndarray) (indexer : list Z) (fill_value : value)
    : result ndarray :=
  d ← mapR (λ i, if decide (i = -1)%Z then Ok fill_value
                 else if decide (0 ≤ i)%Z then
                   match data a !! Z.to_nat i with
                   | Some x => Ok x
                   | None => Raise IndexError
                   end
                 else Raise IndexError) indexer;
  Ok (mk_ndarray (if bool_decide ((-1)%Z ∈ indexer)
                  then _maybe_upcast_dtype (dtype a) else dtype a) d).

(** *** Elementwise operators *)

(** An operator of the [operator] module applied by numpy: what it does on
    one pair of elements (a TypeError for unsupported operands) and the
    element kind of its result. *)
Record operator := mk_operator {
  op_scalar : value → value → result value;
  op_dtype : Dtype → Dtype → Dtype
}.

Fixpoint zipR {A B C} (f : A → B → result C) (x : list A) (y : list B)
    : result (list C) :=
  match x, y with
  | a :: x, b :: y => c ← f a b; k ← zipR f x y; Ok (c :: k)
  | _, _ => Ok []
  end.

(** numpy broadcasting of two one-dimensional operands. *)
Definition broadcast2 (f : value → value → result value) (x y : list value)
    : result (list value) :=
  if decide (length x = length y) then zipR f x y
  else match x, y with
       | _, [b] => mapR (λ a, f a b) x
       | [a], _ => mapR (λ b, f a b) y
       | _, _ => Raise ValueError
       end.

(** [op(x, y)] on two arrays. *)
Definition np_op (o : operator) (x y : ndarray) : result ndarray :=
  d ← broadcast2 (op_scalar o) (data x) (data y);
  Ok (mk_ndarray (op_dtype o (dtype x) (dtype y)) d).

(** [op(x, y)] on an array and a scalar. *)
Definition np_op_scalar (o : operator) (x : ndarray) (y : value) (dy : Dtype)
    : result ndarray :=
  d ← mapR (λ a, op_scalar o a y) (data x);
  Ok (mk_ndarray (op_dtype o (dtype x) dy) d).

(** *** Sorting *)

Fixpoint merge {A} (leb : A → A → bool) (l1 : list A) : list A → list A :=
  fix merge_aux l2 :=
    match l1, l2 with
    | [], _ => l2
    | _, [] => l1
    | x :: l1', y :: l2' =>
        if leb x y then x :: merge leb l1' l2 else y :: merge_aux l2'
    end.

(** Top-down merge sort: split at the midpoint, sort the halves, merge. *)
Fixpoint msort_fuel {A} (leb : A → A → bool) (fuel : nat) (l : list A) : list A :=
  match fuel with
  | 0 => l
  | S fuel =>
      match l with
      | [] | [_] => l
      | _ => let m := length l / 2 in
             merge leb (msort_fuel leb fuel (firstn m l))
                       (msort_fuel leb fuel (skipn m l))
      end
  end.
Definition msort {A} (leb : A → A → bool) (l : list A) : list A :=
  msort_fuel leb (length l) l.

(** The order numpy sorts non-missing elements by: booleans count as 0/1. *)
Definition value_key (v : value) : Z :=
  match v with
  | VNum z => z
  | VBool b => Z.b2z b
  | _ => 0%Z
  end.
Definition value_leb (a b : value) : bool := (value_key a <=? value_key b)%Z.

(** [arr.argsort(kind='mergesort')]: the sort compares values only. *)
Definition argsort_mergesort (l : list value) : list nat :=
  (λ p : nat * value, p.1) <$>
    msort (λ p q : nat * value, value_leb p.2 q.2) (imap (λ i v, (i, v)) l).

(** A sort that is not stable: a merge sort whose merge takes the element
    of the right run on a tie.  It stands for what a default [argsort] may
    do with equal values. *)
Definition argsort_ties_reversed (l : list value) : list nat :=
  (λ p : nat * value, p.1) <$>
    msort (λ p q : nat * value, (value_key p.2 <? value_key q.2)%Z)
          (imap (λ i v, (i, v)) l).

(** ** The label index (pandas.core.index, consumed through its contract) *)

Abbreviation Index := (list label).

(** Modelled from the spec: Index.equals is missing from the source; two
    indexes are equal when they are equal in content. *)
Definition Index_equals (a b : Index) : bool := bool_decide (a = b).

(** Modelled from the spec: Index.get_loc is missing from the source;
    [get_position(label) -> position | NotFound], the first position for a
    label that occurs more than once. *)
Definition get_loc (idx : Index) (l : label) : option nat :=
  fst <$> list_find (λ x, x = l) idx.

(** Modelled from the spec: Index.get_indexer is missing from the source;
    [get_positions(labels) -> sequence of position-or-absent], absent
    written -1 as the source expects ([indexer == -1]). *)
Definition get_indexer (idx : Index) (target : list label) : list Z :=
  (λ l, match get_loc idx l with
        | Some p => Z.of_nat p
        | None => (-1)%Z
        end) <$> target.

(** Modelled from the spec: Index.union ([self.index + other.index]) is
    missing from the source; the union of the two label sets, sorted by the
    label ordering. *)
Definition Index_union (a b : Index) : Index :=
  msort label_leb (remove_dups (a ++ b)).

(** Modelled from the spec: Index.intersection is missing from the source. *)
Definition Index_intersection (a b : Index) : Index :=
  msort label_leb (remove_dups (filter (λ l, l ∈ b) a)).

Inductive how := outer | inner | left | right.

(** Modelled from the spec: Index.join(other, how, return_indexers=True) is
    missing from the source; [outer] is the sorted union, [inner] the
    intersection, [left]/[right] one side's labels verbatim, with one
    position map per side.  The source tests each map against None: a side
    whose labels are the joined labels already needs no gather. *)
Definition Index_join (a b : Index) (h : how)
    : Index * option (list Z) * option (list Z) :=
  let j := match h with
           | outer => Index_union a b
           | inner => Index_intersection a b
           | left => a
           | right => b
           end in
  (j, if Index_equals j a then None else Some (get_indexer a j),
      if Index_equals j b then None else Some (get_indexer b j)).

(** Modelled from the spec: Index.reindex(target) is missing from the
    source; the target labels and the position of each in this index. *)
Definition Index_reindex (idx : Index) (target : list label) : Index * list Z :=
  (target, get_indexer idx target).

(** Modelled from the spec: Index.take is missing from the source. *)
Definition Index_take (idx : Index) (indices : list Z) : result Index :=
  fancy idx indices.

(** Modelled from the spec: Index.order(return_indexer=True, ascending) is
    missing from the source; the labels sorted, and the source position of
    each. *)
Definition Index_order (idx : Index) (ascending : bool) : Index * list Z :=
  let s := msort (λ p q : nat * label, label_leb p.2 q.2)
                 (imap (λ i l, (i, l)) idx) in
  let s := if ascending then s else reverse s in
  ((λ p : nat * label, p.2) <$> s, (λ p : nat * label, Z.of_nat p.1) <$> s).

(** Modelled from the spec: Index.insert(position, label) is missing from the
    source. *)
Definition Index_insert (idx : Index) (loc : nat) (l : label) : Index :=
  firstn loc idx ++ l :: skipn loc idx.

Inductive inferred := inf_integer | inf_boolean | inf_string | inf_mixed | inf_empty.

Global Instance inferred_eq_dec : EqDecision inferred.
Proof. solve_decision. Defined.

Definition is_LInt (l : label) : bool :=
  match l with LInt _ => true | LStr _ => false end.

(** Modelled from the spec: Index.inferred_type is missing from the source;
    an index is integer-typed when its labels are all integers. *)
Definition inferred_type (idx : Index) : inferred :=
  match idx with
  | [] => inf_empty
  | _ => if forallb is_LInt idx then inf_integer
         else if forallb (λ l, negb (is_LInt l)) idx then inf_string
         else inf_mixed
  end.

(** ** Series *)

Record Series := mk_Series {
  values : ndarray;
  index : list label;
  name : option string
}.

Global Instance Series_eq_dec : EqDecision Series.
Proof. solve_decision. Defined.

(** The invariant of the data model. *)
Definition wf (s : Series) : Prop := length (data (values s)) = length (index s).

(** Modelled from the spec: lib.SeriesIndex, the descriptor behind
    [Series.index] that [Series.__new__] assigns through, is missing from
    the source; by the data-model invariant an index whose length differs
    from the buffer's is refused. *)
Definition set_index (arr : ndarray) (idx : Index) (nm : option string)
    : result Series :=
  if decide (length (data arr) = length idx) then Ok (mk_Series arr idx nm)
  else Raise AssertionError.

(** [Series(data, index=index, name=name)] for an array [data]. *)
Definition Series_new (arr : ndarray) (idx : Index) (nm : option string)
    : result Series :=
  set_index arr idx nm.

(** The element kind numpy infers for a Python scalar. *)
Definition scalar_dtype (v : value) : Dtype :=
  match v with
  | VNaN => Floating
  | VNone => Object
  | VNum _ => Integer
  | VBool _ => Boolean
  end.

(** [Series(value, index=index, name=name)] for a scalar: [_sanitize_array]
    fills an array of the index's length ([subarr.fill(value)]). *)
Definition Series_scalar (v : value) (idx : Index) (nm : option string)
    : result Series :=
  set_index (mk_ndarray (scalar_dtype v) (replicate (length idx) v)) idx nm.

Definition _maybe_match_name (a b : Series) : option string :=
  if decide (name a = name b) then name a else None.

Definition _can_hold_na (s : Series) : bool :=
  negb (is_integer_dtype (dtype (values s))).

(** [Series.copy]: a new Series over a copy of the buffer. *)
Definition copy (s : Series) : result Series :=
  Series_new (values s) (index s) (name s).

(** ** Wrappers of the operator families *)

(** The right operand of [na_op]: an array or a scalar. *)
Inductive rhs :=
  | RArray (a : ndarray)
  | RScalar (v : value).

(** What the other operand of a Series operator can be. *)
Inductive other_operand :=
  | OSeries (s : Series)
  | ODataFrame
  | OArray (a : ndarray)
  | OScalar (v : value).

Inductive ret :=
  | RetSeries (s : Series)
  | NotImplemented.

Definition isnull_arr (a : ndarray) : list bool := isnull <$> data a.
Definition notnull_arr (a : ndarray) : list bool := notnull <$> data a.

(** [m1 & m2] and [m1 ^ m2] on boolean arrays of one shape. *)
Definition mask_and (m1 m2 : list bool) : result (list bool) :=
  if decide (length m1 = length m2) then Ok (zip_with andb m1 m2)
  else Raise ValueError.
Definition mask_xor (m1 m2 : list bool) : result (list bool) :=
  if decide (length m1 = length m2) then Ok (zip_with xorb m1 m2)
  else Raise ValueError.

(** [dst[mask] = src] for an array [src] with one element per selected slot. *)
Fixpoint bool_scatter {A} (dst : list A) (mask : list bool) (src : list A) : list A :=
  match dst, mask with
  | d :: dst, true :: mask =>
      match src with
      | x :: src => x :: bool_scatter dst mask src
      | [] => d :: dst
      end
  | d :: dst, false :: mask => d :: bool_scatter dst mask src
  | _, _ => dst
  end.
Definition np_setmask {A} (dst : list A) (mask : list bool) (src : list A)
    : result (list A) :=
  if decide (length mask = length dst) then
    if decide (length src = mask_sum mask) then Ok (bool_scatter dst mask src)
    else Raise ValueError
  else Raise IndexError.

(** [np.empty(n, dtype)]: the content is arbitrary. *)
Definition np_empty (n : nat) (d : Dtype) : ndarray :=
  mk_ndarray d (replicate n (VNum 0)).

Definition apply_op (o : operator) (x : ndarray) (y : rhs) : result ndarray :=
  match y with
  | RArray y => np_op o x y
  | RScalar v => np_op_scalar o x v (scalar_dtype v)
  end.

(** [na_op] of [_arith_method]. *)
Definition arith_na_op (o : operator) (x : ndarray) (y : rhs) : result ndarray :=
  try_except (apply_op o x y) TypeError
    (let result := np_empty (length (data x)) (dtype x) in
     '(mask, r) ←
        match y with
        | RArray y =>
            mask ← mask_and (notnull_arr x) (notnull_arr y);
            xm ← np_getmask (data x) mask;
            ym ← np_getmask (data y) mask;
            r ← np_op o (mk_ndarray (dtype x) xm) (mk_ndarray (dtype y) ym);
            Ok (mask, r)
        | RScalar v =>
            let mask := notnull_arr x in
            xm ← np_getmask (data x) mask;
            r ← np_op_scalar o (mk_ndarray (dtype x) xm) v (scalar_dtype v);
            Ok (mask, r)
        end;
     filled ← np_setmask (data result) mask (data r);
     Ok (mk_ndarray (dtype result) (putmask filled (negb <$> mask) VNaN))).

(** Modelled from the spec: lib.vec_compare, lib.scalar_compare,
    lib.vec_binop and lib.scalar_binop are missing from the source; the
    masked elementwise loop computes the operation only where both operands
    are non-missing and writes the missing sentinel elsewhere. *)
Definition masked_elt (o : operator) (a b : value) : result value :=
  if notnull a && notnull b then op_scalar o a b else Ok VNaN.
Definition masked_loop (o : operator) (x : list value) (y : rhs)
    : result ndarray :=
  match y with
  | RArray y =>
      if decide (length x = length (data y)) then
        d ← zipR (masked_elt o) x (data y); Ok (mk_ndarray Object d)
      else Raise ValueError
  | RScalar v =>
      d ← mapR (λ a, masked_elt o a v) x; Ok (mk_ndarray Object d)
  end.

(** [na_op] of [_comp_method]. *)
Definition comp_na_op (o : operator) (x : ndarray) (y : rhs) : result ndarray :=
  if decide (dtype x = Object) then masked_loop o (data x) y
  else apply_op o x y.

(** [na_op] of [_bool_method]. *)
Definition bool_na_op (o : operator) (x : ndarray) (y : rhs) : result ndarray :=
  try_except (apply_op o x y) TypeError
    (match y with
     | RArray y' =>
         if decide (dtype x = Boolean ∧ dtype y' = Boolean) then apply_op o x y
         else masked_loop o (data x) y
     | RScalar _ => masked_loop o (data x) y
     end).

(** The two paths of [_arith_method]'s wrapper for a Series operand: the
    one taken when the indexes are equal, and the join. *)
Definition arith_equal_index (o : operator) (self other : Series) : result Series :=
  let name := _maybe_match_name self other in
  arr ← arith_na_op o (values self) (RArray (values other));
  Series_new arr (index self) name.

Definition arith_join (o : operator) (self other : Series) : result Series :=
  let '(join_idx, lidx, ridx) := Index_join (index self) (index other) outer in
  lvalues ← match lidx with
            | Some lidx => take_1d (values self) lidx VNaN
            | None => Ok (values self)
            end;
  rvalues ← match ridx with
            | Some ridx => take_1d (values other) ridx VNaN
            | None => Ok (values other)
            end;
  arr ← arith_na_op o lvalues (RArray rvalues);
  let name := _maybe_match_name self other in
  Series_new arr join_idx name.

Definition rhs_of (other : other_operand) : rhs :=
  match other with
  | OArray a => RArray a
  | OScalar v => RScalar v
  | OSeries s => RArray (values s)
  | ODataFrame => RArray (mk_ndarray Object [])
  end.

Definition _arith_method (o : operator) (self : Series) (other : other_operand)
    : result ret :=
  match other with
  | OSeries other =>
      if Index_equals (index self) (index other)
      then RetSeries <$> arith_equal_index o self other
      else RetSeries <$> arith_join o self other
  | ODataFrame => Ok NotImplemented
  | _ =>
      arr ← arith_na_op o (values self) (rhs_of other);
      RetSeries <$> Series_new arr (index self) (name self)
  end.

Definition _comp_method (o : operator) (self : Series) (other : other_operand)
    : result ret :=
  match other with
  | OSeries other =>
      let name := _maybe_match_name self other in
      arr ← comp_na_op o (values self) (RArray (values other));
      RetSeries <$> Series_new arr (index self) name
  | ODataFrame => Ok NotImplemented
  | _ =>
      arr ← comp_na_op o (values self) (rhs_of other);
      RetSeries <$> Series_new arr (index self) (name self)
  end.

Definition _bool_method (o : operator) (self : Series) (other : other_operand)
    : result ret :=
  match other with
  | OSeries other =>
      let name := _maybe_match_name self other in
      arr ← bool_na_op o (values self) (RArray (values other));
      RetSeries <$> Series_new arr (index self) name
  | ODataFrame => Ok NotImplemented
  | _ =>
      arr ← bool_na_op o (values self) (rhs_of other);
      RetSeries <$> Series_new arr (index self) (name self)
  end.

(** ** Returned objects

    A method either returns the receiver itself ([return self]) or a newly
    constructed Series. *)
Inductive returned :=
  | Self
  | New (s : Series).

Definition the (self : Series) (r : returned) : Series :=
  match r with Self => self | New s => s end.

(** ** Reindexing *)

Definition _reindex_indexer (self : Series) (new_index : Index)
    (indexer : option (list Z)) (copy_ : bool) : result returned :=
  match indexer with
  | Some indexer =>
      new_values ← take_1d (values self) indexer VNaN;
      New <$> Series_new new_values new_index (name self)
  | None =>
      if copy_ then New <$> copy self else Ok Self
  end.

(** [Series.reindex(index, fill_value=fill_value, copy=copy)]; [index] is
    None when the caller passed none.  The fill method, its limit and the
    level are arguments of [Index.reindex] alone and are left at their
    defaults. *)
Definition reindex (self : Series) (index_ : option Index) (fill_value : value)
    (copy_ : bool) : result returned :=
  match index_ with
  | None => Raise ValueError
  | Some index_ =>
      if Index_equals (index self) index_ then
        if copy_ then
          result ← copy self;
          New <$> set_index (values result) index_ (name result)
        else Ok Self
      else if decide (length (index self) = 0) then
        New <$> Series_scalar VNaN index_ (name self)
      else
        let '(new_index, indexer) := Index_reindex (index self) index_ in
        new_values ← take_1d (values self) indexer fill_value;
        New <$> Series_new new_values new_index (name self)
  end.

Definition take (self : Series) (indices : list Z) : result Series :=
  new_index ← Index_take (index self) indices;
  new_values ← np_take (values self) indices;
  Series_new new_values new_index (name self).

(** ** Subscripting *)

Inductive keyelt :=
  | KInt (z : Z)
  | KStr (s : string)
  | KBool (b : bool).

(** Keys of the subscript operator: one hashable object, the Ellipsis, a
    Python list, or a boolean array.  Slice and tuple keys are outside this
    development. *)
Inductive key :=
  | KeyScalar (k : keyelt)
  | KeyEllipsis
  | KeyList (l : list keyelt)
  | KeyMask (m : list bool).

Inductive item :=
  | ItemValue (v : value)
  | ItemSeries (s : Series)
  | ItemArray (a : ndarray).

(** A key element read as a label ([True == 1] in Python). *)
Definition label_of (k : keyelt) : label :=
  match k with
  | KInt z => LInt z
  | KStr s => LStr s
  | KBool b => LInt (Z.b2z b)
  end.

Definition is_KInt (k : keyelt) : bool := match k with KInt _ => true | _ => false end.
Definition is_KBool (k : keyelt) : bool := match k with KBool _ => true | _ => false end.
Definition is_KStr (k : keyelt) : bool := match k with KStr _ => true | _ => false end.

(** Modelled from the spec: lib.infer_dtype is missing from the source; it
    infers the element kind of a sequence ("an all-integer sequence", "an
    all-boolean sequence", "anything else"). *)
Definition infer_dtype (l : list keyelt) : inferred :=
  match l with
  | [] => inf_empty
  | _ => if forallb is_KInt l then inf_integer
         else if forallb is_KBool l then inf_boolean
         else if forallb is_KStr l then inf_string
         else inf_mixed
  end.

Definition key_int (k : keyelt) : Z :=
  match k with KInt z => z | KBool b => Z.b2z b | KStr _ => 0%Z end.
Definition key_bool (k : keyelt) : bool :=
  match k with KBool b => b | KInt z => negb (z =? 0)%Z | KStr _ => true end.

(** Positions holding a label. *)
Definition positions_of (idx : Index) (l : label) : list bool :=
  (λ x, bool_decide (x = l)) <$> idx.

(** Modelled from the spec: Index.get_value(series, key) is missing from the
    source; label lookup returns the associated value, a new Series of the
    matches when the label maps to several positions, and fails with
    KeyError when the label is absent.  A key that cannot be hashed is an
    InvalidIndexError, which the source's handler expects. *)
Definition Index_get_value (self : Series) (k : key) : result item :=
  match k with
  | KeyScalar k =>
      let m := positions_of (index self) (label_of k) in
      match bool_select m (data (values self)) with
      | [] => Raise KeyError
      | [v] => Ok (ItemValue v)
      | vs => ItemSeries <$> Series_new (mk_ndarray (dtype (values self)) vs)
                               (bool_select m (index self)) (name self)
      end
  | KeyEllipsis => Raise KeyError
  | KeyList _ | KeyMask _ => Raise InvalidIndexError
  end.

(** [self.values[indexer]] and [self.index[indexer]] for a list or array
    indexer. *)
Definition np_index {A} (l : list A) (indexer : key) : result (list A) :=
  match indexer with
  | KeyMask m => np_getmask l m
  | KeyList ks =>
      if forallb is_KBool ks && negb (bool_decide (ks = []))
      then np_getmask l (key_bool <$> ks)
      else fancy l (key_int <$> ks)
  | KeyScalar k => x ← fancy l [key_int k]; Ok x
  | KeyEllipsis => Ok l
  end.

Definition _get_values (self : Series) (indexer : key) : result item :=
  match (vals ← np_index (data (values self)) indexer;
         idx ← np_index (index self) indexer;
         Series_new (mk_ndarray (dtype (values self)) vals) idx (name self)) with
  | Ok s => Ok (ItemSeries s)
  | Raise _ =>
      vals ← np_index (data (values self)) indexer;
      Ok (ItemArray (mk_ndarray (dtype (values self)) vals))
  end.

Definition item_of_returned (self : Series) (r : result returned) : result item :=
  (λ r, ItemSeries (the self r)) <$> r.

(** [_get_with] for a key that is neither a slice nor a tuple. *)
Definition _get_with (self : Series) (k : key) : result item :=
  match k with
  | KeyMask _ => _get_values self k
  | KeyList ks =>
      let key_type := infer_dtype ks in
      if decide (key_type = inf_integer) then
        if decide (inferred_type (index self) = inf_integer)
        then item_of_returned self (reindex self (Some (label_of <$> ks)) VNaN true)
        else _get_values self k
      else if decide (key_type = inf_boolean) then _get_values self k
      else item_of_returned self (reindex self (Some (label_of <$> ks)) VNaN true)
  | KeyScalar _ | KeyEllipsis => Raise TypeError   (* list(key) of a scalar *)
  end.

(** Modelled from the spec: pandas.core.common._is_bool_indexer is missing
    from the source; a boolean array, or a list whose elements are all
    booleans. *)
Definition _is_bool_indexer (k : key) : bool :=
  match k with
  | KeyMask _ => true
  | KeyList ks => forallb is_KBool ks && negb (bool_decide (ks = []))
  | _ => false
  end.

Definition as_bool_array (k : key) : key :=
  match k with
  | KeyList ks => KeyMask (key_bool <$> ks)
  | k => k
  end.

Definition __getitem__ (self : Series) (k : key) : result item :=
  match Index_get_value self k with
  | Ok it => Ok it
  | Raise InvalidIndexError =>
      let k := if _is_bool_indexer k then as_bool_array k else k in
      _get_with self k
  | Raise KeyError =>
      match k with
      | KeyEllipsis => Ok (ItemSeries self)
      | _ => Raise KeyError
      end
  | Raise e => Raise e
  end.

(** [remove_na(arr)]: [arr[notnull(arr)]]. *)
Definition remove_na (self : Series) : result item :=
  __getitem__ self (KeyMask (notnull_arr (values self))).

Definition dropna (self : Series) : result item := remove_na self.

(** ** Filling *)

Inductive fill_method := pad | backfill.

Definition within_limit (limit : option nat) (run : nat) : bool :=
  match limit with
  | None => true
  | Some k => run <? k
  end.

(** Modelled from the spec: pandas.core.common.pad_1d and backfill_1d are
    missing from the source; forward fill carries the last valid value over
    at most [limit] consecutive missing slots and leaves the rest of a longer
    gap missing; backward fill is the mirror image. *)
Fixpoint pad_from (limit : option nat) (last : option value) (run : nat)
    (l : list value) : list value :=
  match l with
  | [] => []
  | v :: l =>
      if isnull v then
        match last with
        | Some x =>
            (if within_limit limit run then x else v)
              :: pad_from limit last (S run) l
        | None => v :: pad_from limit None run l
        end
      else v :: pad_from limit (Some v) 0 l
  end.
Definition pad_1d (limit : option nat) (l : list value) : list value :=
  pad_from limit None 0 l.
Definition backfill_1d (limit : option nat) (l : list value) : list value :=
  reverse (pad_1d limit (reverse l)).

Definition _get_fill_func (m : fill_method) : option nat → list value → list value :=
  match m with
  | pad => pad_1d
  | backfill => backfill_1d
  end.

Definition with_data (s : Series) (d : list value) : Series :=
  mk_Series (mk_ndarray (dtype (values s)) d) (index s) (name s).

(** [Series.fillna(value, method, inplace, limit)].  The first component of
    the result is the receiver after the call (the call may fill it in
    place), the second the object returned. *)
Definition fillna (self : Series) (value_ : option value)
    (method : option fill_method) (inplace : bool) (limit : option nat)
    : result (Series * returned) :=
  if negb (_can_hold_na self) then
    if negb inplace then c ← copy self; Ok (self, New c) else Ok (self, Self)
  else
    match value_ with
    | Some v =>
        let mask := isnull_arr (values self) in
        if negb inplace then
          result ← copy self;
          Ok (self, New (with_data result (putmask (data (values result)) mask v)))
        else
          Ok (with_data self (putmask (data (values self)) mask v), Self)
    | None =>
        match method with
        | None => Raise ValueError
        | Some m =>
            let fill_f := _get_fill_func m in
            let values_ := fill_f limit (data (values self)) in
            if inplace then Ok (with_data self values_, Self)
            else
              r ← Series_new (mk_ndarray (dtype (values self)) values_)
                             (index self) (name self);
              Ok (self, New r)
        end
    end.

(** [Series.align(other, join, copy, fill_value, method, limit)] *)
Definition align (self other : Series) (join : how) (copy_ : bool)
    (fill_value : option value) (method : option fill_method)
    (limit : option nat) : result (returned * returned) :=
  let '(join_index, lidx, ridx) := Index_join (index self) (index other) join in
  left ← _reindex_indexer self join_index lidx copy_;
  right ← _reindex_indexer other join_index ridx copy_;
  match fill_value, method with
  | None, None => Ok (left, right)
  | _, _ =>
      '(_, l) ← fillna (the self left) fill_value method false limit;
      '(_, r) ← fillna (the other right) fill_value method false limit;
      Ok (New (the (the self left) l), New (the (the other right) r))
  end.

(** ** Sorting *)

(** [l[positions]] for positions produced by [np.arange] and [argsort]. *)
Definition gather {A} (l : list A) (positions : list nat) : result (list A) :=
  mapR (λ p, match l !! p with Some x => Ok x | None => Raise IndexError end)
       positions.

Section order.
  (** [arr.argsort()] with numpy's default algorithm, used when the stable
      sort is not available for the element kind. *)
Variable argsort_default : list value → list nat.

  (** [_try_mergesort] of [Series.order]: the stable sort is not available
      for object arrays. *)
Definition _try_mergesort (arr : ndarray) : list nat :=
    match (if decide (dtype arr = Object) then Raise TypeError
           else Ok (argsort_mergesort (data arr))) with
    | Ok r => r
    | Raise _ => argsort_default (data arr)
    end.

  (** The position array [sortedIdx] that [Series.order] builds. *)
Definition order_sortedIdx (self : Series) (na_last ascending : bool)
      : result (list nat) :=
    let arr := values self in
    let n_self := length (data arr) in
    let sortedIdx := replicate n_self 0 in
    let bad := isnull_arr arr in
    let good := negb <$> bad in
    let idx := seq 0 n_self in
    arr_good ← np_getmask (data arr) good;
    let argsorted := _try_mergesort (mk_ndarray (dtype arr) arr_good) in
    let argsorted := if negb ascending then reverse argsorted else argsorted in
    idx_good ← np_getmask idx good;
    idx_bad ← np_getmask idx bad;
    sorted_good ← gather idx_good argsorted;
    if na_last then
      let n := mask_sum good in
      sortedIdx ← setslice sortedIdx None (Some (Z.of_nat n)) sorted_good;
      setslice sortedIdx (Some (Z.of_nat n)) None idx_bad
    else
      let n := mask_sum bad in
      sortedIdx ← setslice sortedIdx (Some (Z.of_nat n)) None sorted_good;
      setslice sortedIdx None (Some (Z.of_nat n)) idx_bad.

Definition order (self : Series) (na_last ascending : bool) : result Series :=
    sortedIdx ← order_sortedIdx self na_last ascending;
    vals ← gather (data (values self)) sortedIdx;
    idx ← gather (index self) sortedIdx;
    Series_new (mk_ndarray (dtype (values self)) vals) idx (name self).
End order.

Definition sort_index (self : Series) (ascending : bool) : result Series :=
  let '(new_labels, indexer) := Index_order (index self) ascending in
  new_values ← np_take (values self) indexer;
  Series_new new_values new_labels (name self).

(** ** Shifting *)

(** [Series.shift(periods)] without a frequency. *)
Definition shift (self : Series) (periods : Z) : result Series :=
  if decide (periods = 0)%Z then copy self
  else
    let new_values := np_empty (length (data (values self))) (dtype (values self)) in
    let new_values := mk_ndarray (_maybe_upcast_dtype (dtype new_values))
                                 (data new_values) in
    d ← (if decide (periods > 0)%Z then
           d ← setslice (data new_values) (Some periods) None
                        (getslice (data (values self)) None (Some (- periods)%Z));
           Ok (setslice_scalar d None (Some periods) VNaN)
         else
           d ← setslice (data new_values) None (Some periods)
                        (getslice (data (values self)) (Some (- periods)%Z) None);
           Ok (setslice_scalar d (Some periods) None VNaN));
    Series_new (mk_ndarray (dtype new_values) d) (index self) (name self).

(** ** Combination *)

(** numpy's promotion of two element kinds (np.where, np.concatenate). *)
Definition np_promote (d1 d2 : Dtype) : Dtype :=
  if decide (d1 = d2) then d1
  else match d1, d2 with
       | Boolean, Integer | Integer, Boolean => Integer
       | Boolean, Floating | Floating, Boolean => Floating
       | Integer, Floating | Floating, Integer => Floating
       | _, _ => Object
       end.

(** [Series._binop(other, func, fill_value=fill_value)]; [func] receives the
    two aligned buffers. *)
Definition _binop (self other : Series)
    (func : ndarray → ndarray → result ndarray) (fill_value : option value)
    : result Series :=
  let new_index := index self in
  let this := self in
  '(this, other, new_index) ←
     (if negb (Index_equals (index self) (index other)) then
        '(l, r) ← align self other outer true None None None;
        Ok (the self l, the other r, index (the self l))
      else Ok (this, other, new_index));
  let this_vals := values this in
  let other_vals := values other in
  '(this_vals, other_vals) ←
     match fill_value with
     | Some fill_value =>
         let this_mask := isnull_arr this_vals in
         let other_mask := isnull_arr other_vals in
         mask ← mask_xor this_mask other_mask;
         m1 ← mask_and this_mask mask;
         m2 ← mask_and other_mask mask;
         Ok (mk_ndarray (dtype this_vals) (putmask (data this_vals) m1 fill_value),
             mk_ndarray (dtype other_vals) (putmask (data other_vals) m2 fill_value))
     | None => Ok (this_vals, other_vals)
     end;
  result ← func this_vals other_vals;
  let name := _maybe_match_name self other in
  Series_new result new_index name.

(** [Series.get(label, default)] *)
Definition get (self : Series) (l : keyelt) (default : value) : result item :=
  try_except (Index_get_value self (KeyScalar l)) KeyError (Ok (ItemValue default)).

Definition key_of_label (l : label) : keyelt :=
  match l with LInt z => KInt z | LStr s => KStr s end.

(** [Series.combine(other, func, fill_value)] for a Series [other]: one call
    of [func] per label of the union, its result stored into a buffer of the
    receiver's kind ([np.empty(len(new_index), dtype=self.dtype)]); storing
    anything but a scalar into that buffer is refused by numpy. *)
Definition combine (self other : Series) (func : value → value → result value)
    (fill_value : value) : result Series :=
  let new_index := Index_union (index self) (index other) in
  let new_name := _maybe_match_name self other in
  new_values ←
    mapR (λ idx,
            lv ← get self (key_of_label idx) fill_value;
            rv ← get other (key_of_label idx) fill_value;
            match lv, rv with
            | ItemValue lv, ItemValue rv =>
                r ← func lv rv; np_store (dtype (values self)) r
            | _, _ => Raise ValueError
            end) new_index;
  Series_new (mk_ndarray (dtype (values self)) new_values) new_index new_name.

Definition combine_first (self other : Series) : result Series :=
  let new_index := Index_union (index self) (index other) in
  this ← the self <$> reindex self (Some new_index) VNaN false;
  other ← the other <$> reindex other (Some new_index) VNaN false;
  let name := _maybe_match_name self other in
  Series_new
    (mk_ndarray (np_promote (dtype (values this)) (dtype (values other)))
                (np_where (isnull_arr (values this))
                          (data (values other)) (data (values this))))
    new_index name.

(** ** Function application *)

(** The element kind inferred for a freshly computed object buffer
    (lib.maybe_convert_objects). *)
Definition infer_values_dtype (l : list value) : Dtype :=
  if forallb (λ v, match v with VNum _ => true | _ => false end) l then Integer
  else if forallb (λ v, match v with VBool _ => true | _ => false end) l then Boolean
  else if forallb (λ v, match v with VNum _ | VNaN => true | _ => false end) l
  then Floating
  else Object.

(** Modelled from the spec: lib.map_infer and lib.map_infer_mask are missing
    from the source; per-element application, skipping masked elements. *)
Definition map_infer (l : list value) (f : value → result value) : result ndarray :=
  d ← mapR f l; Ok (mk_ndarray (infer_values_dtype d) d).
Definition map_infer_mask (l : list value) (f : value → result value)
    (mask : list bool) : result ndarray :=
  d ← zipR (λ v (b : bool), if b then Ok v else f v) l mask;
  Ok (mk_ndarray (infer_values_dtype d) d).

Inductive map_arg :=
  | MapSeries (arg : Series)
  | MapFunction (f : value → result value).

(** A value looked up as a label. *)
Definition label_of_value (v : value) : option label :=
  match v with
  | VNum z => Some (LInt z)
  | VBool b => Some (LInt (Z.b2z b))
  | VNaN | VNone => None
  end.

Definition get_indexer_values (idx : Index) (vals : list value) : list Z :=
  (λ v, match label_of_value v ≫= get_loc idx with
        | Some p => Z.of_nat p
        | None => (-1)%Z
        end) <$> vals.

(** [Series.map(arg, na_action)]; a dict argument is first turned into a
    Series by the constructor. *)
Definition map (self : Series) (arg : map_arg) (na_action_ignore : bool)
    : result Series :=
  let values_ := data (values self) in
  let map_f := if na_action_ignore
               then (λ vs f, map_infer_mask vs f (isnull <$> values_))
               else map_infer in
  match arg with
  | MapSeries arg =>
      let indexer := get_indexer_values (index arg) values_ in
      new_values ← take_1d (values arg) indexer VNaN;
      Series_new new_values (index self) (name self)
  | MapFunction f =>
      mapped ← map_f values_ f;
      Series_new mapped (index self) (name self)
  end.

(** A Python callable as [Series.apply] uses it: called on the whole Series
    it returns an array, something else (None here), or raises; called on
    one element it returns a value or raises. *)
Record callable := mk_callable {
  on_series : Series → result (option ndarray);
  on_value : value → result value
}.

Definition apply (self : Series) (f : callable) : result Series :=
  match (result ← on_series f self;
         match result with
         | Some result => Series_new result (index self) (name self)
         | None => Raise ValueError
         end) with
  | Ok result => Ok result
  | Raise _ =>
      mapped ← map_infer (data (values self)) (on_value f);
      Series_new mapped (index self) (name self)
  end.

(** ** Assignment *)

(** Modelled from the spec: the index engine's set_value is missing from the
    source; it fails with KeyError ("LabelNotFound") for an absent label
    and otherwise stores the value at the position of the label, converted
    to the buffer's element kind: an integer-kind buffer cannot take a
    missing value. *)
Definition engine_set_value (self : Series) (l : label) (v : value) : result Series :=
  if bool_decide (l ∈ index self)
  then
    v ← np_store (dtype (values self)) v;
    Ok (with_data self (putmask (data (values self)) (positions_of (index self) l) v))
  else Raise KeyError.

(** [Series.set_value(label, value)]: the receiver after the call and the
    object returned. *)
Definition set_value (self : Series) (l : label) (v : value)
    : result (Series * returned) :=
  match engine_set_value self l v with
  | Ok self' => Ok (self', Self)
  | Raise KeyError =>
      let new_index :=
        if decide (length (index self) = 0) then [l]
        else Index_insert (index self) (length (data (values self))) l in
      let new_values :=
        mk_ndarray (np_promote (dtype (values self)) (scalar_dtype v))
                   (data (values self) ++ [v]) in
      r ← Series_new new_values new_index (name self);
      Ok (self, New r)
  | Raise e => Raise e
  end.

(** [values[key] = value] for a list of positions: the positions are
    resolved against the buffer, the value is converted to the buffer's
    kind, and the converted value is written at every position. *)
Definition set_positions (d : Dtype) (l : list value) (positions : list Z)
    (v : value) : result (list value) :=
  ps ← mapR (norm_pos (length l)) positions;
  v ← np_store d v;
  Ok (foldl (λ acc p, <[p := v]> acc) l ps).

(** Modelled from the spec: lib.convert_scalar is missing from the source.
    The spec gives it no conversion of its own for the element kinds of
    this development, so it hands the value on; that an integer-kind buffer
    takes no missing value is enforced by the store that follows. *)
Definition convert_scalar (arr : ndarray) (v : value) : value := v.

(** [Series._set_values(key, value)]:
    [values[key] = lib.convert_scalar(values, value)], the assignment
    converting the value to the buffer's kind. *)
Definition _set_values (self : Series) (k : key) (v : value) : result Series :=
  let d := dtype (values self) in
  let v := convert_scalar (values self) v in
  match k with
  | KeyMask m =>
      if decide (length m = length (data (values self)))
      then v ← np_store d v;
           Ok (with_data self (putmask (data (values self)) m v))
      else Raise IndexError
  | KeyList ks =>
      l ← set_positions d (data (values self)) (key_int <$> ks) v;
      Ok (with_data self l)
  | KeyScalar k =>
      l ← set_positions d (data (values self)) [key_int k] v;
      Ok (with_data self l)
  | KeyEllipsis =>
      v ← np_store d v;
      Ok (with_data self (replicate (length (data (values self))) v))
  end.

Definition _set_labels (self : Series) (ks : list keyelt) (v : value) : result Series :=
  let indexer := get_indexer (index self) (label_of <$> ks) in
  if bool_decide ((-1)%Z ∈ indexer) then Raise ValueError
  else
    l ← set_positions (dtype (values self)) (data (values self)) indexer v;
    Ok (with_data self l).

(** The characters of a string, as [list(key)] gives them. *)
Definition chars (s : string) : list keyelt :=
  (λ c, KStr (String c EmptyString)) <$> list_ascii_of_string s.

(** [_set_with] on a list key. *)
Definition _set_with_list (self : Series) (ks : list keyelt) (v : value)
    : result Series :=
  let key_type := infer_dtype ks in
  if decide (key_type = inf_integer) then
    if decide (inferred_type (index self) = inf_integer)
    then _set_labels self ks v
    else _set_values self (KeyList ks) v
  else if decide (key_type = inf_boolean) then _set_values self (KeyList ks) v
  else _set_labels self ks v.

(** [_set_with] for a key that is neither a slice nor a tuple; a key that
    is not a list or an array goes through [list(key)], which fails for a
    number and for the Ellipsis and splits a string into its characters. *)
Definition _set_with (self : Series) (k : key) (v : value) : result Series :=
  match k with
  | KeyMask _ => _set_values self k v
  | KeyList ks => _set_with_list self ks v
  | KeyScalar (KStr s) => _set_with_list self (chars s) v
  | KeyScalar _ | KeyEllipsis => Raise TypeError
  end.

(** pandas.core.common.is_integer: a Python boolean is an integer. *)
Definition is_integer (k : keyelt) : bool :=
  match k with KInt _ | KBool _ => true | KStr _ => false end.

(** [Series.__setitem__(key, value)]: the receiver after the call.  A
    KeyError of the label write leads to the positional write for an
    integer key on an index that is not integer-typed; a TypeError of the
    label write is swallowed ([except TypeError]) and the key is handed to
    [_set_with]; any other error of the label write is raised. *)
Definition __setitem__ (self : Series) (k : key) (v : value) : result Series :=
  match k with
  | KeyScalar ke =>
      match engine_set_value self (label_of ke) v with
      | Ok s => Ok s
      | Raise KeyError =>
          if is_integer ke && negb (bool_decide (inferred_type (index self) = inf_integer))
          then _set_values self k v
          else Raise KeyError
      | Raise TypeError => _set_with self k v
      | Raise e => Raise e
      end
  | KeyEllipsis => _set_values self KeyEllipsis v
  | KeyList _ | KeyMask _ =>
      let k := if _is_bool_indexer k then as_bool_array k else k in
      _set_with self k v
  end.

(** ** Objects and identity

    Series objects live in a store; a method call on the object at a
    location commits the receiver's new state and either hands back the
    receiver's own location or allocates the newly constructed Series. *)

Abbreviation store := (gmap nat Series).

Definition alloc (h : store) (s : Series) : store * nat :=
  let l := fresh (dom h) in (<[l := s]> h, l).

Definition commit (h : store) (l : nat) (r : Series * returned) : store * nat :=
  let h' := <[l := r.1]> h in
  match r.2 with
  | Self => (h', l)
  | New s => alloc h' s
  end.

Definition deref (h : store) (l : nat) : result Series :=
  match h !! l with
  | Some s => Ok s
  | None => Raise KeyError
  end.

Definition obj_reindex (h : store) (l : nat) (index_ : option Index)
    (fill_value : value) (copy_ : bool) : result (store * nat) :=
  s ← deref h l;
  r ← reindex s index_ fill_value copy_;
  Ok (commit h l (s, r)).

Definition obj_set_value (h : store) (l : nat) (lab : label) (v : value)
    : result (store * nat) :=
  s ← deref h l;
  r ← set_value s lab v;
  Ok (commit h l r).

(** ** Operators used in examples *)

Definition add_scalar (a b : value) : result value :=
  match a, b with
  | VNone, _ | _, VNone => Raise TypeError
  | VNaN, _ | _, VNaN => Ok VNaN
  | a, b => Ok (VNum (value_key a + value_key b))
  end.
Definition operator_add : operator := mk_operator add_scalar np_promote.

(** [operator.eq]: NaN is not equal to itself. *)
Definition eq_scalar (a b : value) : result value :=
  match a, b with
  | VNaN, _ | _, VNaN => Ok (VBool false)
  | VNone, VNone => Ok (VBool true)
  | VNone, _ | _, VNone => Ok (VBool false)
  | a, b => Ok (VBool (value_key a =? value_key b)%Z)
  end.
Definition operator_eq : operator := mk_operator eq_scalar (λ _ _, Boolean).

(** [Series(dict)]: the index is the sorted keys. *)
Definition Series_of_dict (d : Dtype) (items : list (label * value))
    (nm : option string) : result Series :=
  let idx := msort label_leb (items.*1) in
  vals ← mapR (λ l, match list_find (λ p : label * value, p.1 = l) items with
                    | Some (_, p) => Ok p.2
                    | None => Raise KeyError
                    end) idx;
  Series_new (mk_ndarray d vals) idx nm.

(** ** Series of the specification's scenarios *)

(** [Series({'a': 3, 'b': 1, 'c': 2})] and its expected ordering. *)
Definition abc : Series :=
  mk_Series (mk_ndarray Integer [VNum 3; VNum 1; VNum 2])
            [LStr "a"; LStr "b"; LStr "c"] None.
Definition abc_ordered : Series :=
  mk_Series (mk_ndarray Integer [VNum 1; VNum 2; VNum 3])
            [LStr "b"; LStr "c"; LStr "a"] None.

(** [A = {'x': 1, 'y': nan}], [B = {'x': nan, 'y': 2}] and their sum with
    fill value 0. *)
Definition xy_A : Series :=
  mk_Series (mk_ndarray Floating [VNum 1; VNaN]) [LStr "x"; LStr "y"] None.
Definition xy_B : Series :=
  mk_Series (mk_ndarray Floating [VNaN; VNum 2]) [LStr "x"; LStr "y"] None.
Definition xy_sum : Series :=
  mk_Series (mk_ndarray Floating [VNum 1; VNum 2]) [LStr "x"; LStr "y"] None.

(** A Series whose only value is missing. *)
Definition x_nan : Series :=
  mk_Series (mk_ndarray Floating [VNaN]) [LStr "x"] None.


(** The integer-kind array [1, 2, 3]. *)
Definition int123 : Series :=
  mk_Series (mk_ndarray Integer [VNum 1; VNum 2; VNum 3])
            [LInt 0; LInt 1; LInt 2] None.

(** Two equal values in a buffer of object kind. *)
Definition obj_ties : Series :=
  mk_Series (mk_ndarray Object [VNum 1; VNum 1]) [LStr "a"; LStr "b"] None.


(** ** Auxiliary notions of the proofs *)

(** The value a Series holds at a label (its first occurrence), or [fill]
    when the label is absent. *)
Definition value_at (s : Series) (l : label) (fill : value) : value :=
  match get_loc (index s) l with
  | Some p => default fill (data (values s) !! p)
  | None => fill
  end.

(** The operand [_binop] passes on for a slot holding [a] whose opposite
    slot holds [b]: the fill value where [a] alone is missing. *)
Definition fill_one_sided (v a b : value) : value :=
  if isnull a && negb (isnull b) then v else a.

(** The mask [notnull(x) & notnull(y)]. *)
Definition both_notnull (x y : list value) : list bool :=
  zip_with andb (notnull <$> x) (notnull <$> y).


Definition ret_wf (r : ret) : Prop :=
  match r with RetSeries s => wf s | NotImplemented => True end.

(** The elements of a list are comparable in the direction of their
    positions: what a merge relies on to keep equal keys in order. *)
Definition cross {A} (leb : A → A → bool) (R : relation A) (l : list A) : Prop :=
  ∀ i j x y, i < j → l !! i = Some x → l !! j = Some y →
             if leb x y then R x y else R y x.

(** The order a stable sort by value puts position-tagged elements in. *)
Definition tagR (p q : nat * value) : Prop :=
  (value_key p.2 ≤ value_key q.2)%Z ∧ (value_key p.2 = value_key q.2 → p.1 < q.1).

(** [p] lists the positions of [l] in ascending order of value. *)
Definition sorts (l : list value) (p : list nat) : Prop :=
  p ≡ₚ seq 0 (length l) ∧
  StronglySorted (λ i j, ∃ v w, l !! i = Some v ∧ l !! j = Some w ∧
                                (value_key v ≤ value_key w)%Z) p.

(** [p] keeps positions of equal value in their original order. *)
Definition stable_on (l : list value) (p : list nat) : Prop :=
  ∀ a b i j v w, a < b → p !! a = Some i → p !! b = Some j →
                 l !! i = Some v → l !! j = Some w →
                 value_key v = value_key w → i < j.

(** What is known of numpy's default [argsort]: it sorts. *)
Definition argsort_valid (f : list value → list nat) : Prop := ∀ l, sorts l (f l).

(** ** Counting and valid labels *)

(** [Series.count()] without a level: [notnull(self.values).sum()]. *)
Definition count (self : Series) : nat := mask_sum (notnull_arr (values self)).

(** [mask.argmin()] on a boolean array: the first position of the least
    element, which is the first False when there is one and position 0
    otherwise; numpy refuses an empty array. *)
Definition np_argmin (mask : list bool) : result nat :=
  match mask with
  | [] => Raise ValueError
  | _ => Ok (default 0 (fst <$> list_find (λ b, b = false) mask))
  end.

(** [a[i]] for one position. *)
Definition np_item {A} (l : list A) (i : nat) : result A :=
  match l !! i with Some x => Ok x | None => Raise IndexError end.

(** [Series.first_valid_index()]: None is Python's None. *)
Definition first_valid_index (self : Series) : result (option label) :=
  if decide (length (data (values self)) = 0) then Ok None
  else
    let mask := isnull_arr (values self) in
    i ← np_argmin mask;
    b ← np_item mask i;
    if b : bool then Ok None else Some <$> np_item (index self) i.

Definition last_valid_index (self : Series) : result (option label) :=
  if decide (length (data (values self)) = 0) then Ok None
  else
    let mask := isnull <$> reverse (data (values self)) in
    i ← np_argmin mask;
    b ← np_item mask i;
    if b : bool then Ok None
    else Some <$> np_item (index self) (length (data (values self)) - i - 1).

(** ** Conditional replacement *)


(** [Series.where(cond, other, inplace)] for a boolean array [cond] and a
    scalar [other]: the receiver after the call and the object returned.
    The scalar is written through [_set_with] at the positions where the
    condition is false. *)
Definition Series_where (self : Series) (cond : list bool) (other : value)
    (inplace : bool) : result (Series * returned) :=
  if negb (bool_decide (length cond = length (data (values self))))
  then Raise ValueError
  else
    ser ← (if inplace then Ok self else copy self);
    r ← _set_with ser (KeyMask (negb <$> cond)) other;
    Ok (if inplace then (r, Self) else (self, New r)).

(** [Series.mask(cond)]: [self.where(~cond, nan)]. *)
Definition Series_mask (self : Series) (cond : list bool)
    : result (Series * returned) :=
  Series_where self (negb <$> cond) VNaN false.

(** ** Updating in place *)



(** ** Flexible arithmetic methods *)

(** The methods [add], [sub], [mul] and [div] made by [_flex_method]:
    [self._binop(other, op, fill_value=fill_value)], where [_binop] refuses
    an operand that is not a Series. *)
Definition _flex_method (o : operator) (self : Series) (other : other_operand)
    (fill_value : option value) : result Series :=
  match other with
  | OSeries other => _binop self other (np_op o) fill_value
  | _ => Raise AssertionError
  end.

(** ** The order of labels *)

(** [label_leb] as a relation. *)
Definition label_le (x y : label) : Prop := label_leb x y = true.

(** ** Membership *)

(** [Series.__contains__(key)]: [key in self.index].  Modelled from the
    spec: Index.__contains__ is missing from the source; a label is in an
    index when it occurs in it. *)
Definition __contains__ (self : Series) (k : keyelt) : bool :=
  bool_decide (label_of k ∈ index self).

(** ** Renaming labels *)

Global Instance label_countable : Countable label.
Proof.
  refine (inj_countable'
            (λ l, match l with LInt z => inl z | LStr s => inr s end)
            (λ x, match x with inl z => LInt z | inr s => LStr s end) _).
  by intros [].
Defined.

(** The argument of [Series.rename]: a dict or a function on labels. *)
Inductive mapper :=
  | MapperDict (d : gmap label label)
  | MapperFunction (f : label → label).

Definition _get_rename_function (m : mapper) : label → label :=
  match m with
  | MapperDict d => λ x, match d !! x with Some y => y | None => x end
  | MapperFunction f => f
  end.

(** [Series.rename(mapper, inplace)]: the receiver after the call and the
    object returned. *)
Definition rename (self : Series) (m : mapper) (inplace : bool)
    : result (Series * returned) :=
  let mapper_f := _get_rename_function m in
  result ← (if inplace then Ok self else copy self);
  r ← set_index (values result) (mapper_f <$> index self) (name result);
  Ok (if inplace then (r, Self) else (self, New r)).

(** ** Resetting the index *)

(** Python's [a or b] on two optional strings: None and the empty string
    are false. *)
Definition py_or (a b : option string) : option string :=
  match a with
  | Some EmptyString | None => b
  | Some _ => a
  end.

(** [np.arange(n)] as labels. *)
Definition arange_labels (n : nat) : Index := (λ i, LInt (Z.of_nat i)) <$> seq 0 n.

(** What [reset_index] returns: a Series, or the DataFrame built by
    [DataFrame(self).reset_index(...)], which is outside this module. *)
Inductive reset_ret :=
  | ResetSeries (r : returned)
  | ResetFrame.

(** [Series.reset_index(level=None, drop, name, inplace)]: the receiver
    after the call and what is returned. *)
Definition reset_index (self : Series) (drop : bool) (name_ : option string)
    (inplace : bool) : result (Series * reset_ret) :=
  if drop then
    let new_index := arange_labels (length (data (values self))) in
    if inplace then
      s ← set_index (values self) new_index (name self);
      Ok (mk_Series (values s) (index s) (py_or name_ (name s)), ResetSeries Self)
    else
      r ← Series_new (values self) new_index (name self);
      Ok (self, ResetSeries (New r))
  else if inplace then Raise TypeError
  else Ok (self, ResetFrame).

(** ** Cumulative sums *)

Section cumsum.
  (** numpy's addition of two elements of one buffer, with the rounding or
      the wrap-around of the buffer's kind. *)
Variable np_add : value → value → result value.

(** The running sum from an accumulator on. *)
Fixpoint cumsum_from (acc : value) (l : list value) : result (list value) :=
  match l with
  | [] => Ok []
  | x :: l => y ← np_add acc x; k ← cumsum_from y l; Ok (y :: k)
  end.

(** [arr.cumsum()]: the first slot holds the first element (as an integer
    when the buffer is boolean), every later slot the sum of the slot
    before and its element; the sum of booleans is of integer kind. *)
Definition np_cumsum (a : ndarray) : result ndarray :=
  let to_int (x : value) :=
    if decide (dtype a = Boolean) then VNum (value_key x) else x in
  d ← match data a with
      | [] => Ok []
      | x :: l => k ← cumsum_from (to_int x) (to_int <$> l); Ok (to_int x :: k)
      end;
  Ok (mk_ndarray (if decide (dtype a = Boolean) then Integer else dtype a) d).

(** [Series.cumsum(skipna)] *)
Definition cumsum (self : Series) (skipna : bool) : result Series :=
  let arr := values self in
  let do_mask := skipna && negb (is_integer_dtype (dtype (values self))) in
  let mask := isnull_arr arr in
  let arr := if do_mask then mk_ndarray (dtype arr) (putmask (data arr) mask (VNum 0))
             else arr in
  result ← np_cumsum arr;
  let result := if do_mask
                then mk_ndarray (dtype result) (putmask (data result) mask VNaN)
                else result in
  Series_new result (index self) None.
End cumsum.

(** ** Positions of the sorted values *)

Inductive sort_kind := mergesort | quicksort | heapsort.

(** Positions stored into a value buffer. *)
Definition as_values (positions : list nat) : list value :=
  (λ i, VNum (Z.of_nat i)) <$> positions.

Section argsort.
  (** [np.argsort] with an algorithm that is not stable. *)
Variable argsort_default : list value → list nat.

  (** [np.argsort(arr, kind=kind)]: the stable sort is not available for
      object arrays. *)
Definition np_argsort (kind : sort_kind) (arr : ndarray) : result (list nat) :=
  match kind with
  | mergesort => if decide (dtype arr = Object) then Raise TypeError
                 else Ok (argsort_mergesort (data arr))
  | _ => Ok (argsort_default (data arr))
  end.

(** [Series.argsort(kind=kind)] *)
Definition argsort (self : Series) (kind : sort_kind) : result Series :=
  let values_ := values self in
  let mask := isnull_arr values_ in
  if existsb id mask then
    let notmask := negb <$> mask in
    sub ← np_getmask (data values_) notmask;
    sorted ← np_argsort kind (mk_ndarray (dtype values_) sub);
    d ← np_setmask (data values_) notmask (as_values sorted);
    Series_new (mk_ndarray (dtype values_) d) (index self) (name self)
  else
    sorted ← np_argsort kind values_;
    Series_new (mk_ndarray Integer (as_values sorted)) (index self) (name self).
End argsort.

(** ** Conversion to a dict *)



(** ** The last valid value as of a label *)

(** Python 2's [a < b] on labels. *)
Definition label_ltb (a b : label) : bool := negb (label_leb b a).

(** numpy's [a.searchsorted(v, side='right')]: a binary search for the
    first position whose element is greater than [v]. *)
Fixpoint binsearch_right (fuel : nat) (a : Index) (v : label) (lo hi : nat) : nat :=
  match fuel with
  | 0 => lo
  | S fuel =>
      if decide (lo < hi) then
        let mid := lo + (hi - lo) / 2 in
        match a !! mid with
        | Some x => if label_ltb v x then binsearch_right fuel a v lo mid
                    else binsearch_right fuel a v (S mid) hi
        | None => lo
        end
      else lo
  end.
Definition searchsorted_right (a : Index) (v : label) : nat :=
  binsearch_right (length a) a v 0 (length a).

(** The loop [while isnull(values[loc]) and loc > 0: loc -= 1] and the read
    [values[loc]] that follows it. *)
Fixpoint asof_scan (vals : list value) (loc : nat) : result value :=
  match vals !! loc with
  | None => Raise IndexError
  | Some x =>
      if isnull x then
        match loc with
        | 0 => Ok x
        | S loc => asof_scan vals loc
        end
      else Ok x
  end.

(** [Series.asof(where)] for one number [where] (a string would first be
    parsed as a date). *)
Definition asof (self : Series) (where_ : Z) : result value :=
  start ← np_item (index self) 0;
  if label_ltb (LInt where_) start then Ok VNaN
  else
    let loc := searchsorted_right (index self) (LInt where_) in
    let loc := if decide (0 < loc) then loc - 1 else loc in
    asof_scan (data (values self)) loc.

(** ** Auxiliary notions of the further properties *)

(** A Series over the labels 0, 1, 2 whose middle value is missing. *)
Definition gap_series : Series :=
  mk_Series (mk_ndarray Floating [VNum 1; VNaN; VNum 3])
            [LInt 0; LInt 1; LInt 2] None.

(** * Properties *)

(** ** The error monad and the traversals *)

Lemma bind_Ok {A B} (m : result A) (f : A → result B) b :
  m ≫= f = Ok b ↔ ∃ a, m = Ok a ∧ f a = Ok b.
Proof. destruct m; simpl; split; [eauto|intros (?&[= <-]&?); done| done |intros (?&?&?); done]. Qed.

Lemma fmap_Ok {A B} (f : A → B) (m : result A) b :
  f <$> m = Ok b ↔ ∃ a, m = Ok a ∧ b = f a.
Proof.
  destruct m; simpl; split.
  - intros [= <-]; eauto.
  - intros (?&[= <-]&->); done.
  - done.
  - intros (?&?&?); done.
Qed.

Lemma bind_Ok_l {A B} (a : A) (f : A → result B) : Ok a ≫= f = f a.
Proof. done. Qed.

Ltac simp_ok := repeat (rewrite bind_Ok_l; cbv beta).

Ltac inv_ok :=
  repeat match goal with
  | H : _ ≫= _ = Ok _ |- _ => apply bind_Ok in H as (? & ? & H)
  | H : _ <$> _ = Ok _ |- _ => apply fmap_Ok in H as (? & H & ?)
  | H : Ok _ = Ok _ |- _ => injection H as H
  | H : Raise _ = Ok _ |- _ => discriminate H
  end.

Lemma mapR_Ok {A B} (f : A → result B) l k :
  mapR f l = Ok k ↔ Forall2 (λ a b, f a = Ok b) l k.
Proof.
  revert k; induction l as [|a l IH]; intros k; simpl.
  - split; [intros [= <-]; constructor | by inversion 1].
  - split.
    + intros H. inv_ok. subst. constructor; [done|]. by apply IH.
    + inversion 1 as [|? b ? k' Hab Hl]; subst. rewrite Hab. simpl.
      apply IH in Hl. rewrite Hl. done.
Qed.

Lemma mapR_length {A B} (f : A → result B) l k :
  mapR f l = Ok k → length k = length l.
Proof. intros H%mapR_Ok. symmetry. by eapply Forall2_length. Qed.

Lemma mapR_total {A B} (f : A → result B) l :
  Forall (λ a, is_ok (f a) = true) l → ∃ k, mapR f l = Ok k.
Proof.
  induction 1 as [|a l Ha _ [k IH]]; simpl; [by eexists|].
  destruct (f a); [|done]. simpl. rewrite IH. by eexists.
Qed.

Lemma zipR_Ok {A B C} (f : A → B → result C) x y k :
  zipR f x y = Ok k ↔ Forall2 (λ ab c, f ab.1 ab.2 = Ok c) (zip x y) k.
Proof.
  revert y k; induction x as [|a x IH]; intros [|b y] k; simpl;
    try (split; [intros [= <-]; constructor | by inversion 1]).
  split.
  - intros H. inv_ok. subst. constructor; [done|]. by apply IH.
  - inversion 1 as [|? c ? k' Hab Hl]; subst. simpl in Hab. rewrite Hab. simpl.
    apply IH in Hl. rewrite Hl. done.
Qed.

Lemma zipR_length {A B C} (f : A → B → result C) x y k :
  length x = length y → zipR f x y = Ok k → length k = length x.
Proof.
  intros Hl H%zipR_Ok. apply Forall2_length in H.
  rewrite length_zip_with in H. lia.
Qed.

Lemma zipR_Raise {A B C} (f : A → B → result C) x y e :
  zipR f x y = Raise e → ∃ i a b, x !! i = Some a ∧ y !! i = Some b ∧ f a b = Raise e.
Proof.
  revert y; induction x as [|a x IH]; intros [|b y]; simpl; try done.
  destruct (f a b) eqn:Hab; simpl.
  - destruct (zipR f x y) eqn:Hl; simpl; [done|]. intros [= <-].
    destruct (IH y) as (i & a' & b' & ? & ? & ?); [done|].
    by exists (S i), a', b'.
  - intros [= <-]. by exists 0, a, b.
Qed.

Lemma zipR_total {A B C} (f : A → B → result C) x y :
  (∀ i a b, x !! i = Some a → y !! i = Some b → is_ok (f a b) = true) →
  ∃ k, zipR f x y = Ok k.
Proof.
  intros H. destruct (zipR f x y) eqn:E; [by eexists|].
  apply zipR_Raise in E as (i & a & b & Ha & Hb & Hf).
  specialize (H i a b Ha Hb). by rewrite Hf in H.
Qed.

Lemma zipR_lookup {A B C} (f : A → B → result C) x y k i a b :
  zipR f x y = Ok k → x !! i = Some a → y !! i = Some b →
  ∃ c, k !! i = Some c ∧ f a b = Ok c.
Proof.
  intros H%zipR_Ok Ha Hb.
  assert (zip x y !! i = Some (a, b)) as Hz.
  { rewrite lookup_zip_with, Ha. simpl. by rewrite Hb. }
  destruct (Forall2_lookup_l _ _ _ _ _ H Hz) as (c & ? & ?). eauto.
Qed.

(** ** Merge sort: permutation, order, stability *)

Section msort.
Context {A : Type} (leb : A → A → bool).

Lemma merge_nil_r l : merge leb l [] = l.
  Proof. by destruct l. Qed.

Lemma merge_Permutation l1 l2 : merge leb l1 l2 ≡ₚ l1 ++ l2.
  Proof.
    revert l2; induction l1 as [|x l1 IH]; intros l2; [by destruct l2|].
    induction l2 as [|y l2 IH2]; [by rewrite merge_nil_r, app_nil_r|].
    simpl. destruct (leb x y).
    - by rewrite IH.
    - simpl in IH2. rewrite IH2. by rewrite (Permutation_middle (x :: l1) l2 y).
  Qed.

Lemma msort_fuel_Permutation fuel l : msort_fuel leb fuel l ≡ₚ l.
  Proof.
    revert l; induction fuel as [|fuel IH]; intros l; [done|].
    destruct l as [|a [|b l]]; [done..|].
    cbn -[firstn skipn Nat.div length merge].
    rewrite merge_Permutation, !IH. by rewrite take_drop.
  Qed.

Lemma msort_Permutation l : msort leb l ≡ₚ l.
  Proof. apply msort_fuel_Permutation. Qed.



Section sorted.
Context (R : relation A) `{!Transitive R}.

Lemma merge_StronglySorted l1 l2 :
      StronglySorted R l1 → StronglySorted R l2 →
      (∀ x y, x ∈ l1 → y ∈ l2 → if leb x y then R x y else R y x) →
      StronglySorted R (merge leb l1 l2).
    Proof.
      revert l2; induction l1 as [|x l1 IH]; intros l2 H1 H2 Hc; [by destruct l2|].
      induction l2 as [|y l2 IH2]; [done|].
      simpl. pose proof (Hc x y) as Hxy.
      apply StronglySorted_cons in H1 as [Hx1 H1].
      apply StronglySorted_cons in H2 as [Hy2 H2].
      destruct (leb x y) eqn:E.
      - apply StronglySorted_cons. split.
        + rewrite merge_Permutation. apply Forall_app. split; [done|].
          assert (R x y) as Rxy by (apply Hxy; by left).
          constructor; [done|]. eapply Forall_impl; [exact Hy2|].
          intros z Hz. by transitivity y.
        + apply IH; [done|by apply StronglySorted_cons|].
          intros; apply Hc; [by right|done].
      - apply StronglySorted_cons. split.
        + assert (R y x) as Ryx by (apply Hxy; by left).
          change (Forall (R y) (merge leb (x :: l1) l2)).
          rewrite merge_Permutation. apply Forall_app. split; [|done].
          constructor; [done|]. eapply Forall_impl; [exact Hx1|].
          intros z Hz. by transitivity x.
        + apply IH2; [done|]. intros; apply Hc; [done|by right].
    Qed.

Lemma cross_take_drop m l :
      cross leb R l → cross leb R (firstn m l) ∧ cross leb R (skipn m l) ∧
      ∀ x y, x ∈ firstn m l → y ∈ skipn m l → if leb x y then R x y else R y x.
    Proof.
      intros Hc. split_and!.
      - intros i j x y Hij Hi Hj.
        apply lookup_take_Some in Hi as [Hi ?]. apply lookup_take_Some in Hj as [Hj ?].
        by eapply (Hc i j).
      - intros i j x y Hij Hi Hj. rewrite lookup_drop in Hi, Hj.
        eapply (Hc (m + i) (m + j)); [lia|done..].
      - intros x y [i Hi]%list_elem_of_lookup [j Hj]%list_elem_of_lookup.
        apply lookup_take_Some in Hi as [Hi ?]. rewrite lookup_drop in Hj.
        eapply (Hc i (m + j)); [lia|done..].
    Qed.

Lemma msort_fuel_StronglySorted fuel l :
      length l ≤ fuel → cross leb R l → StronglySorted R (msort_fuel leb fuel l).
    Proof.
      revert l; induction fuel as [|fuel IH]; intros l Hlen Hc.
      { destruct l; [constructor|simpl in Hlen; lia]. }
      destruct l as [|a [|b l]]; [constructor|repeat constructor|].
      cbn -[firstn skipn Nat.div length merge].
      set (k := a :: b :: l) in *. set (m := length k / 2).
      assert (0 < m < length k) as Hm.
      { subst m. split.
        - apply Nat.div_str_pos. subst k. simpl. lia.
        - apply Nat.div_lt; subst k; simpl; lia. }
      destruct (cross_take_drop m k Hc) as (Hc1 & Hc2 & Hc3).
      apply merge_StronglySorted.
      - apply IH; [rewrite length_take; lia|done].
      - apply IH; [rewrite length_drop; lia|done].
      - intros x y Hx Hy. rewrite msort_fuel_Permutation in Hx, Hy. by apply Hc3.
    Qed.

Lemma msort_StronglySorted l : cross leb R l → StronglySorted R (msort leb l).
    Proof. by apply msort_fuel_StronglySorted. Qed.
End sorted.
End msort.

Lemma StronglySorted_lookup {A} (R : relation A) l i j x y :
  StronglySorted R l → i < j → l !! i = Some x → l !! j = Some y → R x y.
Proof.
  intros Hs; revert i j; induction Hs as [|a l Hs IH Ha]; intros i j Hij Hi Hj; [done|].
  destruct j as [|j]; [lia|]. destruct i as [|i]; simpl in *.
  - injection Hi as <-. rewrite Forall_forall in Ha. apply Ha.
    by eapply list_elem_of_lookup_2.
  - apply (IH i j); [lia|done..].
Qed.

Lemma StronglySorted_lookup_2 {A} (R : relation A) l :
  (∀ i j x y, i < j → l !! i = Some x → l !! j = Some y → R x y) →
  StronglySorted R l.
Proof.
  induction l as [|a l IH]; intros H; constructor.
  - apply IH. intros i j x y Hij Hi Hj. apply (H (S i) (S j)); [lia|done..].
  - apply Forall_forall. intros y [j Hj]%list_elem_of_lookup.
    apply (H 0 (S j)); [lia|done..].
Qed.

Global Instance tagR_trans : Transitive tagR.
Proof. intros p q r [H1 H2] [H3 H4]. split; [lia|]. intros. etrans; [apply H2|apply H4]; lia. Qed.

Lemma fst_imap_pair {A} (l : list A) :
  (λ p : nat * A, p.1) <$> imap (λ i v, (i, v)) l = seq 0 (length l).
Proof.
  apply list_eq. intros i. rewrite list_lookup_fmap, list_lookup_imap.
  destruct (l !! i) eqn:E; simpl.
  - symmetry. apply lookup_seq_lt. by eapply lookup_lt_Some.
  - symmetry. apply lookup_seq_ge. by apply lookup_ge_None.
Qed.

Lemma cross_imap_pair (l : list value) :
  cross (λ p q : nat * value, value_leb p.2 q.2) tagR (imap (λ i v, (i, v)) l).
Proof.
  intros i j x y Hij Hi Hj.
  rewrite list_lookup_imap in Hi, Hj.
  destruct (l !! i) as [v|]; [|done]. destruct (l !! j) as [w|]; [|done].
  simpl in *. injection Hi as <-. injection Hj as <-. simpl.
  unfold value_leb, tagR. simpl. destruct (Z.leb_spec (value_key v) (value_key w)).
  - split; [done|lia].
  - split; lia.
Qed.

Lemma argsort_mergesort_Permutation l : argsort_mergesort l ≡ₚ seq 0 (length l).
Proof.
  unfold argsort_mergesort. rewrite msort_Permutation. by rewrite fst_imap_pair.
Qed.

Lemma argsort_mergesort_tagged l a i :
  argsort_mergesort l !! a = Some i →
  ∃ v, l !! i = Some v ∧
       msort (λ p q : nat * value, value_leb p.2 q.2) (imap (λ i v, (i, v)) l) !! a
         = Some (i, v).
Proof.
  unfold argsort_mergesort. rewrite list_lookup_fmap.
  destruct (msort _ _ !! a) as [[i' v]|] eqn:E; [|done]. simpl. intros [= <-].
  exists v. split; [|done].
  apply list_elem_of_lookup_2 in E. rewrite msort_Permutation in E.
  apply list_elem_of_lookup in E as [k Hk]. rewrite list_lookup_imap in Hk.
  destruct (l !! k) eqn:E2; [|done]. simpl in Hk. by injection Hk as <- <-.
Qed.

Lemma argsort_mergesort_order l a b i j :
  a < b → argsort_mergesort l !! a = Some i → argsort_mergesort l !! b = Some j →
  ∃ v w, l !! i = Some v ∧ l !! j = Some w ∧ tagR (i, v) (j, w).
Proof.
  intros Hab (v & Hv & Ha)%argsort_mergesort_tagged (w & Hw & Hb)%argsort_mergesort_tagged.
  exists v, w. split_and!; [done..|].
  eapply StronglySorted_lookup; [|exact Hab|exact Ha|exact Hb].
  apply msort_StronglySorted; [apply _|apply cross_imap_pair].
Qed.

Lemma argsort_mergesort_sorts l : sorts l (argsort_mergesort l).
Proof.
  split; [apply argsort_mergesort_Permutation|].
  apply StronglySorted_lookup_2. intros a b i j Hab Ha Hb.
  destruct (argsort_mergesort_order l a b i j Hab Ha Hb) as (v & w & ? & ? & [? _]).
  by exists v, w.
Qed.

Lemma argsort_mergesort_stable l : stable_on l (argsort_mergesort l).
Proof.
  intros a b i j v w Hab Ha Hb Hv Hw Hkey.
  destruct (argsort_mergesort_order l a b i j Hab Ha Hb) as (v' & w' & Hv' & Hw' & [_ H]).
  simplify_eq. simpl in H. by apply H.
Qed.

Lemma argsort_mergesort_valid : argsort_valid argsort_mergesort.
Proof. intros l. apply argsort_mergesort_sorts. Qed.

Lemma argsort_ties_reversed_valid : argsort_valid argsort_ties_reversed.
Proof.
  intros l. unfold argsort_ties_reversed.
  set (leb := λ p q : nat * value, (value_key p.2 <? value_key q.2)%Z).
  set (R := λ p q : nat * value, (value_key p.2 ≤ value_key q.2)%Z).
  assert (StronglySorted R (msort leb (imap (λ i v, (i, v)) l))) as Hs.
  { apply msort_StronglySorted.
    - intros x y z. unfold R. lia.
    - intros i j x y _ _ _. unfold leb, R.
      destruct (Z.ltb_spec (value_key x.2) (value_key y.2)); lia. }
  split.
  - rewrite msort_Permutation. by rewrite fst_imap_pair.
  - apply StronglySorted_lookup_2. intros a b i j Hab Ha Hb.
    rewrite list_lookup_fmap in Ha, Hb.
    destruct (msort leb _ !! a) as [[i' v]|] eqn:Ea; [|done].
    destruct (msort leb _ !! b) as [[j' w]|] eqn:Eb; [|done].
    simpl in Ha, Hb. injection Ha as ->. injection Hb as ->.
    pose proof (StronglySorted_lookup R _ a b _ _ Hs Hab Ea Eb) as Hvw.
    exists v, w. split_and!; [| |exact Hvw].
    + apply list_elem_of_lookup_2 in Ea. rewrite msort_Permutation in Ea.
      apply list_elem_of_lookup in Ea as [k Hk]. rewrite list_lookup_imap in Hk.
      destruct (l !! k) eqn:E2; [|done]. simpl in Hk. by injection Hk as <- <-.
    + apply list_elem_of_lookup_2 in Eb. rewrite msort_Permutation in Eb.
      apply list_elem_of_lookup in Eb as [k Hk]. rewrite list_lookup_imap in Hk.
      destruct (l !! k) eqn:E2; [|done]. simpl in Hk. by injection Hk as <- <-.
Qed.

(** ** Masks and gathers *)

Lemma mask_sum_cons b m : mask_sum (b :: m) = (if b then 1 else 0) + mask_sum m.
Proof. unfold mask_sum. rewrite filter_cons. by destruct b. Qed.

Lemma bool_select_length {A} (m : list bool) (l : list A) :
  length m = length l → length (bool_select m l) = mask_sum m.
Proof.
  revert l; induction m as [|b m IH]; intros [|x l] Hl; simpl in *; try done.
  rewrite mask_sum_cons. destruct b; simpl; rewrite IH by lia; done.
Qed.

Lemma bool_select_compl {A} (m : list bool) (l : list A) :
  length m = length l →
  bool_select m l ++ bool_select (negb <$> m) l ≡ₚ l.
Proof.
  revert l; induction m as [|b m IH]; intros [|x l] Hl; simpl in *; try done.
  destruct b; simpl.
  - by rewrite IH by lia.
  - rewrite <-Permutation_middle. by rewrite IH by lia.
Qed.

Lemma mask_sum_compl (m : list bool) :
  mask_sum m + mask_sum (negb <$> m) = length m.
Proof.
  induction m as [|b m IH]; [done|]. rewrite fmap_cons, !mask_sum_cons.
  destruct b; simpl; lia.
Qed.

Lemma bool_select_sublist {A} (m : list bool) (l : list A) :
  bool_select m l `sublist_of` l.
Proof.
  revert l; induction m as [|b m IH]; intros [|x l]; simpl;
    try apply sublist_nil_l.
  destruct b; [by apply sublist_skip|by apply sublist_cons].
Qed.

Lemma bool_select_seq {A} (m : list bool) (l : list A) j a i :
  length m = length l →
  bool_select m (seq j (length l)) !! a = Some i →
  j ≤ i ∧ m !! (i - j) = Some true ∧
  ∃ v, l !! (i - j) = Some v ∧ bool_select m l !! a = Some v.
Proof.
  revert l j a; induction m as [|b m IH]; intros [|x l] j a Hl; simpl in *;
    try done; try (by rewrite lookup_nil).
  destruct b.
  - destruct a as [|a]; simpl.
    + intros [= <-]. rewrite Nat.sub_diag. eauto.
    + intros H. apply IH in H as (? & ? & v & ? & ?); [|lia].
      replace (i - j) with (S (i - S j)) by lia. split; [lia|]. eauto.
  - intros H. apply IH in H as (? & ? & v & ? & ?); [|lia].
    replace (i - j) with (S (i - S j)) by lia. split; [lia|]. eauto.
Qed.

Lemma bool_select_seq_lt (m : list bool) j n a b x y :
  a < b →
  bool_select m (seq j n) !! a = Some x →
  bool_select m (seq j n) !! b = Some y → x < y.
Proof.
  intros Hab Ha Hb.
  assert (StronglySorted lt (bool_select m (seq j n))) as Hs.
  { assert (StronglySorted lt (seq j n)) as Hseq.
    { apply StronglySorted_lookup_2. intros ???? ? [-> ?]%lookup_seq [-> ?]%lookup_seq. lia. }
    revert Hseq. generalize (bool_select_sublist m (seq j n)).
    generalize (seq j n) (bool_select m (seq j n)). clear.
    intros l k Hsub; induction Hsub as [|x k l Hsub IH|x k l Hsub IH]; intros Hs.
    - constructor.
    - apply StronglySorted_cons in Hs as [Hx Hs]. constructor; [by apply IH|].
      eapply Forall_forall. intros y Hy. rewrite Forall_forall in Hx. apply Hx.
      by eapply elem_of_sublist.
    - apply StronglySorted_cons in Hs as [Hx Hs]. by apply IH. }
  by eapply (StronglySorted_lookup lt _ a b).
Qed.

Lemma gather_total {A} `{!Inhabited A} (l : list A) (p : list nat) :
  Forall (λ a, a < length l) p → gather l p = Ok ((λ a, l !!! a) <$> p).
Proof.
  intros H. unfold gather. apply mapR_Ok.
  induction H as [|a p Ha _ IH]; constructor; [|done].
  apply lookup_lt_is_Some in Ha as [x Hx].
  rewrite Hx. f_equal. symmetry. by apply list_lookup_total_correct.
Qed.

Lemma fmap_lookup_total_seq {A} `{!Inhabited A} (l : list A) :
  (λ a, l !!! a) <$> seq 0 (length l) = l.
Proof.
  apply list_eq. intros i. rewrite list_lookup_fmap.
  destruct (l !! i) eqn:E.
  - rewrite lookup_seq_lt by (by eapply lookup_lt_Some). simpl.
    f_equal. by apply list_lookup_total_correct.
  - rewrite lookup_seq_ge by (by apply lookup_ge_None). done.
Qed.

Lemma Permutation_seq_bound (p : list nat) n :
  p ≡ₚ seq 0 n → Forall (λ a, a < n) p.
Proof.
  intros Hp. apply Forall_forall. intros a Ha. rewrite Hp in Ha.
  apply list_elem_of_lookup in Ha as [i [-> ?]%lookup_seq]. lia.
Qed.

Lemma gather_Permutation {A} `{!Inhabited A} (l : list A) (p : list nat) :
  p ≡ₚ seq 0 (length l) →
  gather l p = Ok ((λ a, l !!! a) <$> p) ∧ (λ a, l !!! a) <$> p ≡ₚ l.
Proof.
  intros Hp. split.
  - apply gather_total. by apply Permutation_seq_bound.
  - rewrite Hp. by rewrite fmap_lookup_total_seq.
Qed.

(** ** Slices *)

Lemma slice_hi_stop n k : slice_hi n None (Some (Z.of_nat k)) = Nat.min n k.
Proof.
  unfold slice_hi, slice_lo, slice_bound. destruct (decide _); [lia|].
  rewrite Nat2Z.id. lia.
Qed.

Lemma slice_lo_start n k : slice_lo n (Some (Z.of_nat k)) = Nat.min n k.
Proof.
  unfold slice_lo, slice_bound. destruct (decide _); [lia|]. by rewrite Nat2Z.id.
Qed.

Lemma slice_hi_start n k : slice_hi n (Some (Z.of_nat k)) None = n.
Proof. unfold slice_hi. rewrite slice_lo_start. simpl. lia. Qed.

Lemma setslice_prefix {A} (l src : list A) n :
  n ≤ length l → length src = n →
  setslice l None (Some (Z.of_nat n)) src = Ok (src ++ skipn n l).
Proof.
  intros Hn Hs. unfold setslice. rewrite slice_hi_stop.
  change (slice_lo (length l) None) with 0.
  rewrite Nat.sub_0_r, Nat.min_r by done. rewrite decide_True by done. done.
Qed.

Lemma setslice_suffix {A} (l src : list A) n :
  n ≤ length l → length src = length l - n →
  setslice l (Some (Z.of_nat n)) None src = Ok (firstn n l ++ src).
Proof.
  intros Hn Hs. unfold setslice. rewrite slice_hi_start, slice_lo_start.
  rewrite Nat.min_r by done. rewrite decide_True by done.
  rewrite skipn_all. by rewrite app_nil_r.
Qed.

(** ** Series.order *)

Section order_spec.
Variable argsort_default : list value → list nat.
Hypothesis argsort_default_valid : argsort_valid argsort_default.

Lemma _try_mergesort_sorts arr : sorts (data arr) (_try_mergesort argsort_default arr).
  Proof.
    unfold _try_mergesort. destruct (decide _); [apply argsort_default_valid|].
    apply argsort_mergesort_sorts.
  Qed.

Lemma _try_mergesort_stable arr :
    dtype arr ≠ Object → stable_on (data arr) (_try_mergesort argsort_default arr).
  Proof.
    intros Hd. unfold _try_mergesort. rewrite decide_False by done.
    apply argsort_mergesort_stable.
  Qed.

  (** The positions [Series.order] reads its result from, for the default
      flags: the non-missing positions in sorted order, then the missing
      ones. *)
Lemma order_sortedIdx_eq (self : Series) :
    let d := data (values self) in
    let good := negb <$> isnull_arr (values self) in
    let idx_good := bool_select good (seq 0 (length d)) in
    let idx_bad := bool_select (isnull_arr (values self)) (seq 0 (length d)) in
    let argsorted :=
      _try_mergesort argsort_default
        (mk_ndarray (dtype (values self)) (bool_select good d)) in
    order_sortedIdx argsort_default self true true
      = Ok (((λ a, idx_good !!! a) <$> argsorted) ++ idx_bad).
  Proof.
    intros d good idx_good idx_bad argsorted. unfold order_sortedIdx.
    fold d. fold good. unfold np_getmask.
    assert (length good = length d) as Hg.
    { unfold good, isnull_arr. by rewrite !length_fmap. }
    assert (length (isnull_arr (values self)) = length d) as Hb.
    { unfold isnull_arr. by rewrite length_fmap. }
    rewrite !length_seq. rewrite !decide_True by done. simpl.
    fold idx_good idx_bad argsorted.
    assert (length idx_good = mask_sum good) as Hlg.
    { unfold idx_good. apply bool_select_length. by rewrite length_seq. }
    assert (length idx_bad = length d - mask_sum good) as Hlb.
    { unfold idx_bad. rewrite bool_select_length by (by rewrite length_seq).
      pose proof (mask_sum_compl (isnull_arr (values self))) as Hc.
      fold good in Hc. lia. }
    assert (mask_sum good ≤ length d) as Hle.
    { pose proof (mask_sum_compl (isnull_arr (values self))) as Hc.
      fold good in Hc. lia. }
    destruct (_try_mergesort_sorts (mk_ndarray (dtype (values self)) (bool_select good d)))
      as [Hperm _]. fold argsorted in Hperm. simpl in Hperm.
    rewrite bool_select_length in Hperm by done. rewrite <-Hlg in Hperm.
    destruct (gather_Permutation idx_good argsorted Hperm) as [Hgather Hp2].
    rewrite Hgather. simpl.
    assert (length ((λ a, idx_good !!! a) <$> argsorted) = mask_sum good) as Hls.
    { by rewrite Hp2. }
    rewrite setslice_prefix; [|by rewrite length_replicate|done]. simpl.
    rewrite setslice_suffix.
    - by rewrite take_app_length' by done.
    - rewrite length_app, length_drop, length_replicate. lia.
    - rewrite length_app, length_drop, length_replicate. lia.
  Qed.
End order_spec.

Lemma zip_fmap_same {A B C} (f : A → B) (g : A → C) (l : list A) :
  zip (f <$> l) (g <$> l) = (λ x, (f x, g x)) <$> l.
Proof. induction l as [|x l IH]; [done|]. cbn. by f_equal. Qed.

Lemma zip_lookup_total_seq {A B} `{!Inhabited A, !Inhabited B}
    (l : list A) (k : list B) :
  length l = length k →
  (λ i, (l !!! i, k !!! i)) <$> seq 0 (length l) = zip l k.
Proof.
  intros Hl. apply list_eq. intros i. rewrite list_lookup_fmap, lookup_zip_with.
  destruct (l !! i) as [x|] eqn:E.
  - rewrite lookup_seq_lt by (by eapply lookup_lt_Some). simpl.
    assert (is_Some (k !! i)) as [y Hy].
    { apply lookup_lt_is_Some. rewrite <-Hl. by eapply lookup_lt_Some. }
    rewrite Hy. simpl. f_equal. f_equal; by apply list_lookup_total_correct.
  - rewrite lookup_seq_ge by (by apply lookup_ge_None). done.
Qed.

Lemma negb_isnull_arr a : negb <$> isnull_arr a = notnull_arr a.
Proof. unfold isnull_arr, notnull_arr. rewrite <-list_fmap_compose. done. Qed.

Section order_theorem.
Variable argsort_default : list value → list nat.
Hypothesis argsort_default_valid : argsort_valid argsort_default.

(** Where each entry of the position array comes from. *)
Lemma order_sortedIdx_lookup (self : Series) :
  let d := data (values self) in
  let n_good := mask_sum (notnull_arr (values self)) in
  ∃ sortedIdx argsorted,
    order_sortedIdx argsort_default self true true = Ok sortedIdx ∧
    sortedIdx ≡ₚ seq 0 (length d) ∧
    sorts (bool_select (notnull_arr (values self)) d) argsorted ∧
    (dtype (values self) ≠ Object →
     stable_on (bool_select (notnull_arr (values self)) d) argsorted) ∧
    ∀ a i, sortedIdx !! a = Some i →
      (a < n_good ∧ ∃ a' v, argsorted !! a = Some a' ∧
          bool_select (notnull_arr (values self)) (seq 0 (length d)) !! a' = Some i ∧
          d !! i = Some v ∧ isnull v = false ∧
          bool_select (notnull_arr (values self)) d !! a' = Some v) ∨
      (n_good ≤ a ∧ ∃ v,
          bool_select (isnull_arr (values self)) (seq 0 (length d)) !! (a - n_good)
            = Some i ∧
          d !! i = Some v ∧ isnull v = true).
Proof.
  intros d n_good.
  pose proof (order_sortedIdx_eq argsort_default argsort_default_valid self) as Heq.
  cbv zeta in Heq. rewrite negb_isnull_arr in Heq. fold d in Heq.
  set (good := notnull_arr (values self)) in *.
  set (bad := isnull_arr (values self)) in *.
  set (idx_good := bool_select good (seq 0 (length d))) in *.
  set (idx_bad := bool_select bad (seq 0 (length d))) in *.
  set (argsorted := _try_mergesort argsort_default
         (mk_ndarray (dtype (values self)) (bool_select good d))) in *.
  assert (length good = length d) as Hg.
  { unfold good, notnull_arr. by rewrite length_fmap. }
  assert (length bad = length d) as Hb.
  { unfold bad, isnull_arr. by rewrite length_fmap. }
  assert (length idx_good = n_good) as Hlg.
  { unfold idx_good. apply bool_select_length. by rewrite length_seq. }
  pose proof (_try_mergesort_sorts argsort_default argsort_default_valid
      (mk_ndarray (dtype (values self)) (bool_select good d))) as Hsorts.
  fold argsorted in Hsorts. simpl in Hsorts.
  assert (argsorted ≡ₚ seq 0 (length idx_good)) as Hperm.
  { destruct Hsorts as [Hp _]. rewrite Hp, bool_select_length by done. by rewrite Hlg. }
  destruct (gather_Permutation idx_good argsorted Hperm) as [_ Hp2].
  eexists _, argsorted. split; [exact Heq|]. split_and!.
  - rewrite Hp2. unfold idx_good, idx_bad, good.
    rewrite <-negb_isnull_arr. fold bad.
    rewrite (comm (++)). apply bool_select_compl. by rewrite length_seq.
  - done.
  - intros Hd. by apply (_try_mergesort_stable argsort_default
      (mk_ndarray (dtype (values self)) (bool_select good d))).
  - intros a i Ha.
    assert (length ((λ a, idx_good !!! a) <$> argsorted) = n_good) as Hls.
    { by rewrite Hp2. }
    destruct (decide (a < n_good)) as [Hlt|Hge].
    + left. split; [done|].
      rewrite lookup_app_l in Ha by lia. rewrite list_lookup_fmap in Ha.
      destruct (argsorted !! a) as [a'|] eqn:Ea; [|done]. simpl in Ha.
      injection Ha as <-.
      assert (a' < length idx_good) as Hlt'.
      { apply list_elem_of_lookup_2 in Ea. rewrite Hperm in Ea.
        apply list_elem_of_lookup in Ea as [? [-> ?]%lookup_seq]. lia. }
      apply lookup_lt_is_Some in Hlt' as [i Hi].
      rewrite (list_lookup_total_correct _ _ _ Hi).
      unfold idx_good in Hi.
      destruct (bool_select_seq good d 0 a' i Hg Hi) as (_ & Hm & v & Hv & Hsel).
      rewrite Nat.sub_0_r in Hm, Hv. exists a', v. split_and!; try done.
      unfold good, notnull_arr in Hm. fold d in Hm. rewrite list_lookup_fmap, Hv in Hm.
      simpl in Hm. injection Hm as Hm. unfold notnull in Hm.
      by destruct (isnull v).
    + right. split; [lia|].
      rewrite lookup_app_r in Ha by lia. rewrite Hls in Ha.
      unfold idx_bad in Ha.
      destruct (bool_select_seq bad d 0 _ i Hb Ha) as (_ & Hm & v & Hv & _).
      rewrite Nat.sub_0_r in Hm, Hv. exists v. split_and!; try done.
      unfold bad, isnull_arr in Hm. fold d in Hm. rewrite list_lookup_fmap, Hv in Hm.
      simpl in Hm. by injection Hm as Hm.
Qed.

(** C6 (amended): for every Series, [order(na_last=True, ascending=True)]
    returns a new Series that is a permutation of the receiver keeping
    every label with its value; the non-missing values come first in
    ascending order, the missing ones after them; for every element kind
    but object, where the stable merge sort [order] asks for is the
    algorithm that runs, equal values keep their original relative order.  [Series({'a':3,'b':1,'c':2}).order()] has
    labels b, c, a and values 1, 2, 3. *)
Theorem order_sorted_stable_permutation (self : Series) :
  wf self →
  let n_good := mask_sum (notnull_arr (values self)) in
  ∃ sortedIdx r,
    order_sortedIdx argsort_default self true true = Ok sortedIdx ∧
    order argsort_default self true true = Ok r ∧
    sortedIdx ≡ₚ seq 0 (length (index self)) ∧
    (∀ a i, sortedIdx !! a = Some i →
       index r !! a = index self !! i ∧
       data (values r) !! a = data (values self) !! i) ∧
    zip (index r) (data (values r)) ≡ₚ zip (index self) (data (values self)) ∧
    name r = name self ∧ dtype (values r) = dtype (values self) ∧
    (∀ a v, data (values r) !! a = Some v → isnull v = bool_decide (n_good ≤ a)) ∧
    (∀ a b v w, a < b → b < n_good →
       data (values r) !! a = Some v → data (values r) !! b = Some w →
       (value_key v ≤ value_key w)%Z) ∧
    (dtype (values self) ≠ Object →
     ∀ a b i j v w, a < b → b < n_good →
       sortedIdx !! a = Some i → sortedIdx !! b = Some j →
       data (values r) !! a = Some v → data (values r) !! b = Some w →
       value_key v = value_key w → i < j) ∧
    (∀ a b i j, n_good ≤ a → a < b →
       sortedIdx !! a = Some i → sortedIdx !! b = Some j → i < j) ∧
    order argsort_default abc true true = Ok abc_ordered.
Proof.
  intros Hwf n_good. unfold wf in Hwf.
  destruct (order_sortedIdx_lookup self)
    as (sidx & argsorted & Hidx & Hperm & [_ Hsorted] & Hstable & Hlk).
  fold n_good in Hlk.
  set (d := data (values self)) in *. set (ix := index self) in *.
  assert (length d = length ix) as Hlen by exact Hwf. clear Hwf.
  assert (Forall (λ a, a < length d) sidx) as Hbound
    by (by apply Permutation_seq_bound).
  assert (∀ a i, sidx !! a = Some i → ix !! i = Some (ix !!! i) ∧ d !! i = Some (d !!! i))
    as Htot.
  { intros a i Ha. rewrite Forall_forall in Hbound.
    assert (i < length d) as Hi by (apply Hbound; by eapply list_elem_of_lookup_2).
    split; apply list_lookup_lookup_total_lt; lia. }
  exists sidx, (mk_Series (mk_ndarray (dtype (values self)) ((λ a, d !!! a) <$> sidx))
                          ((λ a, ix !!! a) <$> sidx) (name self)).
  assert (∀ a v, ((λ a, d !!! a) <$> sidx) !! a = Some v →
                 ∃ i, sidx !! a = Some i ∧ d !! i = Some v) as Hval.
  { intros a v Ha. rewrite list_lookup_fmap in Ha.
    destruct (sidx !! a) as [i|] eqn:Ei; [|done]. simpl in Ha. injection Ha as <-.
    exists i. split; [done|]. by apply (Htot a). }
  split; [done|]. split.
  { unfold order. rewrite Hidx. simpl. fold d ix.
    rewrite (gather_total d sidx Hbound). simpl.
    rewrite (gather_total ix sidx) by (by rewrite <-Hlen). simpl.
    unfold Series_new, set_index. simpl.
    rewrite decide_True by (by rewrite !length_fmap). done. }
  simpl. split_and!; [|..|vm_compute; reflexivity]; try done.
  - by rewrite <-Hlen.
  - intros a i Ha. rewrite !list_lookup_fmap, Ha. simpl.
    destruct (Htot a i Ha) as [-> ->]. done.
  - rewrite zip_fmap_same, Hperm.
    rewrite <-(zip_lookup_total_seq ix d) by done. by rewrite <-Hlen.
  - intros a v (i & Hi & Hv)%Hval.
    destruct (Hlk a i Hi) as [(Hlt & a' & v' & _ & _ & Hv' & Hnull & _)|(Hge & v' & _ & Hv' & Hnull)];
      fold d in Hv'; simplify_eq; rewrite Hnull; symmetry.
    + apply bool_decide_eq_false. lia.
    + by apply bool_decide_eq_true.
  - intros a b v w Hab Hb (i & Hi & Hv)%Hval (j & Hj & Hw)%Hval.
    destruct (Hlk a i Hi) as [(_ & a' & v' & Ha' & _ & Hv' & _ & Hsa)|(? & _)]; [|lia].
    destruct (Hlk b j Hj) as [(_ & b' & w' & Hb' & _ & Hw' & _ & Hsb)|(? & _)]; [|lia].
    fold d in Hv', Hw'. simplify_eq.
    destruct (StronglySorted_lookup _ _ a b a' b' Hsorted Hab Ha' Hb')
      as (v'' & w'' & ? & ? & ?). fold d in Hsa, Hsb. by simplify_eq.
  - intros Hd a b i j v w Hab Hb Hi Hj (i' & Hi' & Hv)%Hval (j' & Hj' & Hw)%Hval Hkey.
    simplify_eq.
    destruct (Hlk a i Hi) as [(_ & a' & v' & Ha' & Hia & Hv' & _ & Hsa)|(? & _)]; [|lia].
    destruct (Hlk b j Hj) as [(_ & b' & w' & Hb' & Hjb & Hw' & _ & Hsb)|(? & _)]; [|lia].
    fold d in Hv', Hw'. simplify_eq.
    assert (a' < b') as Hlt.
    { eapply (Hstable Hd a b a' b'); done. }
    by eapply bool_select_seq_lt.
  - intros a b i j Hge Hab Hi Hj.
    destruct (Hlk a i Hi) as [(? & _)|(_ & v & Hia & _)]; [lia|].
    destruct (Hlk b j Hj) as [(? & _)|(_ & w & Hjb & _)]; [lia|].
    eapply bool_select_seq_lt; [|exact Hia|exact Hjb]. lia.
Qed.
End order_theorem.

(** ** The constructor *)

Lemma set_index_Ok arr idx nm s :
  set_index arr idx nm = Ok s ↔
  s = mk_Series arr idx nm ∧ length (data arr) = length idx.
Proof.
  unfold set_index. destruct (decide _); split; try done.
  - by intros [= <-].
  - by intros [-> _].
  - by intros [].
Qed.

Lemma Series_new_Ok arr idx nm s :
  Series_new arr idx nm = Ok s ↔
  s = mk_Series arr idx nm ∧ length (data arr) = length idx.
Proof. apply set_index_Ok. Qed.

Lemma Series_new_wf arr idx nm s : Series_new arr idx nm = Ok s → wf s.
Proof. intros [-> H]%Series_new_Ok. exact H. Qed.

Lemma Series_new_same_length arr idx nm :
  length (data arr) = length idx → Series_new arr idx nm = Ok (mk_Series arr idx nm).
Proof. intros. by apply Series_new_Ok. Qed.

Lemma copy_Ok s : wf s → copy s = Ok s.
Proof. intros H. unfold copy. rewrite Series_new_same_length by done. by destruct s. Qed.

Ltac inv_new :=
  repeat match goal with
  | H : Series_new _ _ _ = Ok _ |- _ => apply Series_new_Ok in H as [? ?]
  | H : set_index _ _ _ = Ok _ |- _ => apply set_index_Ok in H as [? ?]
  end.

(** ** Filling keeps lengths, labels and names *)

Lemma length_putmask l m v : length m = length l → length (putmask l m v) = length l.
Proof. intros H. unfold putmask. rewrite length_zip_with. lia. Qed.

Lemma length_pad_from limit last run l :
  length (pad_from limit last run l) = length l.
Proof.
  revert last run; induction l as [|v l IH]; intros last run; simpl; [done|].
  destruct (isnull v); [destruct last|]; simpl; by rewrite IH.
Qed.

Lemma length_fill_func m limit l : length (_get_fill_func m limit l) = length l.
Proof.
  destruct m; simpl; unfold backfill_1d, pad_1d;
    by rewrite ?length_reverse, length_pad_from, ?length_reverse.
Qed.

Lemma fillna_copy (s : Series) v m limit s' r :
  wf s → fillna s v m false limit = Ok (s', r) →
  s' = s ∧ ∃ c, r = New c ∧ wf c ∧ index c = index s ∧ name c = name s.
Proof.
  intros Hwf. unfold fillna. rewrite !copy_Ok by done. simp_ok.
  assert (length (isnull_arr (values s)) = length (data (values s))) as Hl.
  { unfold isnull_arr. by rewrite length_fmap. }
  destruct (negb (_can_hold_na s)).
  { intros [= <- <-]. split; [done|]. by exists s. }
  destruct v as [v|].
  { intros [= <- <-]. split; [done|]. eexists. split; [done|].
    unfold wf. simpl. by rewrite length_putmask. }
  destruct m as [m|]; [|done]. simpl.
  rewrite Series_new_same_length by (simpl; by rewrite length_fill_func). simpl.
  intros [= <- <-]. split; [done|]. eexists. split; [done|].
  unfold wf. simpl. by rewrite length_fill_func.
Qed.

Lemma fillna_copy_total (s : Series) v m limit :
  wf s → is_Some v ∨ is_Some m →
  ∃ c, fillna s v m false limit = Ok (s, New c) ∧
       wf c ∧ index c = index s ∧ name c = name s.
Proof.
  intros Hwf Hsome.
  assert (∃ s' r, fillna s v m false limit = Ok (s', r)) as (s' & r & H).
  { unfold fillna. rewrite !copy_Ok by done. simp_ok.
    destruct (negb (_can_hold_na s)); [by eauto|].
    destruct v as [v|]; [by eauto|]. destruct m as [m|].
    - simpl. rewrite Series_new_same_length by (simpl; by rewrite length_fill_func).
      by eauto.
    - by destruct Hsome as [[? [=]]|[? [=]]]. }
  destruct (fillna_copy s v m limit s' r Hwf H) as (-> & c & -> & ? & ? & ?).
  by exists c.
Qed.

(** ** Names of results *)

Lemma _reindex_indexer_name self new_index indexer c r :
  _reindex_indexer self new_index indexer c = Ok r →
  name (the self r) = name self.
Proof.
  unfold _reindex_indexer, copy. destruct indexer as [ix|]; [|destruct c]; intros H;
    inv_ok; inv_new; by subst.
Qed.

Lemma fillna_name (s : Series) v m limit s' r :
  fillna s v m false limit = Ok (s', r) → s' = s ∧ name (the s r) = name s.
Proof.
  unfold fillna, copy. intros H.
  destruct (negb (_can_hold_na s)), v, m; simpl in H;
    inv_ok; inv_new; simplify_eq; done.
Qed.

Lemma align_name self other j c fv m lim l r :
  align self other j c fv m lim = Ok (l, r) →
  name (the self l) = name self ∧ name (the other r) = name other.
Proof.
  unfold align. destruct (Index_join _ _ _) as [[ji lidx] ridx].
  intros H. apply bind_Ok in H as (left & Hl & H).
  apply bind_Ok in H as (right & Hr & H).
  pose proof (_reindex_indexer_name _ _ _ _ _ Hl) as Hnl.
  pose proof (_reindex_indexer_name _ _ _ _ _ Hr) as Hnr.
  assert (('(_, l0) ← fillna (the self left) fv m false lim;
           '(_, r0) ← fillna (the other right) fv m false lim;
           Ok (New (the (the self left) l0), New (the (the other right) r0)))
          = Ok (l, r) →
          name (the self l) = name self ∧ name (the other r) = name other) as Hfill.
  { intros Hf. apply bind_Ok in Hf as ([s1 l0] & H1 & Hf).
    apply bind_Ok in Hf as ([s2 r0] & H2 & Hf). injection Hf as <- <-.
    apply fillna_name in H1 as [_ H1]. apply fillna_name in H2 as [_ H2].
    simpl. split; congruence. }
  destruct fv, m; try (by apply Hfill). by injection H as <- <-.
Qed.

Lemma _maybe_match_name_names a b a' b' :
  name a = name a' → name b = name b' →
  _maybe_match_name a b = _maybe_match_name a' b'.
Proof. unfold _maybe_match_name. by intros -> ->. Qed.

(** C4: for every binary operation combining two Series (the arithmetic,
    comparison and boolean operator families, the flexible [_binop] and
    [combine]), the result carries the receiver's name when the two operands
    have the same name and no name otherwise. *)
Theorem binary_result_name (o : operator) (self other : Series) :
  let expected := if decide (name self = name other) then name self else None in
  (∀ r, _arith_method o self (OSeries other) = Ok (RetSeries r) → name r = expected) ∧
  (∀ r, _comp_method o self (OSeries other) = Ok (RetSeries r) → name r = expected) ∧
  (∀ r, _bool_method o self (OSeries other) = Ok (RetSeries r) → name r = expected) ∧
  (∀ func fill_value r,
     _binop self other func fill_value = Ok r → name r = expected) ∧
  (∀ func fill_value r,
     combine self other func fill_value = Ok r → name r = expected).
Proof.
  intros expected. split_and!.
  - intros r H. unfold _arith_method in H.
    destruct (Index_equals _ _); inv_ok; simplify_eq.
    + unfold arith_equal_index in *. inv_ok. inv_new. by subst.
    + unfold arith_join in *. destruct (Index_join _ _ _) as [[ji lidx] ridx].
      inv_ok. inv_new. by subst.
  - intros r H. unfold _comp_method in H. inv_ok. simplify_eq. inv_new. by subst.
  - intros r H. unfold _bool_method in H. inv_ok. simplify_eq. inv_new. by subst.
  - intros func fill_value r H. unfold _binop in H.
    apply bind_Ok in H as ([[this other'] new_index] & Hal & H).
    apply bind_Ok in H as ([tv ov] & _ & H). inv_ok. inv_new. subst. simpl.
    destruct (negb _).
    + apply bind_Ok in Hal as ([l r'] & Hal & Heq). injection Heq as <- <- <-.
      apply align_name in Hal as [_ Hn]. unfold expected, _maybe_match_name.
      by rewrite Hn.
    + by injection Hal as <- <- <-.
  - intros func fill_value r H. unfold combine in H. inv_ok. inv_new. by subst.
Qed.

(** ** Position lookup and gathers through an indexer *)

Lemma get_loc_Some idx l p :
  get_loc idx l = Some p → idx !! p = Some l ∧ ∀ q, q < p → idx !! q ≠ Some l.
Proof.
  unfold get_loc. destruct (list_find _ idx) as [[i x]|] eqn:E; [|done].
  simpl. intros [= <-]. apply list_find_Some in E as (Hi & -> & Hmin).
  split; [done|]. intros q Hq Hq'. by apply (Hmin q l).
Qed.

Lemma get_loc_None idx l : get_loc idx l = None ↔ l ∉ idx.
Proof.
  unfold get_loc. destruct (list_find _ idx) as [[i x]|] eqn:E; simpl.
  - apply list_find_Some in E as (Hi & -> & _). split; [done|].
    intros []. by eapply list_elem_of_lookup_2.
  - split; [|done]. intros _ Hin.
    destruct (list_find_elem_of (λ x, x = l) idx l Hin eq_refl) as [? ?]. congruence.
Qed.

Lemma get_loc_is_Some idx l : l ∈ idx → ∃ p, get_loc idx l = Some p.
Proof.
  intros Hin. destruct (get_loc idx l) eqn:E; [by eexists|].
  by apply get_loc_None in E.
Qed.

Lemma get_loc_NoDup idx p l : NoDup idx → idx !! p = Some l → get_loc idx l = Some p.
Proof.
  intros Hnd Hp. destruct (get_loc_is_Some idx l) as [q Hq].
  { by eapply list_elem_of_lookup_2. }
  rewrite Hq. f_equal. apply get_loc_Some in Hq as [Hq _].
  by eapply NoDup_lookup.
Qed.


(** Gathering a Series' buffer through the positions of target labels
    yields, label by label, the value at that label or the fill value. *)
Lemma take_1d_get_indexer (s : Series) (target : list label) fill :
  wf s →
  take_1d (values s) (get_indexer (index s) target) fill
    = Ok (mk_ndarray
            (if bool_decide ((-1)%Z ∈ get_indexer (index s) target)
             then _maybe_upcast_dtype (dtype (values s)) else dtype (values s))
            ((λ l, value_at s l fill) <$> target)).
Proof.
  intros Hwf. unfold take_1d.
  assert (mapR (λ i, if decide (i = -1)%Z then Ok fill
                 else if decide (0 ≤ i)%Z then
                   match data (values s) !! Z.to_nat i with
                   | Some x => Ok x
                   | None => Raise IndexError
                   end
                 else Raise IndexError) (get_indexer (index s) target)
          = Ok ((λ l, value_at s l fill) <$> target)) as ->; [|done].
  apply mapR_Ok. unfold get_indexer. apply Forall2_fmap. apply Forall_Forall2_diag.
  apply Forall_forall. intros l _. unfold value_at.
  destruct (get_loc (index s) l) as [p|] eqn:E.
  - rewrite decide_False by lia. rewrite decide_True by lia. rewrite Nat2Z.id.
    apply get_loc_Some in E as [E _]. apply lookup_lt_Some in E.
    unfold wf in Hwf. rewrite <-Hwf in E. apply lookup_lt_is_Some in E as [x Hx].
    by rewrite Hx.
  - by rewrite decide_True.
Qed.

(** ** The union of two indexes *)

Lemma elem_of_Index_union a b l : l ∈ Index_union a b ↔ l ∈ a ∨ l ∈ b.
Proof.
  unfold Index_union. rewrite msort_Permutation, elem_of_remove_dups.
  apply elem_of_app.
Qed.

Lemma NoDup_Index_union a b : NoDup (Index_union a b).
Proof. unfold Index_union. rewrite msort_Permutation. apply NoDup_remove_dups. Qed.



(** ** Reindexing and alignment *)

Lemma value_at_self (s : Series) :
  wf s → NoDup (index s) →
  data (values s) = (λ l, value_at s l VNaN) <$> index s.
Proof.
  intros Hwf Hnd. apply list_eq. intros i. rewrite list_lookup_fmap.
  destruct (index s !! i) as [l|] eqn:E; simpl.
  - unfold value_at. rewrite (get_loc_NoDup _ i l Hnd E).
    apply lookup_lt_Some in E. unfold wf in Hwf. rewrite <-Hwf in E.
    apply lookup_lt_is_Some in E as [x Hx]. by rewrite Hx.
  - apply lookup_ge_None. apply lookup_ge_None in E. unfold wf in Hwf. lia.
Qed.

Lemma value_at_empty (s : Series) l : index s = [] → value_at s l VNaN = VNaN.
Proof. unfold value_at. by intros ->. Qed.

Lemma reindex_total (s : Series) target fill c :
  wf s →
  ∃ r, reindex s (Some target) fill c = Ok r ∧
       wf (the s r) ∧ index (the s r) = target ∧ name (the s r) = name s.
Proof.
  intros Hwf. unfold reindex, Index_equals.
  case_bool_decide as Heq.
  - destruct c.
    + rewrite copy_Ok by done. simpl. unfold set_index.
      rewrite decide_True by (by rewrite <-Heq). simpl.
      eexists; split; [done|]. simpl. unfold wf. simpl. by rewrite <-Heq.
    + by exists Self.
  - destruct (decide _) as [Hz|Hz].
    + unfold Series_scalar, set_index. simpl.
      rewrite decide_True by (by rewrite length_replicate). simpl.
      eexists; split; [done|]. simpl. unfold wf. simpl.
      by rewrite length_replicate.
    + simpl. rewrite take_1d_get_indexer by done. simpl.
      rewrite Series_new_same_length by (simpl; by rewrite length_fmap). simpl.
      eexists; split; [done|]. simpl. unfold wf. simpl. by rewrite length_fmap.
Qed.

(** Reindexing to duplicate-free labels with the default fill value: label
    by label, the receiver's value or the missing sentinel. *)
Lemma reindex_values (s : Series) target c :
  wf s → NoDup target →
  ∃ r, reindex s (Some target) VNaN c = Ok r ∧
       wf (the s r) ∧ index (the s r) = target ∧ name (the s r) = name s ∧
       data (values (the s r)) = (λ l, value_at s l VNaN) <$> target.
Proof.
  intros Hwf Hnd. unfold reindex, Index_equals.
  case_bool_decide as Heq.
  - subst target. destruct c.
    + rewrite copy_Ok by done. simpl. unfold set_index.
      rewrite decide_True by done. simpl.
      eexists; split; [done|]. simpl. split_and!; try done.
      by apply value_at_self.
    + exists Self. split_and!; try done. by apply value_at_self.
  - destruct (decide _) as [Hz|Hz].
    + unfold Series_scalar, set_index. simpl.
      rewrite decide_True by (by rewrite length_replicate). simpl.
      eexists; split; [done|]. simpl. unfold wf. simpl.
      rewrite length_replicate. split_and!; try done.
      apply nil_length_inv in Hz. clear Heq Hnd.
      induction target as [|l t IH]; [done|]. simpl.
      rewrite value_at_empty by done. by f_equal.
    + simpl. rewrite take_1d_get_indexer by done. simpl.
      rewrite Series_new_same_length by (simpl; by rewrite length_fmap). simpl.
      eexists; split; [done|]. simpl. unfold wf. simpl. by rewrite length_fmap.
Qed.

Lemma _reindex_indexer_join (s : Series) (j : Index) c :
  wf s →
  ∃ r, _reindex_indexer s j
         (if Index_equals j (index s) then None else Some (get_indexer (index s) j)) c
         = Ok r ∧
       wf (the s r) ∧ index (the s r) = j ∧
       (j = index s → the s r = s) ∧
       (j ≠ index s →
        r = New (mk_Series
                   (mk_ndarray
                      (if bool_decide ((-1)%Z ∈ get_indexer (index s) j)
                       then _maybe_upcast_dtype (dtype (values s))
                       else dtype (values s))
                      ((λ l, value_at s l VNaN) <$> j)) j (name s))).
Proof.
  intros Hwf. unfold _reindex_indexer, Index_equals. case_bool_decide as Heq.
  - subst j. destruct c.
    + rewrite copy_Ok by done. simpl. by eexists.
    + by exists Self.
  - rewrite take_1d_get_indexer by done. simpl.
    rewrite Series_new_same_length by (simpl; by rewrite length_fmap). simpl.
    eexists; split; [done|]. simpl. unfold wf. simpl. rewrite length_fmap.
    split_and!; done.
Qed.

Lemma align_total (self other : Series) (j : how) c fv m lim :
  wf self → wf other →
  ∃ l r, align self other j c fv m lim = Ok (l, r) ∧
         wf (the self l) ∧ wf (the other r) ∧
         index (the self l) = (Index_join (index self) (index other) j).1.1 ∧
         index (the other r) = (Index_join (index self) (index other) j).1.1.
Proof.
  intros Hs Ho. unfold align, Index_join.
  set (ji := match j with
             | outer => Index_union (index self) (index other)
             | inner => Index_intersection (index self) (index other)
             | left => index self
             | right => index other
             end).
  destruct (_reindex_indexer_join self ji c Hs) as (l & -> & Hwl & Hil & _).
  destruct (_reindex_indexer_join other ji c Ho) as (r & -> & Hwr & Hir & _).
  simp_ok. simpl.
  assert (is_Some fv ∨ is_Some m →
          ∃ l' r', ('(_, l0) ← fillna (the self l) fv m false lim;
                    '(_, r0) ← fillna (the other r) fv m false lim;
                    Ok (New (the (the self l) l0), New (the (the other r) r0)))
                   = Ok (l', r') ∧
                   wf (the self l') ∧ wf (the other r') ∧
                   index (the self l') = ji ∧ index (the other r') = ji) as Hfill.
  { intros Hsome.
    destruct (fillna_copy_total (the self l) fv m lim Hwl Hsome) as (c1 & -> & ? & ? & _).
    destruct (fillna_copy_total (the other r) fv m lim Hwr Hsome) as (c2 & -> & ? & ? & _).
    simp_ok. eexists _, _. split; [done|]. simpl. split_and!; congruence. }
  destruct fv as [v|], m as [fm|]; try (apply Hfill; by eauto).
  by exists l, r.
Qed.

(** ** combine_first *)

Lemma np_where_fmap {A} (fa fb : A → value) (u : list A) :
  np_where (isnull <$> (fa <$> u)) (fb <$> u) (fa <$> u)
  = (λ l, if isnull (fa l) then fb l else fa l) <$> u.
Proof. induction u as [|l u IH]; [done|]. cbn. by f_equal. Qed.

(** C5: [A.combine_first(B)] is indexed by the union of the two indexes; at
    every label of the union its value is A's union-reindexed value where
    that value is not missing, and B's union-reindexed value where A's is
    missing. *)
Theorem combine_first_union (A B : Series) :
  wf A → wf B →
  let U := Index_union (index A) (index B) in
  ∃ r ra rb,
    reindex A (Some U) VNaN false = Ok ra ∧
    reindex B (Some U) VNaN false = Ok rb ∧
    combine_first A B = Ok r ∧
    index r = U ∧ wf r ∧
    (∀ l, l ∈ U ↔ l ∈ index A ∨ l ∈ index B) ∧ NoDup U ∧
    index (the A ra) = U ∧ index (the B rb) = U ∧
    (∀ i l, U !! i = Some l →
       data (values (the A ra)) !! i = Some (value_at A l VNaN) ∧
       data (values (the B rb)) !! i = Some (value_at B l VNaN)) ∧
    (∀ i a b,
       data (values (the A ra)) !! i = Some a →
       data (values (the B rb)) !! i = Some b →
       data (values r) !! i = Some (if isnull a then b else a)).
Proof.
  intros HA HB U.
  pose proof (NoDup_Index_union (index A) (index B)) as Hnd. fold U in Hnd.
  destruct (reindex_values A U false HA Hnd) as (ra & Hra & Hwa & Hia & Hna & Hda).
  destruct (reindex_values B U false HB Hnd) as (rb & Hrb & Hwb & Hib & Hnb & Hdb).
  eexists _, ra, rb. split; [done|]. split; [done|].
  assert (combine_first A B
          = Ok (mk_Series
                  (mk_ndarray
                     (np_promote (dtype (values (the A ra))) (dtype (values (the B rb))))
                     ((λ l, if isnull (value_at A l VNaN)
                            then value_at B l VNaN else value_at A l VNaN) <$> U))
                  U (_maybe_match_name A (the B rb)))) as Hcf.
  { unfold combine_first. fold U. rewrite Hra, Hrb. simpl.
    unfold isnull_arr. rewrite Hda, Hdb, np_where_fmap.
    apply Series_new_same_length. simpl. by rewrite length_fmap. }
  split; [exact Hcf|]. simpl. split_and!; try done.
  - unfold wf. simpl. by rewrite length_fmap.
  - intros l. apply elem_of_Index_union.
  - intros i l Hl. rewrite Hda, Hdb, !list_lookup_fmap, Hl. done.
  - intros i a b. rewrite Hda, Hdb, !list_lookup_fmap.
    destruct (U !! i) as [l|]; [|done]. simpl. by intros [= <-] [= <-].
Qed.

(** ** Objects: reindexing to an equal index *)

Lemma fresh_store (h : store) : h !! fresh (dom h) = None.
Proof. apply not_elem_of_dom. apply is_fresh. Qed.

Lemma fresh_store_ne (h : store) l s : h !! l = Some s → fresh (dom h) ≠ l.
Proof. intros H Heq. rewrite <-Heq, fresh_store in H. done. Qed.

(** C7: reindexing to an index equal in content to the current one returns
    the receiver itself when copy is disabled (the store and the location
    are those of the call), and with copy enabled a newly allocated Series
    equal to the receiver; in both cases the buffer is the receiver's own,
    no gather through a position map takes place. *)
Theorem reindex_equal_index (h : store) (l : nat) (s : Series) (I : Index)
    (fill_value : value) :
  h !! l = Some s → wf s → Index_equals (index s) I = true →
  reindex s (Some I) fill_value false = Ok Self ∧
  obj_reindex h l (Some I) fill_value false = Ok (h, l) ∧
  reindex s (Some I) fill_value true = Ok (New s) ∧
  ∃ l', obj_reindex h l (Some I) fill_value true = Ok (<[l' := s]> h, l') ∧
        l' ≠ l ∧ h !! l' = None ∧
        (<[l' := s]> h) !! l = Some s ∧ (<[l' := s]> h) !! l' = Some s.
Proof.
  intros Hl Hwf Heq. apply bool_decide_eq_true in Heq. subst I.
  assert (reindex s (Some (index s)) fill_value false = Ok Self) as H1.
  { unfold reindex, Index_equals. by rewrite bool_decide_eq_true_2. }
  assert (reindex s (Some (index s)) fill_value true = Ok (New s)) as H2.
  { unfold reindex, Index_equals. rewrite bool_decide_eq_true_2 by done.
    rewrite copy_Ok by done. simpl. unfold set_index.
    rewrite decide_True by done. simpl. by destruct s. }
  split_and!; [done| |done|].
  - unfold obj_reindex, deref. rewrite Hl. simp_ok. rewrite H1. simp_ok.
    unfold commit. simpl. by rewrite insert_id.
  - exists (fresh (dom h)). unfold obj_reindex, deref. rewrite Hl. simp_ok.
    rewrite H2. simp_ok. unfold commit, alloc. simpl.
    rewrite (insert_id h l s) by done.
    pose proof (fresh_store_ne h l s Hl). split_and!; try done.
    + apply fresh_store.
    + by rewrite lookup_insert_ne.
    + by rewrite lookup_insert_eq.
Qed.

(** ** Assignment *)

Lemma putmask_lookup l m v i :
  putmask l m v !! i = (x ← l !! i; b ← m !! i; Some (if b : bool then v else x)).
Proof.
  unfold putmask. rewrite lookup_zip_with.
  destruct (m !! i) as [b|], (l !! i) as [x|]; done.
Qed.

Lemma length_positions_of idx l : length (positions_of idx l) = length idx.
Proof. unfold positions_of. by rewrite length_fmap. Qed.

Lemma length_foldl_insert {A} (l : list A) (ps : list nat) (v : A) :
  length (foldl (λ acc p, <[p := v]> acc) l ps) = length l.
Proof.
  revert l; induction ps as [|p ps IH]; intros l; [done|]. simpl.
  by rewrite IH, length_insert.
Qed.

Lemma set_positions_length d l ps v k :
  set_positions d l ps v = Ok k → length k = length l.
Proof.
  unfold set_positions. intros H. inv_ok. subst. apply length_foldl_insert.
Qed.

Lemma _set_values_length s k v s' :
  _set_values s k v = Ok s' →
  index s' = index s ∧ name s' = name s ∧
  length (data (values s')) = length (data (values s)).
Proof.
  unfold _set_values. destruct k as [ke| |ks|m]; intros H.
  - inv_ok. subst. simpl. split_and!; try done. by eapply set_positions_length.
  - inv_ok. subst. simpl. by rewrite length_replicate.
  - inv_ok. subst. simpl. split_and!; try done. by eapply set_positions_length.
  - destruct (decide _); [|done]. inv_ok. subst. simpl.
    by rewrite length_putmask.
Qed.

Lemma _set_labels_length s ks v s' :
  _set_labels s ks v = Ok s' →
  index s' = index s ∧ name s' = name s ∧
  length (data (values s')) = length (data (values s)).
Proof.
  unfold _set_labels. case_bool_decide; [done|]. intros Hs. inv_ok. subst. simpl.
  split_and!; try done. by eapply set_positions_length.
Qed.

Lemma _set_with_list_length s ks v s' :
  _set_with_list s ks v = Ok s' →
  index s' = index s ∧ name s' = name s ∧
  length (data (values s')) = length (data (values s)).
Proof.
  unfold _set_with_list.
  repeat destruct (decide _);
    first [apply _set_values_length | apply _set_labels_length].
Qed.

Lemma _set_with_length s k v s' :
  _set_with s k v = Ok s' →
  index s' = index s ∧ name s' = name s ∧
  length (data (values s')) = length (data (values s)).
Proof.
  unfold _set_with. destruct k as [[z|str|b]| |ks|m]; try done.
  - apply _set_with_list_length.
  - apply _set_with_list_length.
  - apply _set_values_length.
Qed.

Lemma np_store_not_KeyError d v e : np_store d v = Raise e → e ≠ KeyError.
Proof.
  destruct d, v; simpl; try done; try (by intros [= <-]).
  destruct (decide _); [done|]. by intros [= <-].
Qed.

Lemma engine_set_value_Ok s l v s' :
  wf s → engine_set_value s l v = Ok s' →
  l ∈ index s ∧
  (∃ v', np_store (dtype (values s)) v = Ok v' ∧
     s' = with_data s (putmask (data (values s)) (positions_of (index s) l) v')) ∧
  length (data (values s')) = length (data (values s)).
Proof.
  intros Hwf. unfold engine_set_value. case_bool_decide as Hin; [|done].
  intros Hs. inv_ok. subst. split_and!; try done; [by eexists|]. simpl.
  apply length_putmask. by rewrite length_positions_of.
Qed.

Lemma __setitem___length s k v s' :
  wf s → __setitem__ s k v = Ok s' →
  index s' = index s ∧ name s' = name s ∧
  length (data (values s')) = length (data (values s)).
Proof.
  intros Hwf. unfold __setitem__. destruct k as [ke| |ks|m].
  - destruct (engine_set_value s (label_of ke) v) as [s1|e] eqn:E; simpl.
    + intros [= <-]. apply engine_set_value_Ok in E as (_ & (v' & _ & ->) & ?); done.
    + destruct e; try done.
      * destruct (_ && _); [|done]. apply (_set_values_length s (KeyScalar ke)).
      * apply (_set_with_length s (KeyScalar ke)).
  - apply _set_values_length.
  - destruct (_is_bool_indexer (KeyList ks)).
    + apply (_set_values_length s (KeyMask (key_bool <$> ks))).
    + apply _set_with_list_length.
  - apply (_set_values_length s (KeyMask m)).
Qed.

(** C10 (as stated, refuted): on the integer-kind Series [1, 2, 3] over the
    labels 0, 1, 2, [set_value(0, nan)] meets a label of the index and
    neither writes the value nor returns the receiver: the integer buffer
    refuses the missing value. *)
Lemma set_value_refuses_missing_in_integer :
  wf int123 ∧ LInt 0 ∈ index int123 ∧ dtype (values int123) = Integer ∧
  set_value int123 (LInt 0) VNaN = Raise ValueError ∧
  obj_set_value {[0 := int123]} 0 (LInt 0) VNaN = Raise ValueError.
Proof. split_and!; try reflexivity. by left. Qed.

(** C10 (amended): [set_value] on a label absent from the index returns a new
    Series with the label and the value appended and leaves the receiver as
    it was; on a label of the index, for a value the receiver's element
    kind can store, it writes the value, converted to that kind, at the
    label's position in the receiver and returns the receiver itself; a
    value the kind cannot store is refused with the error of the
    conversion.  Bracket assignment never changes the receiver's length or
    labels, and refuses an absent label, so [set_value] is the one
    assignment that yields a longer Series, and it never lengthens the
    receiver in place. *)
Theorem set_value_upsert (h : store) (loc : nat) (s : Series) (l : label) (v : value) :
  h !! loc = Some s → wf s →
  (l ∉ index s →
   ∃ loc' r, obj_set_value h loc l v = Ok (<[loc' := r]> h, loc') ∧
     loc' ≠ loc ∧ h !! loc' = None ∧
     index r = index s ++ [l] ∧
     data (values r) = data (values s) ++ [v] ∧
     name r = name s ∧ wf r ∧
     (<[loc' := r]> h) !! loc = Some s) ∧
  (l ∈ index s →
   (∀ v', np_store (dtype (values s)) v = Ok v' →
      ∃ s', obj_set_value h loc l v = Ok (<[loc := s']> h, loc) ∧
        index s' = index s ∧ name s' = name s ∧
        dtype (values s') = dtype (values s) ∧
        length (data (values s')) = length (data (values s)) ∧
        ∀ i lab, index s !! i = Some lab →
          data (values s') !! i
            = if decide (lab = l) then Some v' else data (values s) !! i) ∧
   (∀ e, np_store (dtype (values s)) v = Raise e →
      obj_set_value h loc l v = Raise e)) ∧
  (∀ k s', __setitem__ s k v = Ok s' →
     index s' = index s ∧ length (data (values s')) = length (data (values s))) ∧
  (∀ ke, label_of ke ∉ index s →
     is_integer ke = false ∨ inferred_type (index s) = inf_integer →
     __setitem__ s (KeyScalar ke) v = Raise KeyError).
Proof.
  intros Hloc Hwf. split_and!.
  - intros Habs.
    assert (engine_set_value s l v = Raise KeyError) as He.
    { unfold engine_set_value. by rewrite bool_decide_eq_false_2. }
    set (r := mk_Series
                (mk_ndarray (np_promote (dtype (values s)) (scalar_dtype v))
                            (data (values s) ++ [v]))
                (index s ++ [l]) (name s)).
    assert (set_value s l v = Ok (s, New r)) as Hsv.
    { unfold set_value. rewrite He.
      assert ((if decide (length (index s) = 0) then [l]
               else Index_insert (index s) (length (data (values s))) l)
              = index s ++ [l]) as ->.
      { destruct (decide _) as [Hz|Hz].
        - apply nil_length_inv in Hz. by rewrite Hz.
        - unfold Index_insert. rewrite Hwf.
          by rewrite firstn_all, skipn_all. }
      rewrite Series_new_same_length; [done|].
      simpl. rewrite !length_app. simpl. by rewrite Hwf. }
    exists (fresh (dom h)), r. unfold obj_set_value, deref. rewrite Hloc. simp_ok.
    rewrite Hsv. simp_ok. unfold commit, alloc. simpl.
    rewrite (insert_id h loc s) by done.
    pose proof (fresh_store_ne h loc s Hloc). split_and!; try done.
    + apply fresh_store.
    + unfold wf. simpl. rewrite !length_app. simpl. by rewrite Hwf.
    + by rewrite lookup_insert_ne.
  - intros Hin. split.
    + intros v' Hv'.
      set (s' := with_data s (putmask (data (values s)) (positions_of (index s) l) v')).
      assert (engine_set_value s l v = Ok s') as He.
      { unfold engine_set_value. rewrite bool_decide_eq_true_2 by done.
        by rewrite Hv'. }
      exists s'. unfold obj_set_value, deref. rewrite Hloc. simp_ok.
      unfold set_value. rewrite He. simp_ok. unfold commit. simpl.
      split_and!; try done.
      * apply length_putmask. by rewrite length_positions_of.
      * intros i lab Hi. rewrite putmask_lookup. unfold positions_of.
        rewrite list_lookup_fmap, Hi. simpl.
        assert (is_Some (data (values s) !! i)) as [x Hx].
        { apply lookup_lt_is_Some. rewrite Hwf. by eapply lookup_lt_Some. }
        rewrite Hx. simpl. case_bool_decide; by destruct (decide _).
    + intros e He. unfold obj_set_value, deref. rewrite Hloc. simp_ok.
      unfold set_value, engine_set_value.
      rewrite bool_decide_eq_true_2 by done. rewrite He. simpl.
      apply np_store_not_KeyError in He. by destruct e.
  - intros k s' Hs. by apply __setitem___length in Hs as (? & _ & ?).
  - intros ke Habs Hk. unfold __setitem__.
    unfold engine_set_value. rewrite bool_decide_eq_false_2 by done. simpl.
    destruct Hk as [-> | ->]; [done|].
    rewrite bool_decide_eq_true_2 by done. by rewrite andb_false_r.
Qed.

(** ** Slices keep the length of the array they assign into *)

Lemma slice_bound_le n d b : d ≤ n → slice_bound n d b ≤ n.
Proof. intros. unfold slice_bound. destruct b; [destruct (decide _)|]; lia. Qed.

Lemma slice_lo_hi n a b : slice_lo n a ≤ slice_hi n a b ∧ slice_hi n a b ≤ n.
Proof.
  unfold slice_hi, slice_lo.
  pose proof (slice_bound_le n 0 a). pose proof (slice_bound_le n n b). lia.
Qed.

Lemma setslice_scalar_length {A} (l : list A) a b x :
  length (setslice_scalar l a b x) = length l.
Proof.
  unfold setslice_scalar. pose proof (slice_lo_hi (length l) a b).
  rewrite !length_app, length_replicate, length_take, length_drop. lia.
Qed.

Lemma getslice_length {A} (l : list A) a b :
  length (getslice l a b) = slice_hi (length l) a b - slice_lo (length l) a.
Proof.
  unfold getslice. pose proof (slice_lo_hi (length l) a b).
  rewrite length_take, length_drop. lia.
Qed.

(** ** shift *)

Lemma shift_total (s : Series) (periods : Z) :
  wf s →
  ∃ r, shift s periods = Ok r ∧ wf r ∧ index r = index s ∧ name r = name s ∧
       dtype (values r) = (if decide (periods = 0)%Z then dtype (values s)
                           else _maybe_upcast_dtype (dtype (values s))).
Proof.
  intros Hwf. unfold shift. destruct (decide (periods = 0)%Z) as [Hz|Hz].
  { rewrite copy_Ok by done. by exists s. }
  set (n := length (data (values s))).
  assert (∃ d, (if decide (periods > 0)%Z then
           d ← setslice (data (np_empty n (dtype (values s)))) (Some periods) None
                        (getslice (data (values s)) None (Some (- periods)%Z));
           Ok (setslice_scalar d None (Some periods) VNaN)
         else
           d ← setslice (data (np_empty n (dtype (values s)))) None (Some periods)
                        (getslice (data (values s)) (Some (- periods)%Z) None);
           Ok (setslice_scalar d (Some periods) None VNaN)) = Ok d ∧ length d = n)
    as (d & Hd & Hlen).
  { simpl. destruct (decide (periods > 0)%Z) as [Hp|Hp].
    - unfold setslice at 1. rewrite getslice_length, length_replicate. fold n.
      rewrite decide_True.
      + simp_ok. eexists. split; [done|].
        rewrite setslice_scalar_length, !length_app, length_take, length_drop,
          length_replicate, getslice_length. fold n.
        unfold slice_hi, slice_lo, slice_bound. clearbody n.
        repeat case_decide; lia.
      + unfold slice_hi, slice_lo, slice_bound. clearbody n.
        repeat case_decide; lia.
    - unfold setslice at 1. rewrite getslice_length, length_replicate. fold n.
      rewrite decide_True.
      + simp_ok. eexists. split; [done|].
        rewrite setslice_scalar_length, !length_app, length_take, length_drop,
          length_replicate, getslice_length. fold n.
        unfold slice_hi, slice_lo, slice_bound. clearbody n.
        repeat case_decide; lia.
      + unfold slice_hi, slice_lo, slice_bound. clearbody n.
        repeat case_decide; lia. }
  fold n. simpl in Hd |- *. rewrite Hd. simp_ok.
  rewrite Series_new_same_length by (simpl; by rewrite Hlen).
  eexists. split; [done|]. simpl. unfold wf. simpl. split_and!; try done.
  by rewrite Hlen.
Qed.

(** ** Element kinds and missing values *)



Lemma reindex_empty (s : Series) target fill c :
  index s = [] → target ≠ [] →
  reindex s (Some target) fill c
  = Ok (New (mk_Series (mk_ndarray Floating (replicate (length target) VNaN))
                       target (name s))).
Proof.
  intros He Hne. unfold reindex, Index_equals.
  rewrite bool_decide_false by (by rewrite He).
  rewrite decide_True by (by rewrite He).
  unfold Series_scalar, set_index. cbn [scalar_dtype data].
  by rewrite decide_True by (by rewrite length_replicate).
Qed.

Lemma reindex_other (s : Series) target fill c :
  wf s → index s ≠ target → index s ≠ [] →
  reindex s (Some target) fill c
  = Ok (New (mk_Series
               (mk_ndarray
                  (if bool_decide ((-1)%Z ∈ get_indexer (index s) target)
                   then _maybe_upcast_dtype (dtype (values s))
                   else dtype (values s))
                  ((λ l, value_at s l fill) <$> target))
               target (name s))).
Proof.
  intros Hwf Hne Hnz. unfold reindex, Index_equals.
  rewrite bool_decide_false by done.
  rewrite decide_False by (by destruct (index s)).
  cbn [Index_reindex]. rewrite take_1d_get_indexer by done. simp_ok.
  by rewrite Series_new_same_length by (simpl; by rewrite length_fmap).
Qed.



(** ** Subscripting with a list of integers *)

Lemma norm_pos_lt n i p : norm_pos n i = Ok p → p < n.
Proof. unfold norm_pos. repeat case_decide; intros [= <-]; lia. Qed.

Lemma fancy_eq {A} `{!Inhabited A} (l : list A) ps :
  fancy l ps
  = (λ ps' : list nat, (λ p, l !!! p) <$> ps') <$> mapR (norm_pos (length l)) ps.
Proof.
  unfold fancy. induction ps as [|i ps IH]; [done|]. simpl.
  destruct (norm_pos (length l) i) as [p|e] eqn:E; simpl; [|done].
  apply norm_pos_lt in E. apply lookup_lt_is_Some in E as [x Hx].
  rewrite Hx. simpl. rewrite IH.
  destruct (mapR (norm_pos (length l)) ps); simpl; [|done].
  f_equal. f_equal. symmetry. by apply list_lookup_total_correct.
Qed.

Lemma all_KInt_not_bool ks :
  forallb is_KInt ks = true → _is_bool_indexer (KeyList ks) = false.
Proof.
  intros H. unfold _is_bool_indexer. destruct ks as [|[]]; simpl in *; try done.
Qed.

Lemma all_KInt_infer ks :
  forallb is_KInt ks = true → ks ≠ [] → infer_dtype ks = inf_integer.
Proof. intros H Hne. unfold infer_dtype. destruct ks; [done|]. by rewrite H. Qed.

(** Positional gather of both buffers: what [_get_values] does with a list
    of integers. *)
Lemma _get_values_positions (S : Series) ks :
  wf S → forallb is_KInt ks = true →
  _get_values S (KeyList ks)
  = (ps ← mapR (norm_pos (length (index S))) (key_int <$> ks);
     Ok (ItemSeries
           (mk_Series (mk_ndarray (dtype (values S))
                                  ((λ p, data (values S) !!! p) <$> ps))
                      ((λ p, index S !!! p) <$> ps) (name S)))).
Proof.
  intros Hwf Hk. unfold _get_values, np_index.
  assert (forallb is_KBool ks && negb (bool_decide (ks = [])) = false) as ->.
  { by apply all_KInt_not_bool in Hk. }
  rewrite !fancy_eq. rewrite Hwf.
  destruct (mapR (norm_pos (length (index S))) (key_int <$> ks)) as [ps|e]; simpl; [|done].
  rewrite Series_new_same_length by (simpl; by rewrite !length_fmap). done.
Qed.

Lemma inferred_integer_nonempty (idx : Index) :
  inferred_type idx = inf_integer → idx ≠ [].
Proof. by destruct idx. Qed.

(** C9: for a key that is a sequence of integers, plain label lookup in the
    subscript operator fails and the key is handed to [_get_with]; there it
    is read as a list of labels, resolved through a reindex, exactly when
    the Series' own index is integer-typed, and otherwise as physical
    positions through which labels and values are gathered. *)
Theorem getitem_integer_sequence (S : Series) (ks : list keyelt) :
  wf S → forallb is_KInt ks = true →
  let labels := label_of <$> ks in
  Index_get_value S (KeyList ks) = Raise InvalidIndexError ∧
  __getitem__ S (KeyList ks) = _get_with S (KeyList ks) ∧
  (inferred_type (index S) = inf_integer →
   ∃ r, __getitem__ S (KeyList ks) = Ok (ItemSeries r) ∧
        reindex S (Some labels) VNaN true = Ok (New r) ∧
        index r = labels ∧ name r = name S ∧
        (index S = labels → values r = values S) ∧
        (index S ≠ labels →
         data (values r) = (λ l, value_at S l VNaN) <$> labels)) ∧
  (inferred_type (index S) ≠ inf_integer →
   __getitem__ S (KeyList ks) = _get_values S (KeyList ks) ∧
   __getitem__ S (KeyList ks)
   = (ps ← mapR (norm_pos (length (index S))) (key_int <$> ks);
      Ok (ItemSeries
            (mk_Series (mk_ndarray (dtype (values S))
                                   ((λ p, data (values S) !!! p) <$> ps))
                       ((λ p, index S !!! p) <$> ps) (name S))))).
Proof.
  intros Hwf Hk labels.
  assert (__getitem__ S (KeyList ks) = _get_with S (KeyList ks)) as Hget.
  { unfold __getitem__. simpl Index_get_value. cbv iota.
    by rewrite (all_KInt_not_bool ks Hk). }
  split; [done|]. split; [done|]. rewrite Hget. split.
  - intros Hint. pose proof (inferred_integer_nonempty _ Hint) as Hne.
    assert (_get_with S (KeyList ks)
            = item_of_returned S (reindex S (Some labels) VNaN true)) as ->.
    { unfold _get_with. destruct (decide (infer_dtype ks = inf_integer)) as [|Hn].
      - by rewrite decide_True.
      - destruct (decide (infer_dtype ks = inf_boolean)) as [Hb|]; [|done].
        exfalso. unfold infer_dtype in *. destruct ks; [done|]. by rewrite Hk in *. }
    unfold reindex, Index_equals. case_bool_decide as Heq.
    + rewrite copy_Ok by done. simp_ok. unfold set_index.
      rewrite decide_True by (by rewrite <-Heq). simpl.
      eexists. split; [done|]. split; [done|]. simpl. split_and!; done.
    + rewrite decide_False by (by destruct (index S)).
      simpl. rewrite take_1d_get_indexer by done. simp_ok.
      rewrite Series_new_same_length by (simpl; by rewrite length_fmap). simpl.
      eexists. split; [done|]. split; [done|]. simpl. split_and!; done.
  - intros Hint.
    assert (_get_with S (KeyList ks) = _get_values S (KeyList ks)) as Hgv;
      [|split; [done|rewrite Hgv; by apply _get_values_positions]].
    destruct (decide (ks = [])) as [->|Hne].
    + unfold _get_with. simpl.
      unfold _get_values, np_index, fancy, reindex, Index_equals. simpl.
      unfold Series_new, set_index. simpl.
      destruct S as [[d vs] ix nm]; unfold wf in Hwf; simpl in *.
      case_bool_decide as Heq.
      * subst ix. destruct vs; [|done]. unfold copy, Series_new, set_index. simpl.
        done.
      * rewrite decide_False by (by destruct ix). simpl. done.
    + unfold _get_with. rewrite (all_KInt_infer ks Hk Hne).
      rewrite decide_True by done. by rewrite decide_False.
Qed.

(** ** _binop *)

Lemma binop_masks (dx dy : Dtype) (x y : list value) (v : value) :
  length x = length y →
  (mask ← mask_xor (isnull <$> x) (isnull <$> y);
   m1 ← mask_and (isnull <$> x) mask;
   m2 ← mask_and (isnull <$> y) mask;
   Ok (mk_ndarray dx (putmask x m1 v), mk_ndarray dy (putmask y m2 v)))
  = Ok (mk_ndarray dx (zip_with (fill_one_sided v) x y),
        mk_ndarray dy (zip_with (fill_one_sided v) y x)).
Proof.
  intros Hl. unfold mask_xor, mask_and.
  rewrite decide_True by (by rewrite !length_fmap). simp_ok.
  rewrite decide_True by (rewrite length_zip_with, !length_fmap; lia). simp_ok.
  rewrite decide_True by (rewrite length_zip_with, !length_fmap; lia). simp_ok.
  assert (putmask x (zip_with andb (isnull <$> x)
                      (zip_with xorb (isnull <$> x) (isnull <$> y))) v
          = zip_with (fill_one_sided v) x y ∧
          putmask y (zip_with andb (isnull <$> y)
                      (zip_with xorb (isnull <$> x) (isnull <$> y))) v
          = zip_with (fill_one_sided v) y x) as [-> ->]; [|done].
  unfold putmask. revert y Hl.
  induction x as [|a x IH]; intros [|b y] Hl; try done.
  injection Hl as Hl. destruct (IH y Hl) as [IH1 IH2]. csimpl.
  rewrite IH1, IH2.
  unfold fill_one_sided. by destruct (isnull a), (isnull b).
Qed.

(** The pair of Series [_binop] works on: the operands themselves when
    their indexes are equal, their outer alignment otherwise. *)
Lemma _binop_aligned (A B : Series) :
  wf A → wf B →
  ∃ this other,
    (if Index_equals (index A) (index B) then this = A ∧ other = B
     else ∃ l r, align A B outer true None None None = Ok (l, r) ∧
                 this = the A l ∧ other = the B r ∧
                 let U := Index_union (index A) (index B) in
                 index this = U ∧
                 data (values this) = (λ l, value_at A l VNaN) <$> U ∧
                 data (values other) = (λ l, value_at B l VNaN) <$> U) ∧
    index this = index other ∧ wf this ∧ wf other ∧
    ∀ func v,
      _binop A B func (Some v)
      = (result ← func
           (mk_ndarray (dtype (values this))
              (zip_with (fill_one_sided v) (data (values this)) (data (values other))))
           (mk_ndarray (dtype (values other))
              (zip_with (fill_one_sided v) (data (values other)) (data (values this))));
         Series_new result (index this) (_maybe_match_name A B)).
Proof.
  intros HA HB. unfold _binop. destruct (Index_equals (index A) (index B)) eqn:Heq.
  - exists A, B. apply bool_decide_eq_true in Heq. split_and!; try done.
    intros func v. simpl. unfold isnull_arr.
    rewrite binop_masks by (unfold wf in *; congruence). done.
  - set (U := Index_union (index A) (index B)).
    pose proof (NoDup_Index_union (index A) (index B)) as Hnd. fold U in Hnd.
    destruct (_reindex_indexer_join A U true HA) as (l & Hl & Hwl & Hil & Hl1 & Hl2).
    destruct (_reindex_indexer_join B U true HB) as (r & Hr & Hwr & Hir & Hr1 & Hr2).
    assert (align A B outer true None None None = Ok (l, r)) as Hal.
    { unfold align, Index_join. fold U. rewrite Hl. simp_ok. rewrite Hr. done. }
    assert (data (values (the A l)) = (λ l, value_at A l VNaN) <$> U) as HdA.
    { destruct (decide (U = index A)) as [e|n].
      - rewrite (Hl1 e). rewrite e. apply value_at_self; [done|by rewrite <-e].
      - by rewrite (Hl2 n). }
    assert (data (values (the B r)) = (λ l, value_at B l VNaN) <$> U) as HdB.
    { destruct (decide (U = index B)) as [e|n].
      - rewrite (Hr1 e). rewrite e. apply value_at_self; [done|by rewrite <-e].
      - by rewrite (Hr2 n). }
    exists (the A l), (the B r). split_and!; try done.
    + exists l, r. split_and!; done.
    + congruence.
    + intros func v. simpl. rewrite Hal. simp_ok. unfold isnull_arr.
      rewrite binop_masks by (rewrite HdA, HdB; by rewrite !length_fmap). simp_ok.
      destruct (align_name _ _ _ _ _ _ _ _ _ Hal) as [_ Hn].
      by rewrite (_maybe_match_name_names A (the B r) A B eq_refl Hn).
Qed.

Lemma np_op_same_length (o : operator) (x y : ndarray) :
  length (data x) = length (data y) →
  np_op o x y = (d ← zipR (op_scalar o) (data x) (data y);
                 Ok (mk_ndarray (op_dtype o (dtype x) (dtype y)) d)).
Proof. intros H. unfold np_op, broadcast2. by rewrite decide_True. Qed.

(** C1: [_binop] documents that a position missing in both Series is missing
    in the result whatever the fill value.  With [operator.eq] as the
    function it is not: on [{'x': nan}] and itself, with fill value 0, the
    position holds False. *)
Lemma binop_both_missing_not_missing :
  isnull_arr (values x_nan) !! 0 = Some true ∧
  _binop x_nan x_nan (np_op operator_eq) (Some (VNum 0))
  = Ok (mk_Series (mk_ndarray Boolean [VBool false]) [LStr "x"] None) ∧
  isnull (VBool false) = false.
Proof. split_and!; reflexivity. Qed.

(** X26: [_binop] with a non-null fill value works on the operands'
    outer alignment (the operands themselves when their indexes are equal);
    at every aligned position it hands the operator the fill value in place
    of a side that alone is missing, and both sides as they are otherwise.
    A position missing on both sides is thus computed from two missing
    operands, and is missing in the result whenever the operator yields
    missing on missing operands, as the arithmetic operators do.  For
    [A = {'x':1, 'y':nan}], [B = {'x':nan, 'y':2}], addition and fill value
    0 the result is [{'x':1, 'y':2}]. *)
Theorem binop_fill_value (A B : Series) (o : operator) (v : value) :
  wf A → wf B → isnull v = false →
  ∃ this other,
    (if Index_equals (index A) (index B) then this = A ∧ other = B
     else ∃ l r, align A B outer true None None None = Ok (l, r) ∧
                 this = the A l ∧ other = the B r ∧
                 let U := Index_union (index A) (index B) in
                 index this = U ∧
                 data (values this) = (λ l, value_at A l VNaN) <$> U ∧
                 data (values other) = (λ l, value_at B l VNaN) <$> U) ∧
    index this = index other ∧ wf this ∧ wf other ∧
    (∀ r, _binop A B (np_op o) (Some v) = Ok r →
       index r = index this ∧ wf r ∧
       ∀ i a b,
         data (values this) !! i = Some a → data (values other) !! i = Some b →
         ∃ c, data (values r) !! i = Some c ∧
              op_scalar o (if isnull a && negb (isnull b) then v else a)
                          (if isnull b && negb (isnull a) then v else b) = Ok c ∧
              (isnull a = true → isnull b = false → op_scalar o v b = Ok c) ∧
              (isnull a = false → isnull b = true → op_scalar o a v = Ok c) ∧
              (isnull a = true → isnull b = true → op_scalar o a b = Ok c) ∧
              ((∀ x y z, isnull x = true → isnull y = true →
                         op_scalar o x y = Ok z → isnull z = true) →
               isnull a = true → isnull b = true → isnull c = true)) ∧
    ((∀ a b, is_ok (op_scalar o a b) = true) →
     ∃ r, _binop A B (np_op o) (Some v) = Ok r) ∧
    _binop xy_A xy_B (np_op operator_add) (Some (VNum 0)) = Ok xy_sum.
Proof.
  intros HA HB Hv.
  destruct (_binop_aligned A B HA HB) as (this & other & Hal & Hidx & Hwt & Hwo & Hb).
  exists this, other. split; [exact Hal|]. split; [done|]. split; [done|].
  split; [done|].
  assert (length (zip_with (fill_one_sided v) (data (values this)) (data (values other)))
          = length (zip_with (fill_one_sided v) (data (values other)) (data (values this))))
    as Hlen.
  { rewrite !length_zip_with. lia. }
  assert (length (data (values this)) = length (data (values other))) as Hlen2.
  { unfold wf in *. congruence. }
  split_and!.
  - intros r Hr. rewrite Hb in Hr. rewrite np_op_same_length in Hr by done.
    simpl in Hr. inv_ok. inv_new. subst. simpl. split_and!; try done.
    intros i a b Ha Hbi.
    match goal with Hz : zipR _ _ _ = Ok ?d |- _ =>
      destruct (zipR_lookup _ _ _ _ i (fill_one_sided v a b) (fill_one_sided v b a) Hz)
        as (c & Hc & Hop) end.
    { rewrite lookup_zip_with, Ha. simpl. by rewrite Hbi. }
    { rewrite lookup_zip_with, Hbi. simpl. by rewrite Ha. }
    exists c. split; [done|]. unfold fill_one_sided in Hop. split; [done|].
    split_and!.
    + intros Hna Hnb. by rewrite Hna, Hnb in Hop.
    + intros Hna Hnb. by rewrite Hna, Hnb in Hop.
    + intros Hna Hnb. by rewrite Hna, Hnb in Hop.
    + intros Hprop Hna Hnb. rewrite Hna, Hnb in Hop. simpl in Hop.
      by apply (Hprop a b c).
  - intros Htot. rewrite Hb. rewrite np_op_same_length by done. simpl.
    destruct (zipR_total (op_scalar o)
                (zip_with (fill_one_sided v) (data (values this)) (data (values other)))
                (zip_with (fill_one_sided v) (data (values other)) (data (values this))))
      as [d Hd]; [by intros|].
    rewrite Hd. simp_ok. rewrite Series_new_same_length; [by eexists|].
    simpl. rewrite (zipR_length _ _ _ _ Hlen Hd), length_zip_with.
    unfold wf in Hwt. lia.
  - reflexivity.
Qed.

(** ** The arithmetic wrapper: [na_op] on arrays of one length *)

Lemma zipR_cons {A B C} (f : A → B → result C) a x b y :
  zipR f (a :: x) (b :: y) = (c ← f a b; k ← zipR f x y; Ok (c :: k)).
Proof. done. Qed.

(** The masked fallback of [na_op], element by element. *)
Lemma masked_fallback (o : operator) (x y dst : list value) :
  length x = length y → length dst = length x →
  (r ← zipR (op_scalar o) (bool_select (both_notnull x y) x)
                          (bool_select (both_notnull x y) y);
   Ok (putmask (bool_scatter dst (both_notnull x y) r)
               (negb <$> both_notnull x y) VNaN))
  = zipR (masked_elt o) x y.
Proof.
  revert y dst; induction x as [|a x IH]; intros [|b y] [|d0 dst] Hl Hd; try done.
  injection Hl as Hl. injection Hd as Hd. specialize (IH y dst Hl Hd).
  rewrite (zipR_cons (masked_elt o)).
  change (both_notnull (a :: x) (b :: y))
    with ((notnull a && notnull b) :: both_notnull x y).
  destruct (notnull a && notnull b) eqn:E.
  - assert (masked_elt o a b = op_scalar o a b) as ->
      by (unfold masked_elt; by rewrite E).
    change (bool_select (true :: both_notnull x y) (a :: x))
      with (a :: bool_select (both_notnull x y) x).
    change (bool_select (true :: both_notnull x y) (b :: y))
      with (b :: bool_select (both_notnull x y) y).
    rewrite zipR_cons. destruct (op_scalar o a b) as [c|e]; [|done]. simp_ok.
    rewrite <-IH. destruct (zipR (op_scalar o) _ _) as [k|e]; reflexivity.
  - assert (masked_elt o a b = Ok VNaN) as ->
      by (unfold masked_elt; by rewrite E).
    change (bool_select (false :: both_notnull x y) (a :: x))
      with (bool_select (both_notnull x y) x).
    change (bool_select (false :: both_notnull x y) (b :: y))
      with (bool_select (both_notnull x y) y).
    simp_ok. rewrite <-IH. destruct (zipR (op_scalar o) _ _) as [k|e]; reflexivity.
Qed.

Lemma arith_na_op_same_length (o : operator) (x y : ndarray) :
  length (data x) = length (data y) →
  arith_na_op o x (RArray y)
  = try_except
      (d ← zipR (op_scalar o) (data x) (data y);
       Ok (mk_ndarray (op_dtype o (dtype x) (dtype y)) d))
      TypeError
      (d ← zipR (masked_elt o) (data x) (data y); Ok (mk_ndarray (dtype x) d)).
Proof.
  intros Hl. unfold arith_na_op, apply_op. rewrite np_op_same_length by done.
  f_equal. unfold mask_and, notnull_arr.
  rewrite decide_True by (by rewrite !length_fmap). simp_ok.
  fold (both_notnull (data x) (data y)).
  set (mask := both_notnull (data x) (data y)).
  assert (length mask = length (data x)) as Hm.
  { unfold mask, both_notnull. rewrite length_zip_with, !length_fmap. lia. }
  unfold np_getmask. rewrite !decide_True by congruence. simp_ok.
  assert (length (bool_select mask (data x)) = length (bool_select mask (data y))) as Hs.
  { rewrite !bool_select_length by (by rewrite <-?Hl). done. }
  rewrite np_op_same_length by done. simpl.
  rewrite <-(masked_fallback o (data x) (data y) (replicate (length (data x)) (VNum 0)))
    by (by rewrite ?length_replicate).
  fold mask.
  destruct (zipR (op_scalar o) _ _) as [k|e] eqn:E; csimpl; [|done].
  unfold np_setmask. rewrite decide_True by (by rewrite length_replicate).
  rewrite decide_True; [done|].
  rewrite (zipR_length _ _ _ _ Hs E). by apply bool_select_length.
Qed.

(** ** The fast path of the arithmetic wrapper against the join *)










(** ** Every operation returns a Series of equal lengths *)

Section order_total.
Variable argsort_default : list value → list nat.
Hypothesis argsort_default_valid : argsort_valid argsort_default.

Lemma order_sortedIdx_total (self : Series) (na_last ascending : bool) :
  ∃ sortedIdx,
    order_sortedIdx argsort_default self na_last ascending = Ok sortedIdx ∧
    sortedIdx ≡ₚ seq 0 (length (data (values self))).
Proof.
  unfold order_sortedIdx.
  set (d := data (values self)). set (bad := isnull_arr (values self)).
  set (good := negb <$> bad).
  assert (length bad = length d) as Hb by (unfold bad, isnull_arr; by rewrite length_fmap).
  assert (length good = length d) as Hg by (unfold good; by rewrite length_fmap).
  unfold np_getmask. rewrite !length_seq. rewrite !decide_True by done. simp_ok.
  set (idx_good := bool_select good (seq 0 (length d))).
  set (idx_bad := bool_select bad (seq 0 (length d))).
  set (argsorted := _try_mergesort argsort_default
         (mk_ndarray (dtype (values self)) (bool_select good d))).
  pose proof (mask_sum_compl bad) as Hc. fold good in Hc.
  assert (length idx_good = mask_sum good) as Hlg.
  { unfold idx_good. apply bool_select_length. by rewrite length_seq. }
  assert (length idx_bad = mask_sum bad) as Hlb.
  { unfold idx_bad. apply bool_select_length. by rewrite length_seq. }
  assert ((if negb ascending then reverse argsorted else argsorted)
          ≡ₚ seq 0 (length idx_good)) as Hperm.
  { destruct (_try_mergesort_sorts argsort_default argsort_default_valid
      (mk_ndarray (dtype (values self)) (bool_select good d))) as [Hp _].
    fold argsorted in Hp. simpl in Hp. rewrite bool_select_length in Hp by done.
    rewrite Hlg. destruct ascending; simpl; [done|]. by rewrite reverse_Permutation. }
  destruct (gather_Permutation idx_good _ Hperm) as [-> Hp2]. simp_ok.
  set (sg := (λ a, idx_good !!! a) <$> _) in *.
  assert (length sg = mask_sum good) as Hls by (by rewrite Hp2).
  assert (idx_good ++ idx_bad ≡ₚ seq 0 (length d)) as Hall.
  { unfold idx_good, idx_bad, good. rewrite (comm (++)).
    apply bool_select_compl. by rewrite length_seq. }
  destruct na_last.
  - rewrite setslice_prefix; [|rewrite length_replicate; lia|done]. simp_ok.
    rewrite setslice_suffix.
    + rewrite take_app_length' by done. eexists. split; [done|]. by rewrite Hp2.
    + rewrite length_app, length_drop, length_replicate. lia.
    + rewrite length_app, length_drop, length_replicate. lia.
  - rewrite setslice_suffix; [|rewrite length_replicate; lia|rewrite length_replicate; lia].
    simp_ok. rewrite setslice_prefix.
    + rewrite drop_app_length' by (rewrite length_take, length_replicate; lia).
      eexists. split; [done|]. by rewrite (comm (++)), Hp2.
    + rewrite length_app, length_take, length_replicate. lia.
    + done.
Qed.

Lemma order_total (self : Series) (na_last ascending : bool) :
  wf self →
  ∃ r, order argsort_default self na_last ascending = Ok r ∧ wf r ∧
       length (index r) = length (index self).
Proof.
  intros Hwf. unfold order.
  destruct (order_sortedIdx_total self na_last ascending) as (sidx & -> & Hp). simp_ok.
  pose proof (Permutation_seq_bound _ _ Hp) as Hbound.
  rewrite (gather_total _ sidx Hbound). simp_ok.
  rewrite (gather_total (index self) sidx) by (by rewrite <-Hwf). simp_ok.
  rewrite Series_new_same_length by (simpl; by rewrite !length_fmap).
  eexists. split; [done|]. unfold wf. simpl. rewrite !length_fmap.
  split; [done|]. rewrite Hp, length_seq. done.
Qed.
End order_total.

Lemma fancy_of_nat {A} `{!Inhabited A} (l : list A) (ps : list nat) :
  Forall (λ p, p < length l) ps →
  fancy l (Z.of_nat <$> ps) = Ok ((λ p, l !!! p) <$> ps).
Proof.
  intros H. rewrite fancy_eq.
  assert (mapR (norm_pos (length l)) (Z.of_nat <$> ps) = Ok ps) as ->; [|done].
  apply mapR_Ok. apply Forall2_fmap_l. apply Forall_Forall2_diag.
  eapply Forall_impl; [exact H|]. intros p Hp. simpl in *. unfold norm_pos.
  rewrite decide_True by lia. by rewrite Nat2Z.id.
Qed.

Lemma sort_index_total (self : Series) (ascending : bool) :
  wf self → ∃ r, sort_index self ascending = Ok r ∧ wf r.
Proof.
  intros Hwf. unfold sort_index, Index_order.
  set (s := if ascending then _ else _).
  assert (s ≡ₚ imap (λ i l, (i, l)) (index self)) as Hp.
  { unfold s. destruct ascending; [|rewrite reverse_Permutation];
      apply msort_Permutation. }
  assert ((λ p : nat * label, Z.of_nat p.1) <$> s
          = Z.of_nat <$> ((λ p : nat * label, p.1) <$> s)) as ->.
  { by rewrite <-list_fmap_compose. }
  unfold np_take. rewrite fancy_of_nat.
  - simp_ok. rewrite Series_new_same_length by (simpl; by rewrite !length_fmap).
    eexists. split; [done|]. unfold wf. simpl. by rewrite !length_fmap.
  - apply (Permutation_seq_bound _ (length (data (values self)))).
    rewrite Hp, fst_imap_pair. by rewrite Hwf.
Qed.

Lemma take_wf (self : Series) indices :
  wf self →
  (∀ r, take self indices = Ok r → wf r) ∧
  (Forall (λ i, - Z.of_nat (length (index self)) ≤ i < Z.of_nat (length (index self)))%Z
          indices →
   ∃ r, take self indices = Ok r).
Proof.
  intros Hwf. split.
  - unfold take. intros r H. inv_ok. by eapply Series_new_wf.
  - intros Hin. unfold take, Index_take, np_take. rewrite !fancy_eq, Hwf.
    destruct (mapR_total (norm_pos (length (index self))) indices) as [ps ->].
    { eapply Forall_impl; [exact Hin|]. intros i Hi. simpl in *. unfold norm_pos.
      repeat case_decide; try done. lia. }
    simpl. rewrite Series_new_same_length by (simpl; by rewrite !length_fmap).
    by eexists.
Qed.

Lemma fillna_wf (self : Series) v m inplace limit :
  wf self →
  (∀ s' r, fillna self v m inplace limit = Ok (s', r) →
     wf s' ∧ wf (the s' r) ∧ index (the s' r) = index self) ∧
  (is_Some v ∨ is_Some m → ∃ s' r, fillna self v m inplace limit = Ok (s', r)).
Proof.
  intros Hwf. unfold fillna. rewrite !copy_Ok by done. simp_ok.
  assert (length (isnull_arr (values self)) = length (data (values self))) as Hl.
  { unfold isnull_arr. by rewrite length_fmap. }
  destruct (negb (_can_hold_na self)).
  { destruct inplace; simpl; split; try by eauto.
    - by intros ?? [= <- <-].
    - by intros ?? [= <- <-]. }
  destruct v as [v|].
  { destruct inplace; simpl; (split; [intros ?? [= <- <-]|by eauto]);
      unfold wf; simpl; by rewrite length_putmask. }
  destruct m as [m|].
  - destruct inplace; simpl.
    + split; [intros ?? [= <- <-]|by eauto].
      unfold wf; simpl; by rewrite length_fill_func.
    + rewrite Series_new_same_length by (simpl; by rewrite length_fill_func). simpl.
      split; [intros ?? [= <- <-]|by eauto].
      unfold wf; simpl; by rewrite length_fill_func.
  - split; [done|]. intros [[? [=]]|[? [=]]].
Qed.

Lemma dropna_total (self : Series) :
  wf self →
  ∃ r, dropna self = Ok (ItemSeries r) ∧ wf r ∧
       data (values r) = bool_select (notnull_arr (values self)) (data (values self)) ∧
       index r = bool_select (notnull_arr (values self)) (index self).
Proof.
  intros Hwf. unfold dropna, remove_na, __getitem__. simpl.
  unfold _get_values, np_index, np_getmask.
  assert (length (notnull_arr (values self)) = length (data (values self))) as Hl.
  { unfold notnull_arr. by rewrite length_fmap. }
  rewrite !decide_True by congruence. simp_ok.
  rewrite Series_new_same_length.
  - eexists. split; [done|]. unfold wf. simpl.
    rewrite !bool_select_length by congruence. done.
  - simpl. rewrite !bool_select_length by congruence. done.
Qed.

Lemma take_1d_values_total (arg : Series) (vals : list value) fill :
  wf arg →
  ∃ r, take_1d (values arg) (get_indexer_values (index arg) vals) fill = Ok r ∧
       length (data r) = length vals.
Proof.
  intros Hwf. unfold take_1d.
  destruct (mapR_total
    (λ i, if decide (i = -1)%Z then Ok fill
          else if decide (0 ≤ i)%Z then
            match data (values arg) !! Z.to_nat i with
            | Some x => Ok x
            | None => Raise IndexError
            end
          else Raise IndexError) (get_indexer_values (index arg) vals)) as [k Hk].
  { unfold get_indexer_values. apply Forall_fmap, Forall_forall. intros v _. simpl.
    destruct (label_of_value v ≫= get_loc (index arg)) as [p|] eqn:E.
    - rewrite decide_False by lia. rewrite decide_True by lia. rewrite Nat2Z.id.
      destruct (label_of_value v) as [l|]; [|done]. simpl in E.
      apply get_loc_Some in E as [E _]. apply lookup_lt_Some in E.
      rewrite <-Hwf in E. apply lookup_lt_is_Some in E as [x ->]. done.
    - by rewrite decide_True. }
  rewrite Hk. simp_ok. eexists. split; [done|]. simpl.
  apply mapR_length in Hk. rewrite Hk. unfold get_indexer_values.
  by rewrite length_fmap.
Qed.

Lemma map_wf (self : Series) (arg : map_arg) (na_action_ignore : bool) :
  wf self →
  (∀ r, map self arg na_action_ignore = Ok r → wf r ∧ index r = index self) ∧
  (match arg with
   | MapSeries a => wf a
   | MapFunction f => ∀ v, is_ok (f v) = true
   end → ∃ r, map self arg na_action_ignore = Ok r).
Proof.
  intros Hwf. split.
  - unfold map. intros r H. destruct arg; inv_ok; inv_new; subst; by split.
  - unfold map. destruct arg as [a|f].
    + intros Ha. destruct (take_1d_values_total a (data (values self)) VNaN Ha)
        as (r & -> & Hl).
      simp_ok. rewrite Series_new_same_length by congruence. by eexists.
    + intros Hf. destruct na_action_ignore.
      * unfold map_infer_mask.
        destruct (zipR_total (λ v (b : bool), if b then Ok v else f v)
                    (data (values self)) (isnull <$> data (values self))) as [d Hd].
        { intros i a b _ _. by destruct b. }
        rewrite Hd. simp_ok. rewrite Series_new_same_length; [by eexists|].
        simpl. rewrite <-Hwf. eapply zipR_length; [|done]. by rewrite length_fmap.
      * unfold map_infer.
        destruct (mapR_total f (data (values self))) as [d Hd].
        { by apply Forall_forall. }
        rewrite Hd. simp_ok. rewrite Series_new_same_length; [by eexists|].
        simpl. rewrite <-Hwf. by eapply mapR_length.
Qed.

Lemma apply_wf (self : Series) (f : callable) :
  wf self →
  (∀ r, apply self f = Ok r → wf r ∧ index r = index self) ∧
  ((∀ v, is_ok (on_value f v) = true) → ∃ r, apply self f = Ok r).
Proof.
  intros Hwf. unfold apply.
  destruct (on_series f self ≫= _) as [r0|e] eqn:E.
  - split; [|by eauto]. intros r [= <-]. inv_ok.
    destruct x as [arr|]; [|done]. inv_new. subst. by split.
  - split.
    + intros r H. inv_ok. inv_new. subst. by split.
    + intros Hf. unfold map_infer.
      destruct (mapR_total (on_value f) (data (values self))) as [d Hd].
      { by apply Forall_forall. }
      rewrite Hd. simp_ok. rewrite Series_new_same_length; [by eexists|].
      simpl. rewrite <-Hwf. by eapply mapR_length.
Qed.

Lemma combine_first_total (A B : Series) :
  wf A → wf B →
  ∃ r, combine_first A B = Ok r ∧ wf r ∧
       index r = Index_union (index A) (index B).
Proof.
  intros HA HB. set (U := Index_union (index A) (index B)).
  pose proof (NoDup_Index_union (index A) (index B)) as Hnd. fold U in Hnd.
  destruct (reindex_values A U false HA Hnd) as (ra & Hra & _ & _ & _ & Hda).
  destruct (reindex_values B U false HB Hnd) as (rb & Hrb & _ & _ & _ & Hdb).
  unfold combine_first. fold U. rewrite Hra, Hrb. simpl.
  unfold isnull_arr. rewrite Hda, Hdb, np_where_fmap.
  rewrite Series_new_same_length by (simpl; by rewrite length_fmap).
  eexists. split; [done|]. unfold wf. simpl. by rewrite length_fmap.
Qed.

Lemma mask_sum_positions_absent (idx : Index) l :
  l ∉ idx → mask_sum (positions_of idx l) = 0.
Proof.
  induction idx as [|x idx IH]; [done|]. intros Hn.
  apply not_elem_of_cons in Hn as [Hne Hn]. unfold positions_of in *.
  rewrite fmap_cons, mask_sum_cons, IH by done.
  by rewrite bool_decide_eq_false_2 by done.
Qed.

Lemma mask_sum_positions_NoDup (idx : Index) l :
  NoDup idx → mask_sum (positions_of idx l) ≤ 1.
Proof.
  induction 1 as [|x idx Hx Hnd IH]; [vm_compute; lia|]. unfold positions_of in *.
  rewrite fmap_cons, mask_sum_cons. case_bool_decide as E; [|lia].
  subst x. pose proof (mask_sum_positions_absent idx l Hx) as H0.
  unfold positions_of in H0. lia.
Qed.

Lemma label_of_key_of_label l : label_of (key_of_label l) = l.
Proof. by destruct l. Qed.

Lemma get_NoDup (s : Series) l fill :
  wf s → NoDup (index s) → ∃ v, get s (key_of_label l) fill = Ok (ItemValue v).
Proof.
  intros Hwf Hnd. unfold get, Index_get_value. rewrite label_of_key_of_label.
  pose proof (mask_sum_positions_NoDup (index s) l Hnd) as Hle.
  pose proof (bool_select_length (positions_of (index s) l) (data (values s))) as Hlen.
  rewrite length_positions_of in Hlen. specialize (Hlen (eq_sym Hwf)).
  destruct (bool_select _ (data (values s))) as [|v [|w vs]]; simpl in *.
  - by eexists.
  - by eexists.
  - lia.
Qed.

Lemma combine_wf (self other : Series) func fill :
  wf self → wf other →
  (∀ r, combine self other func fill = Ok r →
     wf r ∧ index r = Index_union (index self) (index other)) ∧
  (NoDup (index self) → NoDup (index other) →
   (∀ a b, is_ok (func a b ≫= np_store (dtype (values self))) = true) →
   ∃ r, combine self other func fill = Ok r).
Proof.
  intros Hs Ho. split.
  - unfold combine. intros r H. inv_ok. inv_new. subst. by split.
  - intros Hn1 Hn2 Hf. unfold combine.
    match goal with |- context [mapR ?g ?l] => destruct (mapR_total g l) as [d Hd] end.
    { apply Forall_forall. intros l _. simpl.
      destruct (get_NoDup self l fill Hs Hn1) as [a ->].
      destruct (get_NoDup other l fill Ho Hn2) as [b ->]. simpl. apply Hf. }
    rewrite Hd. simp_ok. rewrite Series_new_same_length; [by eexists|].
    simpl. by eapply mapR_length.
Qed.

Lemma arith_method_wf (o : operator) (self other : Series) :
  wf self → wf other →
  (∀ r, _arith_method o self (OSeries other) = Ok r → ret_wf r) ∧
  ((∀ a b, is_ok (op_scalar o a b) = true) →
   ∃ r, _arith_method o self (OSeries other) = Ok (RetSeries r) ∧ wf r).
Proof.
  intros Hs Ho.
  assert (∀ r, _arith_method o self (OSeries other) = Ok r → ret_wf r) as Hwf.
  { unfold _arith_method, arith_equal_index, arith_join. intros r H.
    destruct (Index_equals _ _).
    - inv_ok. subst. simpl. by eapply Series_new_wf.
    - destruct (Index_join _ _ _) as [[? ?] ?]. inv_ok. subst. simpl.
      by eapply Series_new_wf. }
  split; [done|]. intros Htot.
  assert (∀ x y nm idx, length (data x) = length (data y) →
            length (data x) = length idx →
            ∃ r, (arr ← arith_na_op o x (RArray y); Series_new arr idx nm) = Ok r) as Hna.
  { intros x y nm idx Hl Hi. rewrite arith_na_op_same_length by done.
    destruct (zipR_total (op_scalar o) (data x) (data y)) as [d Hd]; [by intros|].
    rewrite Hd. simpl. rewrite Series_new_same_length; [by eexists|].
    simpl. by rewrite (zipR_length _ _ _ _ Hl Hd). }
  assert (∃ r, _arith_method o self (OSeries other) = Ok (RetSeries r)) as [r Hr].
  { unfold _arith_method. destruct (Index_equals _ _) eqn:Heq.
    - apply bool_decide_eq_true in Heq. unfold arith_equal_index.
      destruct (Hna (values self) (values other) (_maybe_match_name self other)
                  (index self)) as [r ->]; [unfold wf in *; congruence|done|].
      by eexists.
    - unfold arith_join, Index_join.
      set (J := Index_union (index self) (index other)).
      assert (∀ s, wf s →
        ∃ v, match (if Index_equals J (index s) then None
                    else Some (get_indexer (index s) J)) with
             | Some ix => take_1d (values s) ix VNaN
             | None => Ok (values s)
             end = Ok v ∧ length (data v) = length J) as Hside.
      { intros s Hw. unfold Index_equals. case_bool_decide as E.
        - exists (values s). split; [done|]. by rewrite E.
        - rewrite take_1d_get_indexer by done. eexists. split; [done|].
          simpl. by rewrite length_fmap. }
      destruct (Hside self Hs) as (lv & -> & Hl).
      destruct (Hside other Ho) as (rv & -> & Hrl). simp_ok.
      destruct (Hna lv rv (_maybe_match_name self other) J) as [r ->];
        [congruence|done|]. by eexists. }
  exists r. split; [done|]. by apply (Hwf _ Hr).
Qed.

Lemma comp_bool_method_wf (o : operator) (self other : Series) :
  wf self → wf other →
  (∀ r, _comp_method o self (OSeries other) = Ok r → ret_wf r) ∧
  (∀ r, _bool_method o self (OSeries other) = Ok r → ret_wf r) ∧
  (length (index self) = length (index other) →
   (∀ a b, is_ok (op_scalar o a b) = true) →
   (∃ r, _comp_method o self (OSeries other) = Ok (RetSeries r) ∧ wf r) ∧
   (∃ r, _bool_method o self (OSeries other) = Ok (RetSeries r) ∧ wf r)).
Proof.
  intros Hs Ho.
  assert (∀ r, _comp_method o self (OSeries other) = Ok r → ret_wf r) as Hc.
  { unfold _comp_method. intros r H. inv_ok. subst. simpl. by eapply Series_new_wf. }
  assert (∀ r, _bool_method o self (OSeries other) = Ok r → ret_wf r) as Hb.
  { unfold _bool_method. intros r H. inv_ok. subst. simpl. by eapply Series_new_wf. }
  split; [done|]. split; [done|]. intros Hlen Htot.
  assert (length (data (values self)) = length (data (values other))) as Hl.
  { unfold wf in *. congruence. }
  assert (∃ d, np_op o (values self) (values other) = Ok d ∧
               length (data d) = length (index self)) as (d1 & Hd1 & Hl1).
  { rewrite np_op_same_length by done.
    destruct (zipR_total (op_scalar o) (data (values self)) (data (values other)))
      as [d Hd]; [by intros|].
    rewrite Hd. simpl. eexists. split; [done|]. simpl.
    by rewrite (zipR_length _ _ _ _ Hl Hd). }
  assert (∃ d, masked_loop o (data (values self)) (RArray (values other)) = Ok d ∧
               length (data d) = length (index self)) as (d2 & Hd2 & Hl2).
  { unfold masked_loop. rewrite decide_True by done.
    destruct (zipR_total (masked_elt o) (data (values self)) (data (values other)))
      as [d Hd].
    { intros i a b _ _. unfold masked_elt. by destruct (_ && _). }
    rewrite Hd. simpl. eexists. split; [done|]. simpl.
    by rewrite (zipR_length _ _ _ _ Hl Hd). }
  split.
  - assert (∃ r, _comp_method o self (OSeries other) = Ok (RetSeries r)) as [r Hr].
    { unfold _comp_method, comp_na_op, apply_op. destruct (decide _).
      - rewrite Hd2. simp_ok. rewrite Series_new_same_length by done. by eexists.
      - rewrite Hd1. simp_ok. rewrite Series_new_same_length by done. by eexists. }
    exists r. split; [done|]. by apply (Hc _ Hr).
  - assert (∃ r, _bool_method o self (OSeries other) = Ok (RetSeries r)) as [r Hr].
    { unfold _bool_method, bool_na_op, apply_op. rewrite Hd1. simpl.
      rewrite Series_new_same_length by done. by eexists. }
    exists r. split; [done|]. by apply (Hb _ Hr).
Qed.

Section invariant.
Variable argsort_default : list value → list nat.
Hypothesis argsort_default_valid : argsort_valid argsort_default.

(** C2: every operation that produces a new Series (the arithmetic,
    comparison and logical operators, reindex, align, fillna, order,
    sort_index, shift, take, combine, combine_first, dropna, map, apply)
    returns a Series whose value buffer and label index have equal length,
    for all input Series; and the operation does return one, the lengths
    it computed being equal, wherever the element operation it is given
    does not fail and, for [combine], yields values that the receiver's
    element kind can store. *)
Theorem results_have_equal_lengths (self other : Series) :
  wf self → wf other →
  (∀ o r, _arith_method o self (OSeries other) = Ok (RetSeries r) → wf r) ∧
  (∀ o r, _comp_method o self (OSeries other) = Ok (RetSeries r) → wf r) ∧
  (∀ o r, _bool_method o self (OSeries other) = Ok (RetSeries r) → wf r) ∧
  (∀ o, (∀ a b, is_ok (op_scalar o a b) = true) →
     (∃ r, _arith_method o self (OSeries other) = Ok (RetSeries r) ∧ wf r) ∧
     (length (index self) = length (index other) →
      (∃ r, _comp_method o self (OSeries other) = Ok (RetSeries r) ∧ wf r) ∧
      (∃ r, _bool_method o self (OSeries other) = Ok (RetSeries r) ∧ wf r))) ∧
  (∀ target fill_value c,
     ∃ r, reindex self (Some target) fill_value c = Ok r ∧
          wf (the self r) ∧ index (the self r) = target) ∧
  (∀ join c fill_value method limit,
     ∃ l r, align self other join c fill_value method limit = Ok (l, r) ∧
            wf (the self l) ∧ wf (the other r) ∧
            index (the self l) = index (the other r)) ∧
  (∀ v m inplace limit,
     (∀ s' r, fillna self v m inplace limit = Ok (s', r) → wf s' ∧ wf (the s' r)) ∧
     (is_Some v ∨ is_Some m → ∃ s' r, fillna self v m inplace limit = Ok (s', r))) ∧
  (∀ na_last ascending,
     ∃ r, order argsort_default self na_last ascending = Ok r ∧ wf r) ∧
  (∀ ascending, ∃ r, sort_index self ascending = Ok r ∧ wf r) ∧
  (∀ periods, ∃ r, shift self periods = Ok r ∧ wf r) ∧
  (∀ indices,
     (∀ r, take self indices = Ok r → wf r) ∧
     (Forall (λ i, - Z.of_nat (length (index self)) ≤ i
                   < Z.of_nat (length (index self)))%Z indices →
      ∃ r, take self indices = Ok r)) ∧
  (∀ func fill_value,
     (∀ r, combine self other func fill_value = Ok r → wf r) ∧
     (NoDup (index self) → NoDup (index other) →
      (∀ a b, is_ok (func a b ≫= np_store (dtype (values self))) = true) →
      ∃ r, combine self other func fill_value = Ok r)) ∧
  (∃ r, combine_first self other = Ok r ∧ wf r) ∧
  (∃ r, dropna self = Ok (ItemSeries r) ∧ wf r) ∧
  (∀ arg na_action_ignore,
     (∀ r, map self arg na_action_ignore = Ok r → wf r) ∧
     (match arg with
      | MapSeries a => wf a
      | MapFunction f => ∀ v, is_ok (f v) = true
      end → ∃ r, map self arg na_action_ignore = Ok r)) ∧
  (∀ f,
     (∀ r, apply self f = Ok r → wf r) ∧
     ((∀ v, is_ok (on_value f v) = true) → ∃ r, apply self f = Ok r)).
Proof.
  intros Hs Ho. split_and!.
  - intros o r H. by apply (proj1 (arith_method_wf o self other Hs Ho) _ H).
  - intros o r H. by apply (proj1 (comp_bool_method_wf o self other Hs Ho) _ H).
  - intros o r H.
    by apply (proj1 (proj2 (comp_bool_method_wf o self other Hs Ho)) _ H).
  - intros o Htot. split.
    + by apply (arith_method_wf o self other Hs Ho).
    + intros Hl. by apply (comp_bool_method_wf o self other Hs Ho).
  - intros target fill_value c.
    destruct (reindex_total self target fill_value c Hs) as (r & ? & ? & ? & _).
    by exists r.
  - intros join c fill_value method limit.
    destruct (align_total self other join c fill_value method limit Hs Ho)
      as (l & r & ? & ? & ? & Hl & Hr).
    exists l, r. split_and!; try done. by rewrite Hl, Hr.
  - intros v m inplace limit.
    destruct (fillna_wf self v m inplace limit Hs) as [H1 H2]. split; [|done].
    intros s' r H. by destruct (H1 s' r H) as (? & ? & _).
  - intros na_last ascending.
    destruct (order_total argsort_default argsort_default_valid self na_last ascending Hs)
      as (r & ? & ? & _).
    by exists r.
  - intros ascending. by apply sort_index_total.
  - intros periods. destruct (shift_total self periods Hs) as (r & ? & ? & _).
    by exists r.
  - intros indices. by apply take_wf.
  - intros func fill_value.
    destruct (combine_wf self other func fill_value Hs Ho) as [H1 H2].
    split; [|done]. intros r H. by destruct (H1 r H).
  - destruct (combine_first_total self other Hs Ho) as (r & ? & ? & _). by exists r.
  - destruct (dropna_total self Hs) as (r & ? & ? & _). by exists r.
  - intros arg na_action_ignore.
    destruct (map_wf self arg na_action_ignore Hs) as [H1 H2]. split; [|done].
    intros r H. by destruct (H1 r H).
  - intros f. destruct (apply_wf self f Hs) as [H1 H2]. split; [|done].
    intros r H. by destruct (H1 r H).
Qed.
End invariant.

(** ** The theorems at the scenarios of the specification *)

Example abc_of_dict :
  Series_of_dict Integer
    [(LStr "a", VNum 3); (LStr "b", VNum 1); (LStr "c", VNum 2)] None = Ok abc.
Proof. reflexivity. Qed.

Example xy_of_dict :
  Series_of_dict Floating [(LStr "y", VNaN); (LStr "x", VNum 1)] None = Ok xy_A ∧
  Series_of_dict Floating [(LStr "x", VNaN); (LStr "y", VNum 2)] None = Ok xy_B.
Proof. split; reflexivity. Qed.

Lemma eq_scalar_total a b : is_ok (eq_scalar a b) = true.
Proof. destruct a, b; reflexivity. Defined.

Lemma NoDup_xy : NoDup [LStr "x"; LStr "y"].
Proof.
  apply NoDup_cons. split.
  - intros H. apply list_elem_of_singleton in H. discriminate H.
  - apply NoDup_singleton.
Defined.

Lemma binop_fill_value_witness :
  wf xy_A ∧ wf xy_B ∧ isnull (VNum 0) = false ∧
  _binop xy_A xy_B (np_op operator_add) (Some (VNum 0)) = Ok xy_sum ∧
  wf xy_sum.
Proof.
  destruct (binop_fill_value xy_A xy_B operator_add (VNum 0) eq_refl eq_refl eq_refl)
    as (this & other & _ & _ & _ & _ & Hres & _ & Hex).
  destruct (Hres xy_sum Hex) as (_ & Hwf & _).
  split_and!; [reflexivity..|exact Hex|exact Hwf].
Defined.

Lemma results_have_equal_lengths_witness :
  argsort_valid argsort_mergesort ∧ wf abc ∧ wf xy_A ∧
  (∃ r, order argsort_mergesort abc true true = Ok r ∧ wf r) ∧
  (∃ r, _arith_method operator_eq abc (OSeries xy_A) = Ok (RetSeries r) ∧ wf r) ∧
  (∃ r, combine_first abc xy_A = Ok r ∧ wf r).
Proof.
  destruct (results_have_equal_lengths argsort_mergesort argsort_mergesort_valid
              abc xy_A eq_refl eq_refl)
    as (_ & _ & _ & Hop & _ & _ & _ & Horder & _ & _ & _ & _ & Hcf & _).
  split_and!.
  - exact argsort_mergesort_valid.
  - reflexivity.
  - reflexivity.
  - exact (Horder true true).
  - exact (proj1 (Hop operator_eq eq_scalar_total)).
  - exact Hcf.
Defined.


Lemma binary_result_name_witness :
  _binop xy_A xy_B (np_op operator_add) (Some (VNum 0)) = Ok xy_sum ∧
  name xy_sum = (if decide (name xy_A = name xy_B) then name xy_A else None).
Proof.
  destruct (binary_result_name operator_add xy_A xy_B) as (_ & _ & _ & Hb & _).
  split; [reflexivity|].
  exact (Hb (np_op operator_add) (Some (VNum 0)) xy_sum eq_refl).
Defined.

Lemma combine_first_union_witness :
  wf xy_A ∧ wf xy_B ∧
  ∃ r, combine_first xy_A xy_B = Ok r ∧
       index r = Index_union (index xy_A) (index xy_B).
Proof.
  destruct (combine_first_union xy_A xy_B eq_refl eq_refl)
    as (r & ra & rb & _ & _ & Hr & Hi & _).
  split_and!; [reflexivity|reflexivity|]. exists r. split; [exact Hr|exact Hi].
Defined.

(** C6 (as stated, refuted): on a buffer of object kind [order] does not run
    the stable sort it asks for; with a default sort that puts equal values
    in another order, the two equal values of [obj_ties] come out with
    their labels exchanged. *)
Lemma order_object_ties_exchanged :
  argsort_valid argsort_ties_reversed ∧ wf obj_ties ∧
  dtype (values obj_ties) = Object ∧
  order argsort_ties_reversed obj_ties true true
  = Ok (mk_Series (mk_ndarray Object [VNum 1; VNum 1])
                  [LStr "b"; LStr "a"] None).
Proof.
  split_and!; [exact argsort_ties_reversed_valid|reflexivity..].
Qed.

Lemma order_sorted_stable_permutation_witness :
  argsort_valid argsort_mergesort ∧ wf abc ∧
  ∃ r, order argsort_mergesort abc true true = Ok r ∧ name r = name abc.
Proof.
  destruct (order_sorted_stable_permutation argsort_mergesort argsort_mergesort_valid
              abc eq_refl)
    as (sidx & r & _ & Hr & _ & _ & _ & Hn & _).
  split_and!; [exact argsort_mergesort_valid|reflexivity|].
  exists r. split; [exact Hr|exact Hn].
Defined.

Lemma reindex_equal_index_witness :
  ({[0 := abc]} : store) !! 0 = Some abc ∧ wf abc ∧
  Index_equals (index abc) (index abc) = true ∧
  obj_reindex {[0 := abc]} 0 (Some (index abc)) VNaN false = Ok ({[0 := abc]}, 0).
Proof.
  assert (({[0 := abc]} : store) !! 0 = Some abc) as Hl by apply lookup_singleton_eq.
  destruct (reindex_equal_index {[0 := abc]} 0 abc (index abc) VNaN Hl eq_refl eq_refl)
    as (_ & Hobj & _).
  split_and!; [exact Hl|reflexivity|reflexivity|exact Hobj].
Defined.


Lemma getitem_integer_sequence_witness :
  wf abc ∧ forallb is_KInt [KInt 0; KInt 2] = true ∧
  inferred_type (index abc) ≠ inf_integer ∧
  __getitem__ abc (KeyList [KInt 0; KInt 2])
  = _get_values abc (KeyList [KInt 0; KInt 2]).
Proof.
  assert (inferred_type (index abc) ≠ inf_integer) as Hn by discriminate.
  destruct (getitem_integer_sequence abc [KInt 0; KInt 2] eq_refl eq_refl)
    as (_ & _ & _ & Hpos).
  split_and!; [reflexivity|reflexivity|exact Hn|exact (proj1 (Hpos Hn))].
Defined.

Lemma set_value_upsert_witness :
  ({[0 := abc]} : store) !! 0 = Some abc ∧ wf abc ∧ (LStr "z" ∉ index abc) ∧
  (∃ loc' r, obj_set_value {[0 := abc]} 0 (LStr "z") (VNum 9)
             = Ok (<[loc' := r]> {[0 := abc]}, loc') ∧
             index r = index abc ++ [LStr "z"]) ∧
  LStr "b" ∈ index abc ∧
  np_store (dtype (values abc)) (VNum 9) = Ok (VNum 9) ∧
  ∃ s', obj_set_value {[0 := abc]} 0 (LStr "b") (VNum 9)
        = Ok (<[0 := s']> {[0 := abc]}, 0) ∧
        data (values s') !! 1 = Some (VNum 9).
Proof.
  assert (({[0 := abc]} : store) !! 0 = Some abc) as Hl by apply lookup_singleton_eq.
  assert (LStr "b" ∈ index abc) as Hb by (right; left).
  destruct (set_value_upsert {[0 := abc]} 0 abc (LStr "b") (VNum 9) Hl eq_refl)
    as (_ & Hold & _).
  destruct (proj1 (Hold Hb) (VNum 9) eq_refl) as (s' & Hs' & _ & _ & _ & _ & Hd).
  specialize (Hd 1 (LStr "b") eq_refl). rewrite decide_True in Hd by done.
  assert (LStr "z" ∉ index abc) as Habs.
  { intros H. repeat (apply elem_of_cons in H as [H|H]; [discriminate H|]).
    by apply not_elem_of_nil in H. }
  destruct (set_value_upsert {[0 := abc]} 0 abc (LStr "z") (VNum 9) Hl eq_refl)
    as (Hnew & _).
  destruct (Hnew Habs) as (loc' & r & Hr & _ & _ & Hi & _).
  split_and!; [exact Hl|reflexivity|exact Habs| |exact Hb|reflexivity|].
  - exists loc', r. split; [exact Hr|exact Hi].
  - exists s'. split; [exact Hs'|exact Hd].
Defined.

(** * Further properties of the methods *)

(** ** Shifting *)

Lemma slice_bound_neg n d (p : Z) :
  (p < 0)%Z → slice_bound n d (Some p) = n - Z.to_nat (- p).
Proof. intros Hp. unfold slice_bound. rewrite decide_True by done. lia. Qed.

Lemma slice_bound_None n d : slice_bound n d None = d.
Proof. done. Qed.

Lemma slice_bound_pos n d (p : Z) :
  (0 ≤ p)%Z → slice_bound n d (Some p) = Nat.min n (Z.to_nat p).
Proof. intros Hp. unfold slice_bound. rewrite decide_False by lia. done. Qed.

Lemma getslice_to_neg {A} (l : list A) (p : Z) :
  (0 < p)%Z → getslice l None (Some (- p)%Z) = firstn (length l - Z.to_nat p) l.
Proof.
  intros Hp. unfold getslice, slice_hi, slice_lo.
  rewrite slice_bound_neg by lia. rewrite slice_bound_None, Z.opp_involutive.
  rewrite drop_0. f_equal. lia.
Qed.

Lemma getslice_from {A} (l : list A) (p : Z) :
  (0 ≤ p)%Z → getslice l (Some p) None = skipn (Z.to_nat p) l.
Proof.
  intros Hp. unfold getslice, slice_hi, slice_lo.
  rewrite slice_bound_pos by lia. rewrite slice_bound_None.
  destruct (decide (Z.to_nat p ≤ length l)).
  - replace (length l `min` Z.to_nat p) with (Z.to_nat p) by lia.
    apply firstn_all2. rewrite length_drop. lia.
  - replace (length l `min` Z.to_nat p) with (length l) by lia.
    rewrite !drop_ge by lia. by rewrite take_nil.
Qed.

Lemma setslice_from {A} (l src : list A) (p : Z) :
  (0 ≤ p)%Z → length src = length l - Z.to_nat p →
  setslice l (Some p) None src = Ok (firstn (Z.to_nat p) l ++ src).
Proof.
  intros Hp Hlen. unfold setslice, slice_hi, slice_lo.
  rewrite slice_bound_pos by lia. rewrite slice_bound_None.
  rewrite decide_True by lia.
  rewrite (drop_ge l) by lia. rewrite app_nil_r.
  destruct (decide (Z.to_nat p ≤ length l)).
  - by replace (length l `min` Z.to_nat p) with (Z.to_nat p) by lia.
  - replace (length l `min` Z.to_nat p) with (length l) by lia.
    by rewrite !firstn_all2 by lia.
Qed.

Lemma setslice_to_neg {A} (l src : list A) (p : Z) :
  (p < 0)%Z → length src = length l - Z.to_nat (- p) →
  setslice l None (Some p) src = Ok (src ++ skipn (length l - Z.to_nat (- p)) l).
Proof.
  intros Hp Hlen. unfold setslice, slice_hi, slice_lo.
  rewrite slice_bound_neg by lia. rewrite slice_bound_None.
  rewrite decide_True by lia. simpl. do 3 f_equal.
Qed.

Lemma setslice_scalar_to {A} (l : list A) (p : Z) x :
  (0 ≤ p)%Z →
  setslice_scalar l None (Some p) x
  = replicate (length l `min` Z.to_nat p) x ++ skipn (Z.to_nat p) l.
Proof.
  intros Hp. unfold setslice_scalar, slice_hi, slice_lo.
  rewrite slice_bound_pos by lia. rewrite slice_bound_None. simpl.
  rewrite Nat.sub_0_r. f_equal.
  destruct (decide (Z.to_nat p ≤ length l)).
  - by replace (length l `min` Z.to_nat p) with (Z.to_nat p) by lia.
  - replace (length l `min` Z.to_nat p) with (length l) by lia.
    by rewrite !drop_ge by lia.
Qed.

Lemma setslice_scalar_from_neg {A} (l : list A) (p : Z) x :
  (p < 0)%Z →
  setslice_scalar l (Some p) None x
  = firstn (length l - Z.to_nat (- p)) l
      ++ replicate (length l `min` Z.to_nat (- p)) x.
Proof.
  intros Hp. unfold setslice_scalar, slice_hi, slice_lo.
  rewrite slice_bound_neg by lia. rewrite slice_bound_None.
  replace ((length l - Z.to_nat (- p)) `max` length l) with (length l) by lia.
  rewrite drop_all, app_nil_r. do 2 f_equal. lia.
Qed.

(** X1: [shift] by a non-zero number of periods keeps the labels, the name
    and the length; it moves every value by [periods] positions, drops the
    values pushed past the end and writes NaN into the vacated positions (all
    of them when [periods] reaches the length); the buffer is upcast so that
    it can hold NaN. *)
Theorem shift_moves_values (s : Series) (periods : Z) :
  wf s → periods ≠ 0%Z →
  let d := data (values s) in
  let k := Nat.min (Z.to_nat (Z.abs periods)) (length d) in
  shift s periods
  = Ok (mk_Series
          (mk_ndarray (_maybe_upcast_dtype (dtype (values s)))
             (if decide (0 < periods)%Z
              then replicate k VNaN ++ firstn (length d - k) d
              else skipn k d ++ replicate k VNaN))
          (index s) (name s)).
Proof.
  intros Hwf Hp d k. unfold shift. rewrite decide_False by done.
  unfold np_empty. cbn [data dtype]. fold d.
  set (n := length d).
  assert (length (index s) = n) as Hn by (symmetry; exact Hwf).
  destruct (decide (periods > 0)%Z) as [Hpos|Hneg].
  - rewrite (decide_True (P := (0 < periods)%Z)) by lia.
    rewrite getslice_to_neg by lia. fold n.
    rewrite setslice_from;
      [|lia|rewrite length_take, length_replicate; fold n; lia].
    simp_ok. rewrite setslice_scalar_to by lia.
    rewrite length_app, length_take, length_take, length_replicate. fold n.
    rewrite take_replicate.
    assert (k = Z.to_nat periods `min` n) as Hk by (unfold k; fold n; lia).
    rewrite <-Hk.
    replace ((k + (n - Z.to_nat periods) `min` n) `min` Z.to_nat periods)
      with k by lia.
    assert (drop (Z.to_nat periods)
              (replicate k (VNum 0) ++ firstn (n - Z.to_nat periods) d)
            = firstn (n - k) d) as ->.
    { destruct (decide (Z.to_nat periods ≤ n)).
      - replace (Z.to_nat periods) with k by lia.
        by rewrite drop_app_length' by (by rewrite length_replicate).
      - rewrite drop_ge
          by (rewrite length_app, length_replicate, length_take; fold n; lia).
        replace (n - k) with 0 by lia. done. }
    rewrite Series_new_same_length; [done|].
    cbn [data]. rewrite length_app, length_replicate, length_take. fold n. lia.
  - rewrite (decide_False (P := (0 < periods)%Z)) by lia.
    rewrite getslice_from by lia.
    rewrite setslice_to_neg;
      [|lia|rewrite length_drop, length_replicate; fold n; lia].
    simp_ok. rewrite setslice_scalar_from_neg by lia.
    rewrite length_app, !length_drop, length_replicate. fold n.
    assert (k = Z.to_nat (- periods) `min` n) as Hk by (unfold k; fold n; lia).
    replace (n - Z.to_nat (- periods)) with (n - k) by lia.
    rewrite take_app_length' by (rewrite length_drop; fold n; lia).
    replace ((n - k + (n - (n - k))) `min` Z.to_nat (- periods))
      with k by lia.
    replace (drop (Z.to_nat (- periods)) d) with (drop k d).
    2:{ destruct (decide (Z.to_nat (- periods) ≤ n)); [f_equal; lia|].
        rewrite !drop_ge; [done|fold n; lia|fold n; lia]. }
    rewrite Series_new_same_length; [done|].
    cbn [data]. rewrite length_app, length_replicate, length_drop. fold n. lia.
Qed.

Lemma shift_moves_values_witness :
  wf int123 ∧ 1%Z ≠ 0%Z ∧
  shift int123 1
  = Ok (mk_Series (mk_ndarray Floating [VNaN; VNum 1; VNum 2])
                  [LInt 0; LInt 1; LInt 2] None).
Proof.
  assert (1%Z ≠ 0%Z) as H by discriminate.
  split_and!; [reflexivity|exact H|].
  exact (shift_moves_values int123 1 eq_refl H).
Defined.

(** ** Filling with a value *)

Lemma putmask_isnull l v :
  putmask l (isnull <$> l) v = (λ x, if isnull x then v else x) <$> l.
Proof. induction l as [|x l IH]; [done|]. unfold putmask in *. simpl. by f_equal. Qed.

Lemma mask_sum_all_true m : Forall (λ b, b = true) m → mask_sum m = length m.
Proof.
  induction 1 as [|b m Hb _ IH]; [done|].
  rewrite mask_sum_cons, IH, Hb. done.
Qed.

(** X2: on a Series whose kind can hold missing values, [fillna] with a
    value replaces exactly the missing elements by that value and keeps
    every other element, the labels and the name; the fill method and the
    limit have no effect when a value is given.  Without [inplace] the
    receiver is left as it was and a new Series is returned; with [inplace]
    the receiver itself is filled and returned.  A non-missing fill value
    leaves no missing element, and filling a second time changes nothing. *)
Theorem fillna_value_fills_missing (s : Series) (v : value)
    (m : option fill_method) (limit : option nat) :
  wf s → _can_hold_na s = true →
  let filled :=
    with_data s ((λ x, if isnull x then v else x) <$> data (values s)) in
  fillna s (Some v) m false limit = Ok (s, New filled) ∧
  fillna s (Some v) m true limit = Ok (filled, Self) ∧
  index filled = index s ∧ name filled = name s ∧
  (isnull v = false → count filled = length (index s)) ∧
  fillna filled (Some v) m false limit = Ok (filled, New filled).
Proof.
  intros Hwf Hcan filled.
  assert (∀ t, wf t → _can_hold_na t = true →
            fillna t (Some v) m false limit
            = Ok (t, New (with_data t ((λ x, if isnull x then v else x)
                                         <$> data (values t))))) as Hcopy.
  { intros t Ht Hc. unfold fillna. rewrite Hc. cbn [negb].
    rewrite copy_Ok by done. simp_ok.
    unfold isnull_arr. by rewrite putmask_isnull. }
  assert (wf filled) as Hwf'.
  { unfold wf, filled, with_data. cbn [values data index]. by rewrite length_fmap. }
  split_and!.
  - by apply Hcopy.
  - unfold fillna. rewrite Hcan. cbn [negb].
    unfold isnull_arr. by rewrite putmask_isnull.
  - done.
  - done.
  - intros Hv. unfold count, notnull_arr, filled, with_data. cbn [values data].
    rewrite mask_sum_all_true.
    + rewrite !length_fmap. exact Hwf.
    + rewrite <-list_fmap_compose. apply Forall_fmap, Forall_true.
      intros x. unfold notnull. simpl. destruct (isnull x) eqn:E; by rewrite ?Hv, ?E.
  - rewrite Hcopy; [|done|exact Hcan]. do 3 f_equal.
    unfold filled, with_data. cbn [values data dtype index name]. f_equal. f_equal.
    rewrite <-list_fmap_compose. apply list_fmap_ext. intros _ x _. simpl.
    destruct (isnull x) eqn:E; [|by rewrite E]. by destruct (isnull v).
Qed.

Lemma fillna_value_fills_missing_witness :
  wf xy_A ∧ _can_hold_na xy_A = true ∧
  fillna xy_A (Some (VNum 0)) None false None
  = Ok (xy_A, New (mk_Series (mk_ndarray Floating [VNum 1; VNum 0])
                             [LStr "x"; LStr "y"] None)).
Proof.
  split_and!; [reflexivity|reflexivity|].
  exact (proj1 (fillna_value_fills_missing xy_A (VNum 0) None None eq_refl eq_refl)).
Defined.

(** ** Selection by a boolean mask *)

Lemma getitem_mask_eq (s : Series) (m : list bool) :
  wf s → length m = length (index s) →
  __getitem__ s (KeyMask m)
  = Ok (ItemSeries
          (mk_Series (mk_ndarray (dtype (values s)) (bool_select m (data (values s))))
                     (bool_select m (index s)) (name s))).
Proof.
  intros Hwf Hm. unfold __getitem__. simpl.
  unfold _get_values, np_index, np_getmask.
  rewrite !decide_True by congruence. simp_ok.
  rewrite Series_new_same_length; [done|].
  simpl. rewrite !bool_select_length by congruence. done.
Qed.

Lemma bool_select_zip {A B} (m : list bool) (x : list A) (y : list B) :
  zip (bool_select m x) (bool_select m y) = bool_select m (zip x y).
Proof.
  revert x y; induction m as [|b m IH]; intros [|a x] [|c y]; simpl; try done.
  - destruct b; simpl; [done|by destruct (bool_select m x)].
  - destruct b; simpl; by rewrite IH.
Qed.

Lemma fmap_KBool_bool ks :
  forallb is_KBool (KBool <$> ks) = true ∧ key_bool <$> (KBool <$> ks) = ks.
Proof.
  induction ks as [|b ks [IH1 IH2]]; [done|]. split.
  - exact IH1.
  - rewrite !fmap_cons. f_equal. exact IH2.
Qed.

(** X3: subscripting with a boolean array as long as the Series returns a
    new Series holding exactly the label-value pairs at the positions where
    the mask is true, in their order, with the name and the element kind
    kept; a non-empty Python list of booleans is read as the same mask; a
    mask of any other length is an IndexError. *)
Theorem getitem_boolean_mask (s : Series) (m : list bool) :
  wf s →
  (length m = length (index s) →
   ∃ r, __getitem__ s (KeyMask m) = Ok (ItemSeries r) ∧
        zip (index r) (data (values r))
        = bool_select m (zip (index s) (data (values s))) ∧
        name r = name s ∧ dtype (values r) = dtype (values s) ∧ wf r ∧
        length (index r) = mask_sum m ∧
        (m ≠ [] → __getitem__ s (KeyList (KBool <$> m)) = Ok (ItemSeries r))) ∧
  (length m ≠ length (index s) → __getitem__ s (KeyMask m) = Raise IndexError).
Proof.
  intros Hwf. split.
  - intros Hm. eexists. split; [by apply getitem_mask_eq|]. cbn [index values data name dtype].
    split_and!; try done.
    + apply bool_select_zip.
    + unfold wf. cbn [index values data]. rewrite !bool_select_length; congruence.
    + by apply bool_select_length.
    + intros Hne. rewrite <-(getitem_mask_eq s m) by done.
      destruct (fmap_KBool_bool m) as [Hb Hk].
      unfold __getitem__. cbn [Index_get_value _is_bool_indexer as_bool_array].
      rewrite Hb. rewrite bool_decide_false by (by destruct m).
      cbn [andb negb]. by rewrite Hk.
  - intros Hm. unfold __getitem__. simpl.
    unfold _get_values, np_index, np_getmask.
    rewrite !decide_False by congruence. done.
Qed.

Lemma getitem_boolean_mask_witness :
  wf abc ∧ length [true; false; true] = length (index abc) ∧
  ∃ r, __getitem__ abc (KeyMask [true; false; true]) = Ok (ItemSeries r) ∧
       zip (index r) (data (values r)) = [(LStr "a", VNum 3); (LStr "c", VNum 2)].
Proof.
  destruct (proj1 (getitem_boolean_mask abc [true; false; true] eq_refl) eq_refl)
    as (r & Hr & Hz & _).
  split_and!; [reflexivity|reflexivity|]. exists r. split; [exact Hr|exact Hz].
Defined.

(** ** Dropping missing values, counting *)

Lemma bool_select_notnull_filter (idx : Index) (d : list value) :
  length idx = length d →
  bool_select (notnull <$> d) (zip idx d)
  = filter (λ p : label * value, isnull p.2 = false) (zip idx d).
Proof.
  revert idx; induction d as [|x d IH]; intros [|l idx] Hlen; try done.
  simpl in *. rewrite filter_cons. simpl. unfold notnull at 1.
  destruct (isnull x) eqn:E; simpl; [apply IH; lia|f_equal; apply IH; lia].
Qed.

Lemma bool_select_all_true {A} (m : list bool) (l : list A) :
  length m = length l → Forall (λ b, b = true) m → bool_select m l = l.
Proof.
  intros Hlen Hm. revert l Hlen. induction Hm as [|b m -> _ IH]; intros [|x l]; try done.
  simpl. intros [= Hlen]. by rewrite IH.
Qed.

Lemma notnull_bool_select (d : list value) :
  Forall (λ b, b = true) (notnull <$> bool_select (notnull <$> d) d).
Proof.
  induction d as [|x d IH]; [constructor|]. simpl.
  destruct (notnull x) eqn:E; [|done]. simpl. constructor; done.
Qed.

(** X4: [dropna] returns a new Series holding exactly the label-value pairs
    whose value is not missing, in their order, with the name and the
    element kind kept; its length is [count()]; dropping again changes
    nothing, and a Series without missing values is returned as an equal
    Series. *)
Theorem dropna_keeps_valid_pairs (s : Series) :
  wf s →
  ∃ r, dropna s = Ok (ItemSeries r) ∧
       zip (index r) (data (values r))
       = filter (λ p : label * value, isnull p.2 = false)
                (zip (index s) (data (values s))) ∧
       name r = name s ∧ dtype (values r) = dtype (values s) ∧
       length (index r) = count s ∧ count r = count s ∧
       dropna r = Ok (ItemSeries r) ∧
       (count s = length (index s) → r = s).
Proof.
  intros Hwf.
  assert (∀ t, wf t →
            dropna t
            = Ok (ItemSeries
                    (mk_Series
                       (mk_ndarray (dtype (values t))
                          (bool_select (notnull_arr (values t)) (data (values t))))
                       (bool_select (notnull_arr (values t)) (index t)) (name t))))
    as Hdrop.
  { intros t Ht. unfold dropna, remove_na. apply getitem_mask_eq; [done|].
    unfold notnull_arr. rewrite length_fmap. exact Ht. }
  assert (length (notnull_arr (values s)) = length (data (values s))) as Hl.
  { unfold notnull_arr. by rewrite length_fmap. }
  eexists. split; [by apply Hdrop|]. cbn [index values data name dtype].
  set (r := mk_Series _ _ _).
  assert (wf r) as Hr.
  { unfold wf, r. cbn [index values data]. rewrite !bool_select_length; congruence. }
  assert (bool_select (notnull_arr (values r)) (data (values r)) = data (values r)
          ∧ bool_select (notnull_arr (values r)) (index r) = index r) as [Hd Hi].
  { split; apply bool_select_all_true;
      try (unfold notnull_arr; rewrite length_fmap; done || (symmetry; exact Hr));
      apply notnull_bool_select. }
  split_and!; try done.
  - rewrite bool_select_zip. unfold notnull_arr.
    apply bool_select_notnull_filter. by symmetry.
  - unfold count. rewrite bool_select_length; congruence.
  - unfold count, r, notnull_arr in *. cbn [values data] in *.
    rewrite mask_sum_all_true.
    + rewrite length_fmap. by apply bool_select_length.
    + apply notnull_bool_select.
  - rewrite Hdrop by done. rewrite Hd, Hi. by destruct r as [[]].
  - intros Hc. unfold count in Hc.
    assert (Forall (λ b, b = true) (notnull_arr (values s))) as Hall.
    { apply Forall_forall. intros b Hb. destruct b; [done|]. exfalso.
      pose proof (mask_sum_compl (notnull_arr (values s))) as Hcompl.
      assert (mask_sum (negb <$> notnull_arr (values s)) = 0) as Hz
        by (rewrite <-Hwf in Hc; lia).
      apply list_elem_of_lookup in Hb as [i Hi'].
      unfold mask_sum in Hz. apply length_zero_iff_nil in Hz.
      assert (true ∈ filter (λ b, b = true) (negb <$> notnull_arr (values s))) as Hin.
      { apply list_elem_of_filter. split; [done|]. apply list_elem_of_fmap.
        exists false. split; [done|]. by eapply list_elem_of_lookup_2. }
      rewrite Hz in Hin. by apply not_elem_of_nil in Hin. }
    unfold r. rewrite !bool_select_all_true by (done || congruence).
    by destruct s as [[]].
Qed.

Lemma dropna_keeps_valid_pairs_witness :
  wf xy_A ∧
  ∃ r, dropna xy_A = Ok (ItemSeries r) ∧
       zip (index r) (data (values r)) = [(LStr "x", VNum 1)].
Proof.
  destruct (dropna_keeps_valid_pairs xy_A eq_refl) as (r & Hr & Hz & _).
  split; [reflexivity|]. exists r. split; [exact Hr|exact Hz].
Defined.

(** ** First and last valid labels *)

Lemma find_first_valid (d : list value) (idx : Index) :
  length idx = length d →
  match list_find (λ b, b = false) (isnull <$> d) with
  | Some (i, _) =>
      (isnull <$> d) !! i = Some false ∧ is_Some (idx !! i) ∧
      idx !! i = head (bool_select (notnull <$> d) idx)
  | None =>
      Forall (λ b, b = true) (isnull <$> d) ∧
      bool_select (notnull <$> d) idx = []
  end.
Proof.
  revert idx; induction d as [|x d IH]; intros [|l idx] Hlen; try done.
  injection Hlen as Hlen. specialize (IH idx Hlen).
  rewrite !fmap_cons. cbn [list_find bool_select].
  change (notnull x) with (negb (isnull x)).
  destruct (isnull x) eqn:E.
  - rewrite decide_False by done. cbn [negb].
    destruct (list_find _ (isnull <$> d)) as [[i b]|]; simpl.
    + exact IH.
    + destruct IH as [IH1 IH2]. split; [by constructor|done].
  - rewrite decide_True by done. simpl. split_and!; [done|by eexists|done].
Qed.

Lemma valid_label_spec (d : list value) (idx : Index) :
  length idx = length d → d ≠ [] →
  (i ← np_argmin (isnull <$> d);
   b ← np_item (isnull <$> d) i;
   if b : bool then Ok None else Some <$> np_item idx i)
  = Ok (head (bool_select (notnull <$> d) idx)).
Proof.
  intros Hlen Hne. pose proof (find_first_valid d idx Hlen) as H.
  unfold np_argmin. destruct (isnull <$> d) as [|b0 m] eqn:Em; [by destruct d|].
  rewrite <-Em in *. simp_ok.
  destruct (list_find _ (isnull <$> d)) as [[i b]|]; simpl.
  - destruct H as (H1 & [l H2] & H3). unfold np_item. rewrite H1. simp_ok.
    rewrite H2. simpl. by rewrite <-H3, H2.
  - destruct H as [H1 H2]. unfold np_item. rewrite Em in *. simpl.
    apply Forall_cons in H1 as [-> _]. simp_ok. by rewrite H2.
Qed.

Lemma bool_select_app {A} (m1 m2 : list bool) (l1 l2 : list A) :
  length m1 = length l1 →
  bool_select (m1 ++ m2) (l1 ++ l2) = bool_select m1 l1 ++ bool_select m2 l2.
Proof.
  revert l1; induction m1 as [|b m1 IH]; intros [|x l1] Hlen; try done.
  injection Hlen as Hlen. simpl. rewrite IH by done. by destruct b.
Qed.

Lemma bool_select_reverse {A} (m : list bool) (l : list A) :
  length m = length l →
  bool_select (reverse m) (reverse l) = reverse (bool_select m l).
Proof.
  revert l; induction m as [|b m IH]; intros [|x l] Hlen; try done.
  injection Hlen as Hlen. rewrite !reverse_cons.
  rewrite bool_select_app by (by rewrite !length_reverse).
  rewrite IH by done. simpl. destruct b; [by rewrite reverse_cons|].
  by rewrite app_nil_r.
Qed.

(** X5: [first_valid_index] and [last_valid_index] return the first and the
    last of the labels whose value is not missing, which are the first and
    the last label of [dropna()]'s result; they return None exactly when
    the Series holds no non-missing value (an empty Series included). *)
Theorem valid_index_first_last (s : Series) :
  wf s →
  let valid := bool_select (notnull_arr (values s)) (index s) in
  first_valid_index s = Ok (head valid) ∧
  last_valid_index s = Ok (last valid) ∧
  (∃ r, dropna s = Ok (ItemSeries r) ∧ index r = valid) ∧
  length valid = count s ∧
  (first_valid_index s = Ok None ↔ count s = 0) ∧
  (last_valid_index s = Ok None ↔ count s = 0).
Proof.
  intros Hwf valid.
  assert (length valid = count s) as Hcount.
  { unfold valid, count. apply bool_select_length.
    unfold notnull_arr. rewrite length_fmap. exact Hwf. }
  assert (first_valid_index s = Ok (head valid)) as Hfirst.
  { unfold first_valid_index. destruct (decide _) as [Hz|Hnz].
    - apply length_zero_iff_nil in Hz. unfold valid, notnull_arr. by rewrite Hz.
    - unfold isnull_arr. apply valid_label_spec; [by symmetry|].
      intros Hd. by rewrite Hd in Hnz. }
  assert (last_valid_index s = Ok (last valid)) as Hlast.
  { unfold last_valid_index. destruct (decide _) as [Hz|Hnz].
    - apply length_zero_iff_nil in Hz. unfold valid, notnull_arr. by rewrite Hz.
    - set (d := data (values s)) in *.
      assert (length (index s) = length d) as Hlen by (symmetry; exact Hwf).
      pose proof (valid_label_spec (reverse d) (reverse (index s))) as Hspec.
      rewrite !fmap_reverse, bool_select_reverse in Hspec
        by (by rewrite length_fmap).
      rewrite head_reverse in Hspec. unfold valid, notnull_arr. fold d.
      rewrite <-Hspec; [|by rewrite !length_reverse|].
      2:{ intros Hd. apply (f_equal length) in Hd.
          rewrite length_reverse in Hd. simpl in Hd. lia. }
      rewrite fmap_reverse. unfold np_argmin.
      destruct (reverse (isnull <$> d)) as [|b0 m] eqn:Em; [done|].
      rewrite <-Em. simp_ok.
      destruct (np_item (reverse (isnull <$> d)) _) as [b|] eqn:Eb; [|done].
      simp_ok. destruct b; [done|]. f_equal.
      unfold np_item in *.
      destruct (reverse (isnull <$> d) !! _) as [b|] eqn:Ei; [|done].
      apply lookup_lt_Some in Ei. rewrite length_reverse, length_fmap in Ei.
      rewrite reverse_lookup by (rewrite Hlen; lia). rewrite Hlen.
      set (i := default 0 _) in *.
      by replace (length d - i - 1) with (length d - S i) by lia. }
  split_and!; try done.
  - destruct (dropna_total s Hwf) as (r & Hr & _ & _ & Hi). by exists r.
  - rewrite Hfirst, <-Hcount. split.
    + intros [= H]. by destruct valid.
    + intros H. by destruct valid.
  - rewrite Hlast, <-Hcount. split.
    + intros [= H]. apply last_None in H. by rewrite H.
    + intros H. by destruct valid.
Qed.

Lemma valid_index_first_last_witness :
  wf xy_B ∧ first_valid_index xy_B = Ok (Some (LStr "y")) ∧
  last_valid_index xy_B = Ok (Some (LStr "y")).
Proof.
  destruct (valid_index_first_last xy_B eq_refl) as (H1 & H2 & _).
  split_and!; [reflexivity|exact H1|exact H2].
Defined.

(** ** Reindexing, case by case *)


(** ** Conditional replacement *)


Lemma putmask_negb l (cond : list bool) v :
  putmask l (negb <$> cond) v
  = zip_with (λ (c : bool) x, if c then x else v) cond l.
Proof.
  unfold putmask. revert l; induction cond as [|c cond IH]; intros [|x l]; try done.
  rewrite fmap_cons. cbn [zip_with]. rewrite IH. by destruct c.
Qed.

(** X6: [where] with a boolean array as long as the Series and a scalar
    replacement keeps the value at every position where the condition is
    true and puts the replacement, converted to the element kind of the
    Series, at the others.  Labels, name and length are kept; without
    [inplace] the receiver is untouched and a new Series is returned, with
    [inplace] the receiver is changed and returned.  A replacement the
    element kind cannot store is refused with the error of the conversion.
    [mask] puts NaN where its condition is true on a Series of floating or
    object kind, and is a ValueError on a Series of integer kind.  A
    condition of another length is a ValueError. *)
Theorem where_replaces_false_positions (s : Series) (cond : list bool) (v : value) :
  wf s →
  (length cond = length (index s) →
   (∀ v', np_store (dtype (values s)) v = Ok v' →
      let r := with_data s (zip_with (λ (c : bool) x, if c then x else v')
                                     cond (data (values s))) in
      Series_where s cond v false = Ok (s, New r) ∧
      Series_where s cond v true = Ok (r, Self)) ∧
   (∀ e inplace, false ∈ cond → np_store (dtype (values s)) v = Raise e →
      Series_where s cond v inplace = Raise e) ∧
   (dtype (values s) = Floating ∨ dtype (values s) = Object →
    Series_mask s cond
    = Ok (s, New (with_data s (zip_with (λ (c : bool) x, if c then VNaN else x)
                                        cond (data (values s)))))) ∧
   (dtype (values s) = Integer → true ∈ cond →
    Series_mask s cond = Raise ValueError)) ∧
  (length cond ≠ length (index s) →
   (∀ inplace, Series_where s cond v inplace = Raise ValueError) ∧
   Series_mask s cond = Raise ValueError).
Proof.
  intros Hwf.
  assert (length (data (values s)) = length (index s)) as Hlen by exact Hwf.
  assert (∀ (c : list bool) (w w' : value), length c = length (index s) →
            np_store (dtype (values s)) w = Ok w' →
            Series_where s c w false
            = Ok (s, New (with_data s (zip_with (λ (c : bool) x, if c then x else w')
                                                c (data (values s))))) ∧
            Series_where s c w true
            = Ok (with_data s (zip_with (λ (c : bool) x, if c then x else w')
                                        c (data (values s))), Self)) as Hok.
  { intros c w w' Hc Hw. unfold Series_where.
    rewrite bool_decide_true by congruence. cbn [negb].
    rewrite copy_Ok by done. simp_ok. cbn [_set_with _set_values].
    unfold convert_scalar.
    rewrite !decide_True by (rewrite length_fmap; congruence).
    rewrite Hw. simp_ok. by rewrite putmask_negb. }
  assert (∀ (c : list bool) (w : value) e inplace, length c = length (index s) →
            np_store (dtype (values s)) w = Raise e →
            Series_where s c w inplace = Raise e) as Herr.
  { intros c w e inplace Hc Hw. unfold Series_where.
    rewrite bool_decide_true by congruence. cbn [negb].
    destruct inplace; [|rewrite copy_Ok by done]; simp_ok;
      cbn [_set_with _set_values]; unfold convert_scalar;
      rewrite !decide_True by (rewrite length_fmap; congruence);
      by rewrite Hw. }
  split_and!.
  - intros Hc. split_and!.
    + intros v' Hv' r. by apply Hok.
    + intros e inplace _ He. by apply Herr.
    + intros Hd. unfold Series_mask.
      destruct (Hok (negb <$> cond) VNaN VNaN) as [-> _].
      { rewrite length_fmap. congruence. }
      { by destruct Hd as [-> | ->]. }
      do 4 f_equal. clear. generalize (data (values s)) as l.
      induction cond as [|c cond IH]; intros [|x l]; try done.
      rewrite fmap_cons. cbn [zip_with]. rewrite IH. by destruct c.
    + intros Hd _. unfold Series_mask. apply Herr.
      * rewrite length_fmap. congruence.
      * by rewrite Hd.
  - intros Hc. split.
    + intros inplace. unfold Series_where.
      by rewrite bool_decide_false by congruence.
    + unfold Series_mask, Series_where.
      by rewrite bool_decide_false by (rewrite length_fmap; congruence).
Qed.

Lemma where_replaces_false_positions_witness :
  wf abc ∧ length [true; false; true] = length (index abc) ∧
  np_store (dtype (values abc)) (VNum 0) = Ok (VNum 0) ∧
  Series_where abc [true; false; true] (VNum 0) false
  = Ok (abc, New (mk_Series (mk_ndarray Integer [VNum 3; VNum 0; VNum 2])
                            [LStr "a"; LStr "b"; LStr "c"] None)).
Proof.
  destruct (where_replaces_false_positions abc [true; false; true] (VNum 0) eq_refl)
    as (H & _).
  destruct (H eq_refl) as (Hs & _).
  split_and!; [reflexivity|reflexivity|reflexivity|].
  exact (proj1 (Hs (VNum 0) eq_refl)).
Defined.

(** ** Updating in place *)





(** ** Flexible arithmetic methods *)

Lemma mapR_Raise {A B} (f : A → result B) l e :
  mapR f l = Raise e → ∃ a, a ∈ l ∧ f a = Raise e.
Proof.
  induction l as [|x l IH]; [done|]. simpl.
  destruct (f x) as [y|e'] eqn:Ex; simpl.
  - destruct (mapR f l) as [k|e'']; [done|]. simpl. intros [= ->].
    destruct IH as (a & Ha & Hf); [done|]. exists a. split; [by right|done].
  - intros [= ->]. exists x. split; [by left|done].
Qed.

Lemma np_op_no_TypeError (o : operator) (x y : ndarray) :
  (∀ a b, op_scalar o a b ≠ Raise TypeError) → np_op o x y ≠ Raise TypeError.
Proof.
  intros Hop H. unfold np_op in H.
  destruct (broadcast2 _ _ _) as [d|e] eqn:E; [done|]. simpl in H.
  injection H as ->. unfold broadcast2 in E.
  destruct (decide _).
  - apply zipR_Raise in E as (i & a & b & _ & _ & Hf). by eapply Hop.
  - destruct (data y) as [|b [|??]], (data x) as [|a [|??]]; try done;
      apply mapR_Raise in E as (c & _ & Hf); by eapply Hop.
Qed.

Lemma arith_na_op_native (o : operator) (x y : ndarray) :
  np_op o x y ≠ Raise TypeError →
  arith_na_op o x (RArray y) = np_op o x y.
Proof.
  intros H. unfold arith_na_op, try_except. cbn [apply_op].
  destruct (np_op o x y) as [r|e]; [done|].
  by rewrite decide_False by congruence.
Qed.

Lemma binop_and_operator_aligned (A B : Series) :
  wf A → wf B →
  ∃ this other,
    (∀ func,
       _binop A B func None
       = (result ← func (values this) (values other);
          Series_new result (index this) (_maybe_match_name A B))) ∧
    (∀ o,
       _arith_method o A (OSeries B)
       = RetSeries <$> (arr ← arith_na_op o (values this) (RArray (values other));
                        Series_new arr (index this) (_maybe_match_name A B))).
Proof.
  intros HA HB. unfold _binop, _arith_method.
  destruct (Index_equals (index A) (index B)) eqn:Heq.
  - exists A, B. split; [done|]. intros o. by unfold arith_equal_index.
  - set (U := Index_union (index A) (index B)).
    destruct (_reindex_indexer_join A U true HA) as (l & Hl & Hwl & Hil & Hl1 & Hl2).
    destruct (_reindex_indexer_join B U true HB) as (r & Hr & Hwr & Hir & Hr1 & Hr2).
    assert (align A B outer true None None None = Ok (l, r)) as Hal.
    { unfold align, Index_join. fold U. rewrite Hl. simp_ok. rewrite Hr. done. }
    exists (the A l), (the B r). split.
    + intros func. cbn [negb]. rewrite Hal. simp_ok.
      destruct (align_name _ _ _ _ _ _ _ _ _ Hal) as [_ Hn].
      by rewrite (_maybe_match_name_names A (the B r) A B eq_refl Hn).
    + intros o. f_equal. unfold arith_join, Index_join. fold U.
      assert ((match (if Index_equals U (index A) then None
                      else Some (get_indexer (index A) U)) with
               | Some lidx => take_1d (values A) lidx VNaN
               | None => Ok (values A)
               end) = Ok (values (the A l))) as ->.
      { unfold Index_equals. destruct (decide (U = index A)) as [E|E].
        - rewrite (bool_decide_true (U = index A)) by done. by rewrite (Hl1 E).
        - rewrite (bool_decide_false (U = index A)) by done.
          rewrite (Hl2 E). by rewrite take_1d_get_indexer. }
      assert ((match (if Index_equals U (index B) then None
                      else Some (get_indexer (index B) U)) with
               | Some ridx => take_1d (values B) ridx VNaN
               | None => Ok (values B)
               end) = Ok (values (the B r))) as ->.
      { unfold Index_equals. destruct (decide (U = index B)) as [E|E].
        - rewrite (bool_decide_true (U = index B)) by done. by rewrite (Hr1 E).
        - rewrite (bool_decide_false (U = index B)) by done.
          rewrite (Hr2 E). by rewrite take_1d_get_indexer. }
      simp_ok. by rewrite Hil.
Qed.

(** X8: the flexible methods ([add], [sub], [mul], [div]) called without a
    fill value work on the same aligned buffers as the arithmetic operators
    and give the result the same labels and name.  Whatever the method
    returns, the operator returns too, and when the element operation never
    raises TypeError the two give the same result or the same error.  The
    method does not take the operator's fallback: a TypeError of the array
    operation is raised by the method.  An operand that is not a Series is
    an AssertionError for the method. *)
Theorem flex_method_agrees_with_operator (o : operator) (A B : Series) :
  wf A → wf B →
  (∃ x y J,
     _flex_method o A (OSeries B) None
     = (res ← np_op o x y; Series_new res J (_maybe_match_name A B)) ∧
     _arith_method o A (OSeries B)
     = RetSeries <$> (res ← arith_na_op o x (RArray y);
                      Series_new res J (_maybe_match_name A B)) ∧
     (np_op o x y = Raise TypeError →
      _flex_method o A (OSeries B) None = Raise TypeError)) ∧
  (∀ r, _flex_method o A (OSeries B) None = Ok r →
        _arith_method o A (OSeries B) = Ok (RetSeries r)) ∧
  ((∀ a b, op_scalar o a b ≠ Raise TypeError) →
   _arith_method o A (OSeries B)
   = RetSeries <$> _flex_method o A (OSeries B) None) ∧
  (∀ v fill, _flex_method o A (OScalar v) fill = Raise AssertionError) ∧
  (∀ a fill, _flex_method o A (OArray a) fill = Raise AssertionError).
Proof.
  intros HA HB.
  destruct (binop_and_operator_aligned A B HA HB) as (this & other & Hb & Ha).
  split_and!; try done.
  - exists (values this), (values other), (index this).
    cbn [_flex_method]. rewrite Hb, Ha. split_and!; try done.
    by intros ->.
  - intros r Hr. cbn [_flex_method] in Hr. rewrite Hb in Hr. rewrite Ha.
    destruct (np_op o (values this) (values other)) as [res|e] eqn:E; [|done].
    rewrite arith_na_op_native by (by rewrite E). rewrite E.
    rewrite bind_Ok_l in Hr |- *. by rewrite Hr.
  - intros Hop. cbn [_flex_method]. rewrite Hb, Ha.
    by rewrite arith_na_op_native by (by apply np_op_no_TypeError).
Qed.

Lemma flex_method_agrees_with_operator_witness :
  wf xy_A ∧ wf xy_B ∧
  _arith_method operator_add xy_A (OSeries xy_B)
  = RetSeries <$> _flex_method operator_add xy_A (OSeries xy_B) None.
Proof.
  destruct (flex_method_agrees_with_operator operator_add xy_A xy_B eq_refl eq_refl)
    as (_ & H & _).
  split_and!; [reflexivity|reflexivity|].
  by rewrite (H _ eq_refl).
Defined.

(** ** Lookup by label *)

Lemma bool_select_positions_absent {A} (idx : Index) l (d : list A) :
  l ∉ idx → bool_select (positions_of idx l) d = [].
Proof.
  revert d; induction idx as [|x idx IH]; intros d Hn; [done|].
  apply not_elem_of_cons in Hn as [Hne Hn]. unfold positions_of in *.
  rewrite fmap_cons. rewrite bool_decide_false by done.
  destruct d as [|a d]; [done|]. simpl. by apply IH.
Qed.

Lemma bool_select_positions_first {A} (idx : Index) l (d : list A) p v :
  length d = length idx → get_loc idx l = Some p → d !! p = Some v →
  mask_sum (positions_of idx l) ≤ 1 →
  bool_select (positions_of idx l) d = [v].
Proof.
  revert d p; induction idx as [|x idx IH]; intros [|a d] p Hlen Hp Hv Hle; try done.
  injection Hlen as Hlen. unfold positions_of in *.
  rewrite fmap_cons in Hle |- *. rewrite mask_sum_cons in Hle.
  unfold get_loc in Hp. cbn [list_find] in Hp.
  destruct (decide (x = l)) as [->|Hne].
  - simpl in Hp. injection Hp as <-. simpl in Hv. injection Hv as ->.
    rewrite bool_decide_true in Hle |- * by done. simpl. f_equal.
    assert (l ∉ idx) as Habs.
    { intros Hin. apply list_elem_of_lookup in Hin as [i Hi].
      assert (true ∈ filter (λ b, b = true) ((λ x, bool_decide (x = l)) <$> idx))
        as Hin.
      { apply list_elem_of_filter. split; [done|]. apply list_elem_of_fmap.
        exists l. split; [by rewrite bool_decide_true|by eapply list_elem_of_lookup_2]. }
      unfold mask_sum in Hle.
      destruct (filter _ _); [by apply not_elem_of_nil in Hin|simpl in Hle; lia]. }
    by apply (bool_select_positions_absent idx l d).
  - rewrite bool_decide_false in Hle |- * by done. simpl.
    destruct (list_find _ idx) as [[q y]|] eqn:Ef; [|done].
    simpl in Hp. injection Hp as <-. simpl in Hv.
    apply (IH d q); [done| |done|simpl in Hle; lia].
    unfold get_loc. by rewrite Ef.
Qed.

Lemma get_absent (s : Series) k fill :
  label_of k ∉ index s → get s k fill = Ok (ItemValue fill).
Proof.
  intros Hn. unfold get, Index_get_value.
  by rewrite bool_select_positions_absent.
Qed.

Lemma get_first (s : Series) k fill p v :
  wf s → get_loc (index s) (label_of k) = Some p → data (values s) !! p = Some v →
  mask_sum (positions_of (index s) (label_of k)) ≤ 1 →
  get s k fill = Ok (ItemValue v).
Proof.
  intros Hwf Hp Hv Hle. unfold get, Index_get_value.
  by rewrite (bool_select_positions_first _ _ _ p v).
Qed.

Lemma get_value_at (s : Series) l fill :
  wf s → NoDup (index s) →
  get s (key_of_label l) fill = Ok (ItemValue (value_at s l fill)).
Proof.
  intros Hwf Hnd. unfold value_at.
  destruct (get_loc (index s) l) as [p|] eqn:Hp.
  - destruct (get_loc_Some _ _ _ Hp) as [Hi _].
    apply lookup_lt_Some in Hi as Hlt. rewrite <-Hwf in Hlt.
    apply lookup_lt_is_Some in Hlt as [v Hv]. rewrite Hv. simpl.
    apply (get_first s _ fill p v); rewrite ?label_of_key_of_label; try done.
    by apply mask_sum_positions_NoDup.
  - apply get_absent. rewrite label_of_key_of_label. by apply get_loc_None.
Qed.

(** ** combine *)

Lemma mapR_pure {A B} (f : A → B) (l : list A) :
  mapR (λ x, Ok (f x)) l = Ok (f <$> l).
Proof. induction l as [|x l IH]; [done|]. simpl. by rewrite IH. Qed.

Lemma mapR_ext {A B} (f g : A → result B) (l : list A) :
  (∀ x, x ∈ l → f x = g x) → mapR f l = mapR g l.
Proof.
  induction l as [|x l IH]; [done|]. intros H. simpl.
  rewrite H by (by left). by rewrite IH by (intros; apply H; by right).
Qed.

Lemma value_at_cases (s : Series) l fill :
  value_at s l fill = fill ∨ value_at s l fill ∈ data (values s).
Proof.
  unfold value_at. destruct (get_loc (index s) l) as [p|]; [|by left].
  destruct (data (values s) !! p) as [x|] eqn:E; [|by left].
  right. by eapply list_elem_of_lookup_2.
Qed.

(** X9: for two Series with duplicate-free labels, [combine] calls the
    function once per label of the union of the labels, in the union's
    order, on the two values at that label, the fill value standing in for
    a label one side lacks, and stores each result into a buffer of the
    receiver's element kind; the result carries the union as its labels,
    and the first failing call or refused store is the error of the whole.
    With the function that takes the first non-missing of its arguments and
    NaN as the fill value, where NaN and the values of both Series are
    values of the receiver's kind, [combine] gives the labels and values of
    [combine_first]. *)
Theorem combine_per_label (A B : Series) (func : value → value → result value)
    (fill : value) :
  wf A → wf B → NoDup (index A) → NoDup (index B) →
  let U := Index_union (index A) (index B) in
  let d := dtype (values A) in
  combine A B func fill
  = (vals ← mapR (λ l, r ← func (value_at A l fill) (value_at B l fill);
                       np_store d r) U;
     Ok (mk_Series (mk_ndarray d vals) U (_maybe_match_name A B))) ∧
  (np_store d VNaN = Ok VNaN →
   Forall (λ x, np_store d x = Ok x) (data (values A) ++ data (values B)) →
   ∃ r c, combine A B (λ a b, Ok (if isnull a then b else a)) VNaN = Ok r ∧
          combine_first A B = Ok c ∧
          index c = index r ∧ data (values c) = data (values r) ∧
          name c = name r).
Proof.
  intros HA HB HnA HnB U d.
  assert (∀ f v,
    combine A B f v
    = (vals ← mapR (λ l, r ← f (value_at A l v) (value_at B l v); np_store d r) U;
       Ok (mk_Series (mk_ndarray d vals) U (_maybe_match_name A B)))) as Hc.
  { intros f v. unfold combine. fold U d.
    rewrite (mapR_ext _ (λ l, r ← f (value_at A l v) (value_at B l v);
                              np_store d r)).
    2:{ intros l _. by rewrite !get_value_at by done. }
    destruct (mapR _ U) as [vals|e] eqn:E; [|done]. simp_ok.
    apply Series_new_same_length. cbn [data]. by eapply mapR_length. }
  split; [apply Hc|]. intros Hnan Hfit.
  rewrite Hc.
  rewrite (mapR_ext _ (λ l, Ok (if isnull (value_at A l VNaN)
                                then value_at B l VNaN else value_at A l VNaN))).
  2:{ intros l _. simp_ok. rewrite Forall_app, !Forall_forall in Hfit.
      destruct Hfit as [HfA HfB].
      destruct (isnull (value_at A l VNaN)).
      - destruct (value_at_cases B l VNaN) as [-> | Hin]; [done|by apply HfB].
      - destruct (value_at_cases A l VNaN) as [-> | Hin]; [done|by apply HfA]. }
  rewrite mapR_pure. simp_ok.
  pose proof (NoDup_Index_union (index A) (index B)) as Hnd. fold U in Hnd.
  destruct (reindex_values A U false HA Hnd) as (ra & Hra & _ & Hia & _ & Hda).
  destruct (reindex_values B U false HB Hnd) as (rb & Hrb & _ & Hib & Hnb & Hdb).
  unfold combine_first. fold U. rewrite Hra. cbn [fmap result_fmap]. simp_ok.
  rewrite Hrb. cbn [fmap result_fmap]. simp_ok.
  unfold isnull_arr. rewrite Hda, Hdb, np_where_fmap.
  rewrite Series_new_same_length by (cbn [data]; by rewrite length_fmap).
  eexists _, _. split; [done|]. split; [done|].
  cbn [index values data name]. split_and!; try done.
  by apply _maybe_match_name_names.
Qed.

Lemma combine_per_label_witness :
  wf xy_A ∧ wf xy_B ∧ NoDup (index xy_A) ∧ NoDup (index xy_B) ∧
  combine xy_A xy_B add_scalar (VNum 0)
  = Ok (mk_Series (mk_ndarray Floating [VNaN; VNaN]) [LStr "x"; LStr "y"] None).
Proof.
  split_and!; [reflexivity|reflexivity|exact NoDup_xy|exact NoDup_xy|].
  rewrite (proj1 (combine_per_label xy_A xy_B add_scalar (VNum 0)
                    eq_refl eq_refl NoDup_xy NoDup_xy)).
  reflexivity.
Defined.

(** ** set_value, then get *)

Lemma bool_select_putmask_same (m : list bool) (d : list value) v :
  length m = length d →
  bool_select m (putmask d m v) = replicate (mask_sum m) v.
Proof.
  unfold putmask. revert d; induction m as [|b m IH]; intros [|x d] Hlen; try done.
  injection Hlen as Hlen. cbn [zip_with bool_select]. rewrite mask_sum_cons.
  rewrite IH by done. by destruct b.
Qed.

Lemma bool_select_putmask_other (idx : Index) l l' (d : list value) v :
  l' ≠ l →
  bool_select (positions_of idx l') (putmask d (positions_of idx l) v)
  = bool_select (positions_of idx l') d.
Proof.
  intros Hne. unfold putmask, positions_of.
  revert d; induction idx as [|x idx IH]; intros [|a d]; try done.
  rewrite !fmap_cons. cbn [zip_with bool_select]. rewrite IH.
  case_bool_decide as E1; [|done]. subst x.
  by rewrite bool_decide_false by done.
Qed.

Lemma mask_sum_positions_present (idx : Index) l :
  l ∈ idx → 1 ≤ mask_sum (positions_of idx l).
Proof.
  unfold positions_of. induction idx as [|x idx IH]; intros Hin.
  - by apply not_elem_of_nil in Hin.
  - rewrite fmap_cons, mask_sum_cons. apply elem_of_cons in Hin as [<-|Hin].
    + rewrite bool_decide_true by done. lia.
    + specialize (IH Hin). lia.
Qed.

Lemma positions_of_app idx1 idx2 l :
  positions_of (idx1 ++ idx2) l = positions_of idx1 l ++ positions_of idx2 l.
Proof. unfold positions_of. by rewrite fmap_app. Qed.

(** X10: after [set_value(label, value)], for a label that occurs at most
    once in the index, [get(label)] on the returned Series gives the value
    just set: converted to the element kind and written in place when the
    label was there and the kind can store the value, appended when the
    label was not there; every other label still gives what it gave before,
    its default included.  On a label of the index a value the kind cannot
    store is refused with the error of the conversion. *)
Theorem set_value_then_get (s : Series) (l : label) (v d : value) :
  wf s → mask_sum (positions_of (index s) l) ≤ 1 →
  (l ∈ index s →
   (∀ v', np_store (dtype (values s)) v = Ok v' →
      ∃ s', set_value s l v = Ok (s', Self) ∧
        get s' (key_of_label l) d = Ok (ItemValue v') ∧
        (∀ l' x, l' ≠ l →
           get s (key_of_label l') d = Ok (ItemValue x) →
           get s' (key_of_label l') d = Ok (ItemValue x))) ∧
   (∀ e, np_store (dtype (values s)) v = Raise e → set_value s l v = Raise e)) ∧
  (l ∉ index s →
   ∃ r, set_value s l v = Ok (s, New r) ∧
     get r (key_of_label l) d = Ok (ItemValue v) ∧
     (∀ l' x, l' ≠ l →
        get s (key_of_label l') d = Ok (ItemValue x) →
        get r (key_of_label l') d = Ok (ItemValue x)) ∧
     get s (key_of_label l) d = Ok (ItemValue d)).
Proof.
  intros Hwf Hle.
  assert (length (data (values s)) = length (index s)) as Hlen by exact Hwf.
  split.
  - intros Hin. split.
    + intros v' Hv'. unfold set_value, engine_set_value.
      rewrite bool_decide_true by done. rewrite Hv'. simp_ok.
      eexists. split; [done|]. split.
      * unfold get, Index_get_value. rewrite label_of_key_of_label.
        unfold with_data. cbn [index values data].
        rewrite bool_select_putmask_same by (by rewrite length_positions_of).
        pose proof (mask_sum_positions_present _ _ Hin).
        by replace (mask_sum (positions_of (index s) l)) with 1 by lia.
      * intros l' x Hne. unfold get, Index_get_value.
        rewrite label_of_key_of_label. unfold with_data.
        cbn [index values data dtype name].
        by rewrite bool_select_putmask_other by done.
    + intros e He. unfold set_value, engine_set_value.
      rewrite bool_decide_true by done. rewrite He. cbn.
      apply np_store_not_KeyError in He. by destruct e.
  - intros Hin. unfold set_value, engine_set_value.
    rewrite bool_decide_false by done.
    assert ((if decide (length (index s) = 0) then [l]
             else Index_insert (index s) (length (data (values s))) l)
            = index s ++ [l]) as ->.
    { destruct (decide _) as [Hz|Hz].
      - apply nil_length_inv in Hz. by rewrite Hz.
      - unfold Index_insert. rewrite Hlen.
        by rewrite firstn_all, drop_all. }
    rewrite Series_new_same_length
      by (cbn [data]; rewrite !length_app; simpl; lia).
    simp_ok. eexists. split; [done|]. split_and!.
    + unfold get, Index_get_value. rewrite label_of_key_of_label.
      cbn [index values data]. rewrite positions_of_app.
      rewrite bool_select_app by (by rewrite length_positions_of).
      rewrite bool_select_positions_absent by done.
      unfold positions_of. simpl. by rewrite bool_decide_true.
    + intros l' x Hne. unfold get, Index_get_value.
      rewrite label_of_key_of_label.
      cbn [index values data dtype name]. rewrite positions_of_app.
      rewrite bool_select_app by (by rewrite length_positions_of).
      unfold positions_of at 2. simpl.
      rewrite bool_decide_false by done. simpl. rewrite app_nil_r.
      destruct (bool_select _ (data (values s))) as [|y [|z ys]]; try done.
      cbn [try_except]. unfold Series_new, set_index.
      destruct (decide _); [done|]. intros H. by simpl in H.
    + apply get_absent. by rewrite label_of_key_of_label.
Qed.

Lemma set_value_then_get_witness :
  wf abc ∧ mask_sum (positions_of (index abc) (LStr "b")) ≤ 1 ∧
  LStr "b" ∈ index abc ∧
  np_store (dtype (values abc)) (VBool true) = Ok (VNum 1) ∧
  ∃ s', set_value abc (LStr "b") (VBool true) = Ok (s', Self) ∧
        get s' (KStr "b") VNaN = Ok (ItemValue (VNum 1)).
Proof.
  assert (mask_sum (positions_of (index abc) (LStr "b")) ≤ 1) as Hle
    by (vm_compute; lia).
  assert (LStr "b" ∈ index abc) as Hin by (right; left).
  destruct (set_value_then_get abc (LStr "b") (VBool true) VNaN eq_refl Hle)
    as [H _].
  destruct (proj1 (H Hin) (VNum 1) eq_refl) as (s' & Hs & Hg & _).
  split_and!; [reflexivity|exact Hle|exact Hin|reflexivity|].
  exists s'. split; [exact Hs|exact Hg].
Defined.

(** ** Assignment by position *)

(** X11: on a Series whose index is not integer-typed, assigning to an
    integer key that is not a label writes the value, converted to the
    element kind of the Series, at that position, counted from the end when
    the key is negative, and changes nothing else; a position outside
    [-N, N) is an IndexError, and at a position inside a value the kind
    cannot store is refused with the error of the conversion. *)
Theorem setitem_integer_position (s : Series) (ke : keyelt) (v : value) :
  wf s → is_integer ke = true → label_of ke ∉ index s →
  inferred_type (index s) ≠ inf_integer →
  let n := length (index s) in
  let i := key_int ke in
  let d := dtype (values s) in
  __setitem__ s (KeyScalar ke) v
  = (p ← norm_pos n i; v' ← np_store d v;
     Ok (with_data s (<[p := v']> (data (values s))))) ∧
  (∀ v', np_store d v = Ok v' →
     ((0 ≤ i < Z.of_nat n)%Z →
      __setitem__ s (KeyScalar ke) v
      = Ok (with_data s (<[Z.to_nat i := v']> (data (values s))))) ∧
     ((- Z.of_nat n ≤ i < 0)%Z →
      __setitem__ s (KeyScalar ke) v
      = Ok (with_data s (<[Z.to_nat (Z.of_nat n + i) := v']> (data (values s)))))) ∧
  (¬ (- Z.of_nat n ≤ i < Z.of_nat n)%Z →
   __setitem__ s (KeyScalar ke) v = Raise IndexError) ∧
  (∀ e, (- Z.of_nat n ≤ i < Z.of_nat n)%Z → np_store d v = Raise e →
     __setitem__ s (KeyScalar ke) v = Raise e).
Proof.
  intros Hwf Hint Habs Hty n i d.
  assert (__setitem__ s (KeyScalar ke) v
          = (p ← norm_pos n i; v' ← np_store d v;
             Ok (with_data s (<[p := v']> (data (values s))))))
    as Heq.
  { unfold __setitem__, engine_set_value.
    rewrite bool_decide_false by done. rewrite Hint.
    rewrite bool_decide_false by done. cbn [andb negb _set_values].
    unfold convert_scalar. fold i d. unfold set_positions. cbn [mapR]. unfold n. rewrite <-Hwf.
    destruct (norm_pos _ i) as [p|e]; [|done]. simp_ok.
    by destruct (np_store d v). }
  split; [exact Heq|]. rewrite Heq. unfold norm_pos. split_and!.
  - intros v' Hv'. split.
    + intros Hi. rewrite decide_True by done. simp_ok. by rewrite Hv'.
    + intros Hi. rewrite decide_False by lia. rewrite decide_True by done.
      simp_ok. by rewrite Hv'.
  - intros Hi. rewrite decide_False by lia. by rewrite decide_False by lia.
  - intros e Hi He. destruct (decide (0 ≤ i < Z.of_nat n)%Z).
    + simp_ok. by rewrite He.
    + rewrite decide_True by lia. simp_ok. by rewrite He.
Qed.

Lemma setitem_integer_position_witness :
  wf abc ∧ is_integer (KInt (-1)) = true ∧
  (label_of (KInt (-1)) ∉ index abc) ∧
  inferred_type (index abc) ≠ inf_integer ∧
  __setitem__ abc (KeyScalar (KInt (-1))) (VNum 7)
  = Ok (mk_Series (mk_ndarray Integer [VNum 3; VNum 1; VNum 7])
                  [LStr "a"; LStr "b"; LStr "c"] None) ∧
  __setitem__ abc (KeyScalar (KInt (-1))) VNaN = Raise ValueError.
Proof.
  assert (label_of (KInt (-1)) ∉ index abc) as Habs.
  { intros H. repeat (apply elem_of_cons in H as [H|H]; [discriminate H|]).
    by apply not_elem_of_nil in H. }
  assert (inferred_type (index abc) ≠ inf_integer) as Hty by discriminate.
  destruct (setitem_integer_position abc (KInt (-1)) (VNum 7) eq_refl eq_refl Habs Hty)
    as (_ & H & _).
  destruct (setitem_integer_position abc (KInt (-1)) VNaN eq_refl eq_refl Habs Hty)
    as (_ & _ & _ & He).
  split_and!; [reflexivity|reflexivity|exact Habs|exact Hty| |].
  - apply (H (VNum 7) eq_refl). split; by vm_compute.
  - apply He; [split; by vm_compute|reflexivity].
Defined.

(** ** Reindexing *)

Lemma value_at_absent (s : Series) l fill : l ∉ index s → value_at s l fill = fill.
Proof. intros H. unfold value_at. by rewrite (proj2 (get_loc_None _ _) H). Qed.

Lemma value_at_present (s : Series) l fill :
  wf s → l ∈ index s →
  ∃ p x, index s !! p = Some l ∧ (∀ q, q < p → index s !! q ≠ Some l) ∧
         data (values s) !! p = Some x ∧ value_at s l fill = x.
Proof.
  intros Hwf Hin. destruct (get_loc_is_Some _ _ Hin) as [p Hp].
  destruct (get_loc_Some _ _ _ Hp) as [Hi Hfirst].
  apply lookup_lt_Some in Hi as Hlt. rewrite <-Hwf in Hlt.
  apply lookup_lt_is_Some in Hlt as [x Hx].
  exists p, x. split_and!; try done. unfold value_at. by rewrite Hp, Hx.
Qed.

(** X12: [reindex] without labels is a ValueError.  Reindexing a Series to
    labels other than its own always builds a new Series with exactly the
    requested labels and the receiver's name: a requested label the
    receiver has gets the value at the label's first position, a label it
    lacks gets the fill value.  An empty Series is the exception: it is
    reindexed to NaN of floating kind everywhere, whatever the fill value. *)
Theorem reindex_fills_absent_labels (s : Series) (target : Index) (fill : value)
    (c : bool) :
  wf s → index s ≠ target →
  reindex s None fill c = Raise ValueError ∧
  (index s = [] →
   reindex s (Some target) fill c
   = Ok (New (mk_Series (mk_ndarray Floating (replicate (length target) VNaN))
                        target (name s)))) ∧
  (index s ≠ [] →
   ∃ r, reindex s (Some target) fill c = Ok (New r) ∧
        index r = target ∧ name r = name s ∧ wf r ∧
        data (values r) = (λ l, value_at s l fill) <$> target ∧
        ∀ i l, target !! i = Some l →
          (l ∉ index s → data (values r) !! i = Some fill) ∧
          (l ∈ index s →
           ∃ p x, index s !! p = Some l ∧ (∀ q, q < p → index s !! q ≠ Some l) ∧
                  data (values s) !! p = Some x ∧
                  data (values r) !! i = Some x)).
Proof.
  intros Hwf Hne. split_and!; [done| |].
  - intros He. apply reindex_empty; [done|]. intros ->. by rewrite He in Hne.
  - intros Hnz. eexists. split; [by apply reindex_other|].
    cbn [index name values data]. split_and!; try done.
    + unfold wf. cbn [index values data]. by rewrite length_fmap.
    + intros i l Hi. rewrite list_lookup_fmap, Hi. simpl. split.
      * intros Habs. by rewrite value_at_absent.
      * intros Hin. destruct (value_at_present s l fill Hwf Hin)
          as (p & x & H1 & H2 & H3 & H4).
        exists p, x. by rewrite H4.
Qed.

Lemma reindex_fills_absent_labels_witness :
  wf xy_A ∧ index xy_A ≠ [LStr "y"; LStr "z"] ∧
  ∃ r, reindex xy_A (Some [LStr "y"; LStr "z"]) (VNum 0) true = Ok (New r) ∧
       data (values r) = [VNaN; VNum 0].
Proof.
  assert (index xy_A ≠ [LStr "y"; LStr "z"]) as Hne by discriminate.
  assert (index xy_A ≠ []) as Hnz by discriminate.
  destruct (reindex_fills_absent_labels xy_A [LStr "y"; LStr "z"] (VNum 0) true
              eq_refl Hne) as (_ & _ & H).
  destruct (H Hnz) as (r & Hr & _ & _ & _ & Hd & _).
  split_and!; [reflexivity|exact Hne|]. exists r. split; [exact Hr|exact Hd].
Defined.

(** ** Alignment *)

Lemma _reindex_indexer_same (s : Series) (c : bool) :
  wf s →
  _reindex_indexer s (index s) None c = Ok (if c then New s else Self).
Proof.
  intros Hwf. unfold _reindex_indexer. destruct c; [|done].
  by rewrite copy_Ok.
Qed.

(** X13: [align] gives both results the labels of the join: the sorted
    union for [outer], the intersection for [inner], the receiver's labels
    for [left] and the other's for [right].  A side whose labels are the
    joined labels already is not reindexed: with [copy=False] the very
    object is returned, with [copy=True] an equal new Series.  A side that
    is reindexed becomes a new Series with the side's name, holding at
    every joined label the side's value at that label, and NaN at a label
    the side lacks. *)
Theorem align_joins (A B : Series) (h : how) (c : bool) :
  wf A → wf B →
  let J := match h with
           | outer => Index_union (index A) (index B)
           | inner => Index_intersection (index A) (index B)
           | left => index A
           | right => index B
           end in
  ∃ l r, align A B h c None None None = Ok (l, r) ∧
    index (the A l) = J ∧ index (the B r) = J ∧
    wf (the A l) ∧ wf (the B r) ∧
    name (the A l) = name A ∧ name (the B r) = name B ∧
    (J = index A → l = if c then New A else Self) ∧
    (J = index B → r = if c then New B else Self) ∧
    (J ≠ index A →
     ∃ a, l = New a ∧ data (values a) = (λ x, value_at A x VNaN) <$> J ∧
          ∀ i x, J !! i = Some x → x ∉ index A → data (values a) !! i = Some VNaN) ∧
    (J ≠ index B →
     ∃ b, r = New b ∧ data (values b) = (λ x, value_at B x VNaN) <$> J ∧
          ∀ i x, J !! i = Some x → x ∉ index B → data (values b) !! i = Some VNaN).
Proof.
  intros HA HB J.
  assert (∀ s, wf s →
    ∃ r, _reindex_indexer s J
           (if Index_equals J (index s) then None
            else Some (get_indexer (index s) J)) c = Ok r ∧
         index (the s r) = J ∧ wf (the s r) ∧ name (the s r) = name s ∧
         (J = index s → r = if c then New s else Self) ∧
         (J ≠ index s →
          ∃ a, r = New a ∧ data (values a) = (λ x, value_at s x VNaN) <$> J ∧
               ∀ i x, J !! i = Some x → x ∉ index s →
                      data (values a) !! i = Some VNaN)) as Hside.
  { intros s Hs. destruct (decide (J = index s)) as [E|E].
    - unfold Index_equals. rewrite (bool_decide_true (J = index s)) by done.
      rewrite E. rewrite _reindex_indexer_same by done.
      eexists. split; [done|]. split_and!; try done; by destruct c.
    - destruct (_reindex_indexer_join s J c Hs) as (r & Hr & Hw & Hi & _ & Hn).
      exists r. split; [done|]. rewrite (Hn E) in *. cbn [the] in *.
      split_and!; try done.
      eexists. split; [done|]. cbn [values data]. split; [done|].
      intros i x Hi' Habs. rewrite list_lookup_fmap, Hi'. simpl.
      by rewrite value_at_absent. }
  destruct (Hside A HA) as (l & Hl & HlI & Hlw & Hln & Hl1 & Hl2).
  destruct (Hside B HB) as (r & Hr & HrI & Hrw & Hrn & Hr1 & Hr2).
  exists l, r. split; [|done].
  unfold align, Index_join. fold J. rewrite Hl. simp_ok. by rewrite Hr.
Qed.

Lemma align_joins_witness :
  wf xy_A ∧ wf abc ∧
  ∃ l r, align xy_A abc left false None None None = Ok (l, r) ∧ l = Self ∧
         ∃ b, r = New b ∧ data (values b) = [VNaN; VNaN].
Proof.
  destruct (align_joins xy_A abc left false eq_refl eq_refl)
    as (l & r & Hal & _ & _ & _ & _ & _ & _ & Hl & _ & _ & Hr).
  assert (index xy_A ≠ index abc) as Hne by discriminate.
  destruct (Hr Hne) as (b & Hb & Hd & _).
  split_and!; [reflexivity|reflexivity|].
  exists l, r. split_and!; [exact Hal|exact (Hl eq_refl)|].
  exists b. split; [exact Hb|exact Hd].
Defined.

(** ** Ordering by value, all flags *)

Section order_flags.
Variable argsort_default : list value → list nat.
Hypothesis argsort_default_valid : argsort_valid argsort_default.

Lemma order_sortedIdx_flags (self : Series) (na_last ascending : bool) :
  let d := data (values self) in
  let good := notnull_arr (values self) in
  let idx_good := bool_select good (seq 0 (length d)) in
  let B := bool_select (isnull_arr (values self)) (seq 0 (length d)) in
  let argsorted :=
    _try_mergesort argsort_default
      (mk_ndarray (dtype (values self)) (bool_select good d)) in
  let G := (λ a, idx_good !!! a) <$> argsorted in
  let G' := if ascending then G else reverse G in
  order_sortedIdx argsort_default self na_last ascending
  = Ok (if na_last then G' ++ B else B ++ G').
Proof.
  intros d good idx_good B argsorted G G'. unfold order_sortedIdx.
  rewrite negb_isnull_arr. fold d good.
  set (bad := isnull_arr (values self)).
  assert (length bad = length d) as Hb by (unfold bad, isnull_arr; by rewrite length_fmap).
  assert (length good = length d) as Hg by (unfold good, notnull_arr; by rewrite length_fmap).
  unfold np_getmask. rewrite !length_seq. rewrite !decide_True by done. simp_ok.
  fold idx_good argsorted. fold bad in B. fold B.
  pose proof (mask_sum_compl bad) as Hc. unfold bad in Hc at 2.
  rewrite negb_isnull_arr in Hc. fold good in Hc.
  assert (length idx_good = mask_sum good) as Hlg.
  { unfold idx_good. apply bool_select_length. by rewrite length_seq. }
  assert (length B = mask_sum bad) as Hlb.
  { unfold B. apply bool_select_length. by rewrite length_seq. }
  assert (argsorted ≡ₚ seq 0 (length idx_good)) as Hperm0.
  { destruct (_try_mergesort_sorts argsort_default argsort_default_valid
      (mk_ndarray (dtype (values self)) (bool_select good d))) as [Hp _].
    fold argsorted in Hp. simpl in Hp. rewrite bool_select_length in Hp by done.
    by rewrite Hlg. }
  assert ((if negb ascending then reverse argsorted else argsorted)
          ≡ₚ seq 0 (length idx_good)) as Hperm.
  { destruct ascending; simpl; [done|]. by rewrite reverse_Permutation. }
  destruct (gather_Permutation idx_good _ Hperm) as [-> Hp2]. simp_ok.
  assert ((λ a, idx_good !!! a) <$> (if negb ascending then reverse argsorted
                                     else argsorted) = G') as HG.
  { unfold G', G. destruct ascending; simpl; [done|]. by rewrite fmap_reverse. }
  rewrite HG in *.
  assert (length G' = mask_sum good) as Hls by (by rewrite Hp2).
  destruct na_last.
  - rewrite setslice_prefix; [|rewrite length_replicate; lia|done]. simp_ok.
    rewrite setslice_suffix.
    + by rewrite take_app_length' by done.
    + rewrite length_app, length_drop, length_replicate. lia.
    + rewrite length_app, length_drop, length_replicate. lia.
  - rewrite setslice_suffix; [|rewrite length_replicate; lia|rewrite length_replicate; lia].
    simp_ok. rewrite setslice_prefix.
    + by rewrite drop_app_length' by (rewrite length_take, length_replicate; lia).
    + rewrite length_app, length_take, length_replicate. lia.
    + done.
Qed.

(** X14: for every choice of [na_last] and [ascending], [order] reads its
    result off one arrangement of the positions: the positions [G] of the
    non-missing values in ascending order of value, and the positions [B]
    of the missing values in their original order.  Ascending results list
    [G], descending results list [G] reversed (so that equal values come
    out in the mirror of their ascending order), and the missing values go
    after or before them according to [na_last]; each result position keeps
    its label with its value. *)
Theorem order_flags (self : Series) :
  wf self →
  let d := data (values self) in
  ∃ G B : list nat,
    G ++ B ≡ₚ seq 0 (length d) ∧
    Forall (λ i, ∃ v, d !! i = Some v ∧ isnull v = false) G ∧
    Forall (λ i, ∃ v, d !! i = Some v ∧ isnull v = true) B ∧
    StronglySorted (λ i j, ∃ v w, d !! i = Some v ∧ d !! j = Some w ∧
                                  (value_key v ≤ value_key w)%Z) G ∧
    StronglySorted lt B ∧
    ∀ na_last ascending : bool,
      let G' := if ascending then G else reverse G in
      let P := if na_last then G' ++ B else B ++ G' in
      order_sortedIdx argsort_default self na_last ascending = Ok P ∧
      order argsort_default self na_last ascending
      = Ok (mk_Series (mk_ndarray (dtype (values self)) ((λ i, d !!! i) <$> P))
                      ((λ i, index self !!! i) <$> P) (name self)).
Proof.
  intros Hwf d.
  set (good := notnull_arr (values self)).
  set (idx_good := bool_select good (seq 0 (length d))).
  set (B := bool_select (isnull_arr (values self)) (seq 0 (length d))).
  set (argsorted := _try_mergesort argsort_default
         (mk_ndarray (dtype (values self)) (bool_select good d))).
  set (G := (λ a, idx_good !!! a) <$> argsorted).
  assert (length good = length d) as Hg by (unfold good, notnull_arr; by rewrite length_fmap).
  assert (length (isnull_arr (values self)) = length d) as Hb
    by (unfold isnull_arr; by rewrite length_fmap).
  assert (length idx_good = mask_sum good) as Hlg.
  { unfold idx_good. apply bool_select_length. by rewrite length_seq. }
  destruct (_try_mergesort_sorts argsort_default argsort_default_valid
      (mk_ndarray (dtype (values self)) (bool_select good d))) as [Hp Hsorted].
  fold argsorted in Hp, Hsorted. cbn [data] in Hp, Hsorted.
  rewrite bool_select_length in Hp by done. rewrite <-Hlg in Hp.
  destruct (gather_Permutation idx_good argsorted Hp) as [_ HpG]. fold G in HpG.
  assert (G ++ B ≡ₚ seq 0 (length d)) as Hall.
  { rewrite HpG. unfold idx_good, B, good. rewrite <-negb_isnull_arr.
    rewrite (comm (++)). apply bool_select_compl. by rewrite length_seq. }
  assert (∀ a i, idx_good !! a = Some i →
            ∃ v, d !! i = Some v ∧ isnull v = false ∧
                 bool_select good d !! a = Some v) as Hgood.
  { intros a i Ha. unfold idx_good in Ha.
    destruct (bool_select_seq good d 0 a i Hg Ha) as (_ & Hm & v & Hv & Hsel).
    rewrite Nat.sub_0_r in *. exists v. split_and!; try done.
    unfold good, notnull_arr in Hm. rewrite list_lookup_fmap in Hm.
    fold d in Hm. rewrite Hv in Hm.
    injection Hm as Hm. unfold notnull in Hm. by destruct (isnull v). }
  assert (∀ a i, B !! a = Some i → ∃ v, d !! i = Some v ∧ isnull v = true) as Hbad.
  { intros a i Ha. unfold B in Ha.
    destruct (bool_select_seq (isnull_arr (values self)) d 0 a i Hb Ha)
      as (_ & Hm & v & Hv & _).
    rewrite Nat.sub_0_r in *. exists v. split; [done|].
    unfold isnull_arr in Hm. rewrite list_lookup_fmap in Hm. fold d in Hm.
    rewrite Hv in Hm. by injection Hm. }
  assert (∀ a i, G !! a = Some i →
            ∃ a', argsorted !! a = Some a' ∧ idx_good !! a' = Some i) as HG.
  { intros a i Ha. unfold G in Ha. rewrite list_lookup_fmap in Ha.
    destruct (argsorted !! a) as [a'|] eqn:Ea; [|done]. simpl in Ha.
    injection Ha as Ha. exists a'. split; [done|].
    assert (a' < length idx_good) as Hlt.
    { assert (a' ∈ seq 0 (length idx_good)) as Hin.
      { rewrite <-Hp. by eapply list_elem_of_lookup_2. }
      apply elem_of_seq in Hin. lia. }
    rewrite <-Ha. by apply list_lookup_lookup_total_lt. }
  exists G, B. split_and!.
  - exact Hall.
  - apply Forall_forall. intros i Hi. apply list_elem_of_lookup in Hi as [a Ha].
    destruct (HG a i Ha) as (a' & _ & Hi').
    destruct (Hgood a' i Hi') as (v & Hv & Hn & _). by exists v.
  - apply Forall_forall. intros i Hi. apply list_elem_of_lookup in Hi as [a Ha].
    by eapply Hbad.
  - apply StronglySorted_lookup_2. intros a b i j Hab Ha Hbj.
    destruct (HG a i Ha) as (a' & Ea & Hi').
    destruct (HG b j Hbj) as (b' & Eb & Hj').
    destruct (StronglySorted_lookup _ _ _ _ _ _ Hsorted Hab Ea Eb)
      as (v & w & Hv & Hw & Hle).
    destruct (Hgood a' i Hi') as (v' & Hv' & _ & Hsv).
    destruct (Hgood b' j Hj') as (w' & Hw' & _ & Hsw).
    exists v, w. split_and!; [congruence|congruence|done].
  - apply StronglySorted_lookup_2. intros a b i j Hab Ha Hbj.
    by eapply (bool_select_seq_lt (isnull_arr (values self)) 0 (length d) a b).
  - intros na_last ascending G' P.
    pose proof (order_sortedIdx_flags self na_last ascending) as HP.
    cbv zeta in HP. fold d good idx_good B argsorted G G' in HP. fold P in HP.
    split; [exact HP|]. unfold order. rewrite HP. simp_ok. fold d.
    assert (P ≡ₚ seq 0 (length d)) as HPp.
    { unfold P, G'. destruct na_last, ascending;
        rewrite ?reverse_Permutation, ?(comm (++) B); exact Hall. }
    pose proof (Permutation_seq_bound _ _ HPp) as Hbound.
    rewrite (gather_total d P Hbound). simp_ok.
    rewrite (gather_total (index self) P) by (by rewrite <-Hwf). simp_ok.
    by rewrite Series_new_same_length by (simpl; by rewrite !length_fmap).
Qed.
End order_flags.

Lemma order_flags_witness :
  argsort_valid argsort_mergesort ∧ wf abc ∧
  ∃ G B, order_sortedIdx argsort_mergesort abc true true = Ok (G ++ B) ∧
         order_sortedIdx argsort_mergesort abc true false = Ok (reverse G ++ B) ∧
         order_sortedIdx argsort_mergesort abc false false = Ok (B ++ reverse G).
Proof.
  destruct (order_flags argsort_mergesort argsort_mergesort_valid abc eq_refl)
    as (G & B & _ & _ & _ & _ & _ & H).
  split_and!; [exact argsort_mergesort_valid|reflexivity|].
  exists G, B. split_and!.
  - exact (proj1 (H true true)).
  - exact (proj1 (H true false)).
  - exact (proj1 (H false false)).
Defined.

(** ** The order of labels *)

Lemma ascii_compare_refl (a : Ascii.ascii) : Ascii.compare a a = Eq.
Proof. unfold Ascii.compare. apply N.compare_refl. Qed.

Lemma string_compare_trans (a b c : string) :
  String.compare a b ≠ Gt → String.compare b c ≠ Gt → String.compare a c ≠ Gt.
Proof.
  revert b c; induction a as [|x a IH]; intros [|y b] [|z c]; simpl; try done.
  destruct (Ascii.compare x y) eqn:Exy, (Ascii.compare y z) eqn:Eyz; try done.
  - apply Ascii.compare_eq_iff in Exy as ->. apply Ascii.compare_eq_iff in Eyz as ->.
    rewrite ascii_compare_refl. apply IH.
  - apply Ascii.compare_eq_iff in Exy as ->. by rewrite Eyz.
  - apply Ascii.compare_eq_iff in Eyz as <-. by rewrite Exy.
  - unfold Ascii.compare in *. rewrite N.compare_lt_iff in Exy, Eyz.
    assert (Ascii.N_of_ascii x < Ascii.N_of_ascii z)%N as H by lia.
    apply N.compare_lt_iff in H. by rewrite H.
Qed.

Lemma string_leb_trans (a b c : string) :
  String.leb a b = true → String.leb b c = true → String.leb a c = true.
Proof.
  unfold String.leb. intros Hab Hbc.
  pose proof (string_compare_trans a b c) as H.
  destruct (String.compare a b), (String.compare b c), (String.compare a c);
    try done; exfalso; by apply H.
Qed.

Global Instance label_le_trans : Transitive label_le.
Proof.
  intros [x|x] [y|y] [z|z]; unfold label_le; simpl; try done.
  - intros H1 H2. apply Z.leb_le in H1, H2. apply Z.leb_le. lia.
  - apply string_leb_trans.
Qed.

Global Instance label_le_antisymm : AntiSymm (=) label_le.
Proof.
  intros [x|x] [y|y]; unfold label_le; simpl; try done.
  - intros H1 H2. apply Z.leb_le in H1, H2. f_equal. lia.
  - intros H1 H2. f_equal. by apply String.leb_antisym.
Qed.

Lemma label_leb_total (x y : label) : label_leb x y = true ∨ label_leb y x = true.
Proof.
  destruct x as [x|x], y as [y|y]; simpl; auto.
  - destruct (Z.leb_spec x y); [by left|right]. apply Z.leb_le. lia.
  - apply String.leb_total.
Qed.

(** ** Sorting by label *)

Lemma StronglySorted_reverse {A} (R : relation A) (l : list A) :
  StronglySorted R l → StronglySorted (flip R) (reverse l).
Proof.
  induction 1 as [|x l Hl IH Hx]; [constructor|].
  rewrite reverse_cons. apply StronglySorted_app. split_and!.
  - intros y z Hy Hz. apply list_elem_of_singleton in Hz as ->.
    rewrite elem_of_reverse in Hy. unfold flip.
    rewrite Forall_forall in Hx. by apply Hx.
  - done.
  - repeat constructor.
Qed.

Lemma permuted_pairs {A B} `{!Inhabited A, !Inhabited B}
    (idx : list A) (d : list B) (P : list nat) :
  length idx = length d → P ≡ₚ seq 0 (length idx) →
  zip ((λ i, idx !!! i) <$> P) ((λ i, d !!! i) <$> P) ≡ₚ zip idx d.
Proof.
  intros Hlen HP. rewrite zip_fmap_same. rewrite HP.
  by rewrite zip_lookup_total_seq.
Qed.

Lemma zip_perm_NoDup {A B} (I : list A) (X Y : list B) :
  NoDup I → length X = length I → length Y = length I →
  zip I X ≡ₚ zip I Y → X = Y.
Proof.
  intros Hnd HX HY Hp. apply list_eq. intros k.
  destruct (I !! k) as [l|] eqn:El.
  - apply lookup_lt_Some in El as Hlt.
    destruct (lookup_lt_is_Some_2 X k) as [x Hx]; [lia|]. rewrite Hx.
    assert ((l, x) ∈ zip I Y) as Hin.
    { rewrite <-Hp. apply list_elem_of_lookup. exists k.
      rewrite lookup_zip_with, El. simpl. by rewrite Hx. }
    apply list_elem_of_lookup in Hin as [j Hj].
    rewrite lookup_zip_with in Hj.
    destruct (I !! j) as [l'|] eqn:Ej; [|done]. simpl in Hj.
    destruct (Y !! j) as [y|] eqn:Ey; [|done]. simpl in Hj.
    injection Hj as -> ->.
    by rewrite (NoDup_lookup _ _ _ _ Hnd El Ej).
  - apply lookup_ge_None in El.
    rewrite (proj2 (lookup_ge_None X k)) by lia.
    by rewrite (proj2 (lookup_ge_None Y k)) by lia.
Qed.

Lemma sort_index_sorted (r : Series) (ascending : bool) :
  wf r →
  ∃ t P, sort_index r ascending = Ok t ∧
    P ≡ₚ seq 0 (length (index r)) ∧
    index t = (λ i, index r !!! i) <$> P ∧
    data (values t) = (λ i, data (values r) !!! i) <$> P ∧
    name t = name r ∧ dtype (values t) = dtype (values r) ∧
    StronglySorted (if ascending then label_le else flip label_le) (index t).
Proof.
  intros Hwf. unfold sort_index, Index_order.
  set (T := msort _ _). set (s := if ascending then T else reverse T).
  assert (T ≡ₚ imap (λ i l, (i, l)) (index r)) as HT by apply msort_Permutation.
  assert (s ≡ₚ imap (λ i l, (i, l)) (index r)) as Hp.
  { unfold s. destruct ascending; [done|]. by rewrite reverse_Permutation. }
  assert ((λ p : nat * label, Z.of_nat p.1) <$> s
          = Z.of_nat <$> ((λ p : nat * label, p.1) <$> s)) as ->.
  { by rewrite <-list_fmap_compose. }
  set (P := (λ p : nat * label, p.1) <$> s).
  assert (P ≡ₚ seq 0 (length (index r))) as HP.
  { unfold P. by rewrite Hp, fst_imap_pair. }
  assert ((λ p : nat * label, p.2) <$> s = (λ i, index r !!! i) <$> P) as Hlab.
  { unfold P. rewrite <-list_fmap_compose. apply Forall_fmap_ext.
    apply Forall_forall. intros [i l] Hin. simpl.
    rewrite Hp in Hin. apply list_elem_of_lookup in Hin as [k Hk].
    rewrite list_lookup_imap in Hk.
    destruct (index r !! k) as [l'|] eqn:E; [|done]. simpl in Hk.
    injection Hk as <- <-. symmetry. by apply list_lookup_total_correct. }
  unfold np_take. rewrite fancy_of_nat.
  2:{ apply (Permutation_seq_bound _ (length (data (values r)))).
      rewrite HP. by rewrite Hwf. }
  simp_ok.
  rewrite Series_new_same_length by (simpl; unfold P; by rewrite !length_fmap).
  eexists _, P. split; [done|]. cbn [index values data name dtype].
  split_and!; try done.
  assert (StronglySorted (λ p q : nat * label, label_le p.2 q.2) T) as Hs.
  { apply msort_StronglySorted.
    - intros x y z. apply label_le_trans.
    - intros i j x y _ _ _. destruct (label_leb x.2 y.2) eqn:E; [done|].
      unfold label_le. destruct (label_leb_total x.2 y.2); congruence. }
  rewrite Hlab in *. rewrite <-Hlab. unfold s. destruct ascending.
  - eapply StronglySorted_fmap; [|exact Hs]. done.
  - apply StronglySorted_reverse in Hs.
    eapply StronglySorted_fmap; [|exact Hs]. done.
Qed.

(** X15: [sort_index] returns a new Series holding the same label-value
    pairs, each value with its label, in ascending order of the labels, or
    in descending order when [ascending] is false; name and element kind
    are kept. *)
Theorem sort_index_sorts_pairs (r : Series) (ascending : bool) :
  wf r →
  ∃ t, sort_index r ascending = Ok t ∧ wf t ∧
    zip (index t) (data (values t)) ≡ₚ zip (index r) (data (values r)) ∧
    name t = name r ∧ dtype (values t) = dtype (values r) ∧
    StronglySorted (λ x y, if ascending then label_leb x y = true
                           else label_leb y x = true) (index t).
Proof.
  intros Hwf.
  destruct (sort_index_sorted r ascending Hwf)
    as (t & P & Ht & HP & Hi & Hd & Hn & Hdt & Hs).
  exists t. split_and!; try done.
  - unfold wf. rewrite Hi, Hd. by rewrite !length_fmap.
  - rewrite Hi, Hd. apply permuted_pairs; [by symmetry|done].
  - by destruct ascending.
Qed.

Lemma sort_index_sorts_pairs_witness :
  wf abc_ordered ∧ sort_index abc_ordered true = Ok abc.
Proof.
  destruct (sort_index_sorts_pairs abc_ordered true eq_refl) as (t & Ht & _).
  split; [reflexivity|]. rewrite Ht. f_equal.
  assert (Ok t = Ok abc) as H by (rewrite <-Ht; reflexivity).
  by injection H.
Defined.

Section order_round_trip.
Variable argsort_default : list value → list nat.
Hypothesis argsort_default_valid : argsort_valid argsort_default.

Lemma order_positions (s : Series) (na_last ascending : bool) :
  wf s →
  ∃ r P, order argsort_default s na_last ascending = Ok r ∧
    P ≡ₚ seq 0 (length (index s)) ∧
    index r = (λ i, index s !!! i) <$> P ∧
    data (values r) = (λ i, data (values s) !!! i) <$> P ∧
    name r = name s ∧ dtype (values r) = dtype (values s).
Proof.
  intros Hwf. unfold order.
  destruct (order_sortedIdx_total argsort_default argsort_default_valid
              s na_last ascending) as (sidx & -> & Hp). simp_ok.
  pose proof (Permutation_seq_bound _ _ Hp) as Hbound.
  rewrite (gather_total _ sidx Hbound). simp_ok.
  rewrite (gather_total (index s) sidx) by (by rewrite <-Hwf). simp_ok.
  rewrite Series_new_same_length by (simpl; by rewrite !length_fmap).
  eexists _, sidx. split; [done|]. split_and!; try done. by rewrite <-Hwf.
Qed.

(** X16: on a Series whose labels are duplicate-free and in ascending
    order, sorting by value and then by label gives the Series back:
    [s.order(na_last, ascending).sort_index()] is [s], for every choice of
    the flags. *)
Theorem order_then_sort_index (s : Series) (na_last ascending : bool) :
  wf s → NoDup (index s) →
  StronglySorted (λ x y, label_leb x y = true) (index s) →
  ∃ r, order argsort_default s na_last ascending = Ok r ∧
       zip (index r) (data (values r)) ≡ₚ zip (index s) (data (values s)) ∧
       sort_index r true = Ok s.
Proof.
  intros Hwf Hnd Hsorted.
  destruct (order_positions s na_last ascending Hwf)
    as (r & P & Hr & HP & Hi & Hd & Hn & Hdt).
  assert (zip (index r) (data (values r)) ≡ₚ zip (index s) (data (values s)))
    as Hpr.
  { rewrite Hi, Hd. apply permuted_pairs; [by symmetry|done]. }
  assert (wf r) as Hwr.
  { unfold wf. rewrite Hi, Hd. by rewrite !length_fmap. }
  exists r. split_and!; try done.
  destruct (sort_index_sorted r true Hwr)
    as (t & Q & Ht & HQ & Hti & Htd & Htn & Htdt & Hts).
  assert (zip (index t) (data (values t)) ≡ₚ zip (index s) (data (values s)))
    as Hpt.
  { rewrite <-Hpr. rewrite Hti, Htd. apply permuted_pairs; [by symmetry|done]. }
  assert (length (index t) = length (data (values t))) as Hlt.
  { rewrite Hti, Htd. by rewrite !length_fmap. }
  assert (index t = index s) as Heqi.
  { apply (StronglySorted_unique label_le); [done|done|].
    apply (fmap_Permutation fst) in Hpt.
    rewrite !fst_zip in Hpt by (rewrite ?Hlt, ?Hwf; lia). done. }
  assert (data (values t) = data (values s)) as Heqd.
  { apply (zip_perm_NoDup (index s)); [done|congruence|exact Hwf|].
    by rewrite Heqi in Hpt. }
  rewrite Ht. f_equal. destruct t as [[dt d] ix nm], s as [[dt' d'] ix' nm'].
  simpl in *. congruence.
Qed.
End order_round_trip.

Lemma order_then_sort_index_witness :
  argsort_valid argsort_mergesort ∧ wf abc ∧ NoDup (index abc) ∧
  StronglySorted (λ x y, label_leb x y = true) (index abc) ∧
  ∃ r, order argsort_mergesort abc true true = Ok r ∧ sort_index r true = Ok abc.
Proof.
  assert (NoDup (index abc)) as Hnd.
  { repeat (apply NoDup_cons; split;
      [intros H; repeat (apply elem_of_cons in H as [H|H]; [discriminate H|]);
       by apply not_elem_of_nil in H|]).
    apply NoDup_nil_2. }
  assert (StronglySorted (λ x y, label_leb x y = true) (index abc)) as Hs.
  { repeat constructor. }
  destruct (order_then_sort_index argsort_mergesort argsort_mergesort_valid
              abc true true eq_refl Hnd Hs) as (r & Hr & _ & Ht).
  split_and!; [exact argsort_mergesort_valid|reflexivity|exact Hnd|exact Hs|].
  exists r. split; [exact Hr|exact Ht].
Defined.

(** ** take *)

Lemma mapR_norm_pos_range n (indices : list Z) :
  (Forall (λ i, (- Z.of_nat n ≤ i < Z.of_nat n)%Z) indices →
   ∃ ps, mapR (norm_pos n) indices = Ok ps ∧ length ps = length indices) ∧
  (¬ Forall (λ i, (- Z.of_nat n ≤ i < Z.of_nat n)%Z) indices →
   mapR (norm_pos n) indices = Raise IndexError).
Proof.
  split.
  - intros H. destruct (mapR_total (norm_pos n) indices) as [ps Hps].
    + eapply Forall_impl; [exact H|]. intros i Hi. simpl in Hi.
      unfold norm_pos.
      destruct (decide _); [done|]. by rewrite decide_True by lia.
    + exists ps. split; [done|]. by eapply mapR_length.
  - intros H. destruct (mapR (norm_pos n) indices) as [ps|e] eqn:E.
    + exfalso. apply H. apply mapR_Ok in E.
      apply Forall_forall. intros i Hi.
      apply list_elem_of_lookup in Hi as [k Hk].
      destruct (Forall2_lookup_l _ _ _ _ _ E Hk) as (p & _ & Hp).
      unfold norm_pos in Hp. repeat case_decide; try done; lia.
    + apply mapR_Raise in E as (i & _ & Hi). unfold norm_pos in Hi.
      repeat case_decide; try done. by injection Hi as <-.
Qed.

(** X17: [take] returns a new Series holding, for each requested position
    in turn, the label and the value at that position, a negative position
    counting from the end; name and element kind are kept.  A position
    outside [-N, N) is an IndexError.  Taking the positions 0 .. N-1 gives
    an equal Series. *)
Theorem take_positions (s : Series) (indices : list Z) :
  wf s →
  let n := length (index s) in
  take s indices
  = (ps ← mapR (norm_pos n) indices;
     Ok (mk_Series
           (mk_ndarray (dtype (values s)) ((λ p, data (values s) !!! p) <$> ps))
           ((λ p, index s !!! p) <$> ps) (name s))) ∧
  (Forall (λ i, (- Z.of_nat n ≤ i < Z.of_nat n)%Z) indices →
   ∃ r, take s indices = Ok r ∧ length (index r) = length indices) ∧
  (¬ Forall (λ i, (- Z.of_nat n ≤ i < Z.of_nat n)%Z) indices →
   take s indices = Raise IndexError) ∧
  take s (Z.of_nat <$> seq 0 n) = Ok s.
Proof.
  intros Hwf n.
  assert (take s indices
          = (ps ← mapR (norm_pos n) indices;
             Ok (mk_Series
                   (mk_ndarray (dtype (values s))
                      ((λ p, data (values s) !!! p) <$> ps))
                   ((λ p, index s !!! p) <$> ps) (name s)))) as Heq.
  { unfold take, Index_take, np_take. rewrite !fancy_eq. rewrite Hwf. fold n.
    destruct (mapR (norm_pos n) indices) as [ps|e]; [|done].
    cbn [fmap result_fmap]. simp_ok.
    by rewrite Series_new_same_length by (simpl; by rewrite !length_fmap). }
  destruct (mapR_norm_pos_range n indices) as [Hin Hout].
  split_and!.
  - exact Heq.
  - intros H. destruct (Hin H) as (ps & Hps & Hl). rewrite Heq, Hps. simp_ok.
    eexists. split; [done|]. cbn [index]. by rewrite length_fmap.
  - intros H. by rewrite Heq, (Hout H).
  - unfold take, Index_take, np_take, n.
    rewrite !fancy_of_nat.
    + simp_ok. rewrite fmap_lookup_total_seq. unfold wf in Hwf. rewrite <-Hwf.
      rewrite fmap_lookup_total_seq. simp_ok.
      rewrite Series_new_same_length by done. by destruct s as [[]].
    + apply Forall_forall. intros i Hi. apply elem_of_seq in Hi. lia.
    + apply Forall_forall. intros i Hi. apply elem_of_seq in Hi.
      unfold wf in Hwf. lia.
Qed.

Lemma take_positions_witness :
  wf abc ∧
  take abc [(-1)%Z; 0%Z]
  = Ok (mk_Series (mk_ndarray Integer [VNum 2; VNum 3]) [LStr "c"; LStr "a"] None) ∧
  take abc [3%Z] = Raise IndexError.
Proof.
  destruct (take_positions abc [(-1)%Z; 0%Z] eq_refl) as (H1 & _).
  destruct (take_positions abc [3%Z] eq_refl) as (_ & _ & H2 & _).
  split_and!; [reflexivity|by rewrite H1|].
  apply H2. intros H. apply Forall_cons in H as [[_ H] _]. by vm_compute in H.
Defined.

(** ** Lookup with a default *)

(** X18: [get(label, default)] never raises on a well-formed Series for a
    label that occurs at most once: it returns the default exactly when the
    label is not in the index, and the value at the label's position
    otherwise.  The subscript operator agrees with it on a label of the
    index and raises KeyError where [get] returns the default. *)
Theorem get_or_default (s : Series) (k : keyelt) (d : value) :
  wf s → mask_sum (positions_of (index s) (label_of k)) ≤ 1 →
  (__contains__ s k = false →
   get s k d = Ok (ItemValue d) ∧
   __getitem__ s (KeyScalar k) = Raise KeyError) ∧
  (__contains__ s k = true →
   ∃ p v, index s !! p = Some (label_of k) ∧ data (values s) !! p = Some v ∧
          get s k d = Ok (ItemValue v) ∧
          __getitem__ s (KeyScalar k) = Ok (ItemValue v)).
Proof.
  intros Hwf Hle. unfold __contains__. split.
  - intros Hc. apply bool_decide_eq_false in Hc. split; [by apply get_absent|].
    unfold __getitem__, Index_get_value.
    by rewrite bool_select_positions_absent.
  - intros Hc. apply bool_decide_eq_true in Hc.
    destruct (get_loc_is_Some _ _ Hc) as [p Hp].
    destruct (get_loc_Some _ _ _ Hp) as [Hi _].
    apply lookup_lt_Some in Hi as Hlt. rewrite <-Hwf in Hlt.
    apply lookup_lt_is_Some in Hlt as [v Hv].
    exists p, v. split_and!; try done.
    + by apply (get_first s k d p v).
    + unfold __getitem__, Index_get_value.
      by rewrite (bool_select_positions_first _ _ _ p v).
Qed.

Lemma get_or_default_witness :
  wf abc ∧ mask_sum (positions_of (index abc) (label_of (KStr "z"))) ≤ 1 ∧
  __contains__ abc (KStr "z") = false ∧
  get abc (KStr "z") (VNum 0) = Ok (ItemValue (VNum 0)) ∧
  __getitem__ abc (KeyScalar (KStr "z")) = Raise KeyError.
Proof.
  assert (mask_sum (positions_of (index abc) (label_of (KStr "z"))) ≤ 1) as Hle
    by (vm_compute; lia).
  destruct (get_or_default abc (KStr "z") (VNum 0) eq_refl Hle) as [H _].
  destruct (H eq_refl) as [H1 H2].
  split_and!; [reflexivity|exact Hle|reflexivity|exact H1|exact H2].
Defined.

(** ** Renaming labels *)

Lemma positions_of_fmap_inj (f : label → label) (idx : Index) (l : label) :
  (∀ l', l' ∈ idx → f l' = f l → l' = l) →
  positions_of (f <$> idx) (f l) = positions_of idx l.
Proof.
  unfold positions_of. induction idx as [|x idx IH]; intros Hinj; [done|].
  rewrite !fmap_cons. f_equal.
  - apply bool_decide_ext. split; [|by intros ->].
    intros Hx. apply Hinj; [by left|done].
  - apply IH. intros l' Hin. apply Hinj. by right.
Qed.

(** X19: [rename] replaces every label by its image under the mapper (a
    label that is not a key of a dict mapper stays as it is) and keeps the
    values, their order and the name; without [inplace] the receiver is
    untouched and a new Series is returned, with [inplace] the receiver
    itself is relabelled and returned.  Where the mapper sends no other
    label of the index to the image of a label, looking up the image in the
    renamed Series gives what looking up the label gave before. *)
Theorem rename_relabels (s : Series) (m : mapper) :
  wf s →
  let f := _get_rename_function m in
  let renamed := mk_Series (values s) (f <$> index s) (name s) in
  rename s m false = Ok (s, New renamed) ∧
  rename s m true = Ok (renamed, Self) ∧
  (∀ l, m = MapperDict ∅ → f l = l) ∧
  (∀ (d : gmap label label) l, m = MapperDict d →
     f l = default l (d !! l)) ∧
  (∀ l dflt x,
     (∀ l', l' ∈ index s → f l' = f l → l' = l) →
     get s (key_of_label l) dflt = Ok (ItemValue x) →
     get renamed (key_of_label (f l)) dflt = Ok (ItemValue x)).
Proof.
  intros Hwf f renamed.
  assert (length (data (values s)) = length (f <$> index s)) as Hlen.
  { rewrite length_fmap. exact Hwf. }
  split_and!.
  - unfold rename. rewrite copy_Ok by done. simp_ok. fold f.
    unfold set_index. by rewrite decide_True by done.
  - unfold rename. simp_ok. fold f.
    unfold set_index. by rewrite decide_True by done.
  - intros l ->. unfold f. simpl. by rewrite lookup_empty.
  - intros d l ->. unfold f. simpl. by destruct (d !! l).
  - intros l dflt x Hinj. unfold get, Index_get_value.
    rewrite !label_of_key_of_label. unfold renamed. cbn [index values data name].
    rewrite positions_of_fmap_inj by done.
    destruct (bool_select _ (data (values s))) as [|y [|z ys]]; try done.
    cbn [try_except]. unfold Series_new, set_index.
    destruct (decide _); [done|]. intros H. by simpl in H.
Qed.

Lemma rename_relabels_witness :
  wf xy_A ∧
  rename xy_A (MapperDict {[LStr "x" := LStr "u"]}) false
  = Ok (xy_A, New (mk_Series (values xy_A) [LStr "u"; LStr "y"] None)).
Proof.
  destruct (rename_relabels xy_A (MapperDict {[LStr "x" := LStr "u"]}) eq_refl)
    as (H & _).
  split; [reflexivity|]. rewrite H. reflexivity.
Defined.

(** ** Resetting the index *)

Lemma NoDup_arange_labels n : NoDup (arange_labels n).
Proof.
  unfold arange_labels. apply NoDup_fmap_2; [|apply NoDup_seq].
  intros i j [= H]. lia.
Qed.

Lemma arange_labels_lookup n i :
  i < n → arange_labels n !! i = Some (LInt (Z.of_nat i)).
Proof.
  intros Hi. unfold arange_labels. rewrite list_lookup_fmap.
  by rewrite lookup_seq_lt by done.
Qed.

(** X20: [reset_index(drop=True)] keeps the values, their order and the
    element kind and replaces the labels by the positions 0 .. N-1, so that
    looking up the label [i] gives the value at position [i].  Without
    [inplace] a new Series with the receiver's name is returned and the
    [name] argument has no effect; with [inplace] the receiver itself is
    relabelled and takes the given name unless it is None or the empty
    string.  [reset_index(drop=False, inplace=True)] is a TypeError. *)
Theorem reset_index_drop (s : Series) (nm : option string) :
  wf s →
  let labels := arange_labels (length (index s)) in
  reset_index s true nm false
  = Ok (s, ResetSeries (New (mk_Series (values s) labels (name s)))) ∧
  reset_index s true nm true
  = Ok (mk_Series (values s) labels (py_or nm (name s)), ResetSeries Self) ∧
  (py_or nm (name s)
   = if bool_decide (nm = None ∨ nm = Some EmptyString) then name s else nm) ∧
  reset_index s false nm true = Raise TypeError ∧
  (∀ i v d, data (values s) !! i = Some v →
     get (mk_Series (values s) labels (name s)) (KInt (Z.of_nat i)) d
     = Ok (ItemValue v)).
Proof.
  intros Hwf labels.
  assert (length (data (values s)) = length labels) as Hlen.
  { unfold labels, arange_labels. rewrite length_fmap, length_seq. exact Hwf. }
  unfold reset_index. rewrite Hwf. fold labels. split_and!.
  - by rewrite Series_new_same_length by done.
  - unfold set_index. by rewrite decide_True by done.
  - unfold py_or.
    destruct nm as [[|a n']|]; case_bool_decide as H; try done;
      try (destruct H as [H|H]; done); exfalso; apply H; auto.
  - done.
  - intros i v d Hv. apply lookup_lt_Some in Hv as Hlt.
    eapply (get_first _ _ _ i v); cbn [index values label_of]; try done.
    + apply get_loc_NoDup; [apply NoDup_arange_labels|].
      apply arange_labels_lookup. unfold wf in Hwf. lia.
    + apply mask_sum_positions_NoDup, NoDup_arange_labels.
Qed.

Lemma reset_index_drop_witness :
  wf abc ∧
  reset_index abc true (Some "n"%string) false
  = Ok (abc, ResetSeries (New (mk_Series (values abc)
                                 [LInt 0; LInt 1; LInt 2] None))).
Proof.
  destruct (reset_index_drop abc (Some "n"%string) eq_refl) as (H & _).
  split; [reflexivity|]. rewrite H. reflexivity.
Defined.

(** ** Cumulative sums *)

Section cumsum_skipna.
Variable np_add : value → value → result value.

Lemma cumsum_from_length acc l k :
  cumsum_from np_add acc l = Ok k → length k = length l.
Proof.
  revert acc k; induction l as [|x l IH]; intros acc k; simpl.
  - by intros [= <-].
  - intros H. inv_ok. subst. simpl. f_equal. by eapply IH.
Qed.

(** The running sum over a buffer whose missing elements were replaced by
    0, against the running sum over its non-missing elements. *)
Lemma cumsum_from_masked acc (l c : list value) :
  cumsum_from np_add acc (bool_select (notnull <$> l) l) = Ok c →
  (∀ a, a ∈ acc :: c → np_add a (VNum 0) = Ok a) →
  ∃ k, cumsum_from np_add acc (putmask l (isnull <$> l) (VNum 0)) = Ok k ∧
       bool_select (notnull <$> l) k = c.
Proof.
  revert acc c; induction l as [|x l IH]; intros acc c Hc Hn.
  { simpl in *. injection Hc as <-. by exists []. }
  rewrite !fmap_cons in *. unfold putmask in *. cbn [zip_with bool_select] in *.
  unfold notnull at 1. unfold notnull at 1 in Hc.
  destruct (isnull x) eqn:Ex; cbn [negb] in *.
  - cbn [cumsum_from]. rewrite (Hn acc) by (by left). simp_ok.
    destruct (IH acc c Hc Hn) as (k & -> & Hk). simp_ok.
    exists (acc :: k). split; [done|]. exact Hk.
  - cbn [cumsum_from] in Hc |- *.
    destruct (np_add acc x) as [y|e]; [|done]. simp_ok. simpl in Hc.
    destruct (cumsum_from np_add y (bool_select (notnull <$> l) l)) as [c'|e] eqn:Ec;
      [|done].
    simpl in Hc. injection Hc as <-.
    destruct (IH y c' Ec) as (k & -> & Hk).
    { intros a Ha. apply Hn. by right. }
    simp_ok. exists (y :: k). split; [done|]. by rewrite Hk.
Qed.

Lemma np_cumsum_plain dt (l : list value) :
  dt ≠ Boolean →
  np_cumsum np_add (mk_ndarray dt l)
  = (d ← match l with
         | [] => Ok []
         | x :: l => k ← cumsum_from np_add x l; Ok (x :: k)
         end;
     Ok (mk_ndarray dt d)).
Proof.
  intros Hnb. unfold np_cumsum. cbn [data dtype].
  destruct (decide (dt = Boolean)); [done|].
  destruct l as [|x l]; [done|]. by rewrite list_fmap_id.
Qed.

Lemma bool_select_putmask_compl (m : list bool) (k : list value) v :
  bool_select (negb <$> m) (putmask k m v) = bool_select (negb <$> m) k.
Proof.
  unfold putmask. revert k; induction m as [|b m IH]; intros [|x k]; try done.
  rewrite fmap_cons. cbn [zip_with bool_select]. rewrite IH. by destruct b.
Qed.

(** X21: on a Series of floating or object kind, [cumsum] with [skipna] is
    the cumulative sum of the non-missing values: each running sum stands
    at the position of its value and NaN at every missing position, the
    labels are kept and the result has no name.  This holds for any
    addition under which adding 0 changes neither 0, nor the first
    non-missing value, nor a running sum.  On a Series without missing
    values, of any kind, [skipna] makes no difference: the result holds the
    cumulative sum of the buffer. *)
Theorem cumsum_skips_missing (s : Series) (c : list value) :
  wf s →
  (dtype (values s) = Floating ∨ dtype (values s) = Object →
   let valid := bool_select (notnull_arr (values s)) (data (values s)) in
   np_cumsum np_add (mk_ndarray (dtype (values s)) valid)
   = Ok (mk_ndarray (dtype (values s)) c) →
   np_add (VNum 0) (VNum 0) = Ok (VNum 0) →
   (∀ a, a ∈ c → np_add a (VNum 0) = Ok a) →
   (∀ a, head valid = Some a → np_add (VNum 0) a = Ok a) →
   ∃ r, cumsum np_add s true = Ok r ∧ index r = index s ∧ name r = None ∧
        wf r ∧ dtype (values r) = dtype (values s) ∧
        bool_select (notnull_arr (values s)) (data (values r)) = c ∧
        ∀ i x, data (values s) !! i = Some x → isnull x = true →
               data (values r) !! i = Some VNaN) ∧
  (Forall (λ v, isnull v = false) (data (values s)) →
   ∀ skipna,
     cumsum np_add s skipna
     = (a ← np_cumsum np_add (values s); Series_new a (index s) None)).
Proof.
  intros Hwf. set (d := data (values s)). set (dt := dtype (values s)).
  assert (length d = length (index s)) as Hlen by exact Hwf.
  split.
  - intros Hd valid Hc H0 Hr Hl.
    assert (dt ≠ Boolean) as Hnb by (by destruct Hd as [-> | ->]).
    assert (is_integer_dtype dt = false) as Hni by (by destruct Hd as [-> | ->]).
    assert (∃ k, np_cumsum np_add (mk_ndarray dt (putmask d (isnull <$> d) (VNum 0)))
                 = Ok (mk_ndarray dt k) ∧ length k = length d ∧
                 bool_select (notnull <$> d) k = c) as (k & Hk & Hkl & Hkc).
    { unfold valid, notnull_arr in Hc, Hl. fold d dt in Hc, Hl.
      rewrite np_cumsum_plain in Hc by done. rewrite np_cumsum_plain by done.
      clear Hlen. destruct d as [|x l].
      { simpl in *. injection Hc as <-. by exists []. }
      rewrite fmap_cons in Hc, Hl. rewrite !fmap_cons. unfold putmask.
      cbn [zip_with bool_select] in *.
      change (notnull x) with (negb (isnull x)) in *.
      destruct (isnull x) eqn:Ex; cbn [negb] in *.
      - assert (cumsum_from np_add (VNum 0) (bool_select (notnull <$> l) l) = Ok c)
          as Hc0.
        { destruct (bool_select (notnull <$> l) l) as [|x1 vl] eqn:Ev.
          - simpl in Hc. by injection Hc as <-.
          - cbn [cumsum_from]. rewrite (Hl x1) by done. simp_ok.
            destruct (cumsum_from np_add x1 vl) as [c'|e]; [|done].
            simpl in Hc. by injection Hc as <-. }
        destruct (cumsum_from_masked (VNum 0) l c Hc0) as (k & Hk & Hkc).
        { intros a [->|Ha]%elem_of_cons; [done|by apply Hr]. }
        unfold putmask in Hk. rewrite Hk. simp_ok.
        exists (VNum 0 :: k). split; [done|]. split; [|done].
        simpl. f_equal. apply cumsum_from_length in Hk.
        rewrite Hk, length_zip_with, length_fmap. lia.
      - destruct (cumsum_from np_add x (bool_select (notnull <$> l) l)) as [c'|e] eqn:Ec;
          [|done].
        simpl in Hc. injection Hc as <-.
        destruct (cumsum_from_masked x l c' Ec) as (k & Hk & Hkc).
        { intros a Ha. by apply Hr. }
        unfold putmask in Hk. rewrite Hk. simp_ok.
        exists (x :: k). split; [done|]. split; [|by rewrite Hkc].
        simpl. f_equal. apply cumsum_from_length in Hk.
        rewrite Hk, length_zip_with, length_fmap. lia. }
    unfold cumsum. fold d dt. unfold isnull_arr. fold d. rewrite Hni. cbn [andb negb].
    cbn [dtype data]. rewrite Hk. simp_ok. cbn [dtype data].
    rewrite Series_new_same_length
      by (cbn [data]; rewrite length_putmask by (rewrite length_fmap; lia); lia).
    eexists. split; [done|]. cbn [index name values data dtype].
    split_and!; try done.
    + unfold wf. cbn [index values data].
      rewrite length_putmask by (rewrite length_fmap; lia). lia.
    + unfold notnull_arr. fold d.
      assert (notnull <$> d = negb <$> (isnull <$> d)) as ->.
      { rewrite <-list_fmap_compose. by apply list_fmap_ext. }
      rewrite bool_select_putmask_compl.
      assert (negb <$> (isnull <$> d) = notnull <$> d) as ->.
      { rewrite <-list_fmap_compose. by apply list_fmap_ext. }
      exact Hkc.
    + intros i x Hx Hn. rewrite putmask_lookup, list_lookup_fmap, Hx.
      destruct (lookup_lt_is_Some_2 k i) as [y ->].
      { rewrite Hkl. by eapply lookup_lt_Some. }
      simpl. by rewrite Hn.
  - intros Hall skipna. unfold cumsum. fold d dt. unfold isnull_arr. fold d.
    assert (∀ (l : list value) v, length l = length d →
              putmask l (isnull <$> d) v = l) as Hpm.
    { intros l v Hl. apply list_eq. intros i. rewrite putmask_lookup, list_lookup_fmap.
      destruct (l !! i) as [y|] eqn:Ey; [|done]. simpl.
      destruct (lookup_lt_is_Some_2 d i) as [x Hx].
      { rewrite <-Hl. by eapply lookup_lt_Some. }
      rewrite Hx. simpl. rewrite Forall_forall in Hall.
      by rewrite (Hall x) by (by eapply list_elem_of_lookup_2). }
    destruct (skipna && negb (is_integer_dtype dt)); [|done].
    rewrite Hpm by done.
    assert (mk_ndarray dt d = values s) as -> by (unfold dt, d; by destruct (values s)).
    destruct (np_cumsum np_add (values s)) as [a|e] eqn:Ea; [|done]. simp_ok.
    assert (length (data a) = length d) as Hla.
    { revert Ea. unfold np_cumsum. fold d. destruct d as [|x l].
      - intros [= <-]. done.
      - intros H. inv_ok. subst. simpl. f_equal.
        match goal with H : cumsum_from _ _ _ = Ok _ |- _ =>
          apply cumsum_from_length in H; rewrite H end.
        by rewrite length_fmap. }
    rewrite Hpm by done. by destruct a.
Qed.
End cumsum_skipna.

Lemma cumsum_skips_missing_witness :
  wf gap_series ∧
  (dtype (values gap_series) = Floating ∨ dtype (values gap_series) = Object) ∧
  cumsum add_scalar gap_series true
  = Ok (mk_Series (mk_ndarray Floating [VNum 1; VNaN; VNum 4])
                  [LInt 0; LInt 1; LInt 2] None).
Proof.
  destruct (cumsum_skips_missing add_scalar gap_series [VNum 1; VNum 4] eq_refl)
    as [H _].
  destruct (H (or_introl eq_refl) eq_refl eq_refl) as (r & Hr & _).
  { intros a Ha. repeat (apply elem_of_cons in Ha as [->|Ha]; [reflexivity|]).
    by apply not_elem_of_nil in Ha. }
  { intros a [= <-]. reflexivity. }
  split_and!; [reflexivity|by left|].
  rewrite Hr. f_equal.
  assert (Ok r = cumsum add_scalar gap_series true) as E by (by rewrite Hr).
  by injection E.
Defined.

(** ** Positions of the sorted values *)

Lemma bool_scatter_length {A} (d : list A) (m : list bool) (src : list A) :
  length (bool_scatter d m src) = length d.
Proof.
  revert m src; induction d as [|x d IH]; intros [|b m] src; try done.
  destruct b; simpl; [destruct src; simpl|]; by rewrite ?IH.
Qed.

Lemma bool_select_scatter {A} (d : list A) (m : list bool) (src : list A) :
  length m = length d → length src = mask_sum m →
  bool_select m (bool_scatter d m src) = src.
Proof.
  revert m src; induction d as [|x d IH]; intros [|b m] src; try done.
  - simpl. unfold mask_sum. simpl. by intros _ ?%nil_length_inv.
  - intros [= Hl]. rewrite mask_sum_cons. destruct b; simpl.
    + destruct src as [|y src]; [done|]. intros [= Hs]. simpl. by rewrite IH.
    + intros Hs. by apply IH.
Qed.

Lemma bool_select_scatter_compl {A} (d : list A) (m : list bool) (src : list A) :
  length m = length d → length src = mask_sum m →
  bool_select (negb <$> m) (bool_scatter d m src) = bool_select (negb <$> m) d.
Proof.
  revert m src; induction d as [|x d IH]; intros [|b m] src; try done.
  intros [= Hl]. rewrite mask_sum_cons, fmap_cons. destruct b; simpl.
  - destruct src as [|y src]; [done|]. intros [= Hs]. simpl. by apply IH.
  - intros Hs. f_equal. by apply IH.
Qed.

Lemma existsb_id_false (m : list bool) :
  existsb id m = false → Forall (λ b, b = false) m.
Proof.
  induction m as [|b m IH]; [constructor|]. simpl.
  destruct b; [done|]. intros H. constructor; [done|by apply IH].
Qed.

Lemma bool_select_all_false {A} (m : list bool) (l : list A) :
  Forall (λ b, b = false) m → bool_select m l = [].
Proof.
  intros Hm. revert l. induction Hm as [|b m -> _ IH]; intros [|x l]; try done.
  simpl. apply IH.
Qed.

Section argsort_positions.
Variable f : list value → list nat.
Hypothesis Hf : argsort_valid f.

Lemma np_argsort_sorts (kind : sort_kind) (arr : ndarray) :
  (kind = mergesort → dtype arr ≠ Object) →
  ∃ p, np_argsort f kind arr = Ok p ∧ sorts (data arr) p ∧
       (kind = mergesort → stable_on (data arr) p).
Proof.
  intros Hk. destruct kind; simpl.
  - rewrite decide_False by (by apply Hk). eexists. split_and!; [done| |].
    + apply argsort_mergesort_sorts.
    + intros _. apply argsort_mergesort_stable.
  - eexists. split_and!; [done|apply Hf|done].
  - eexists. split_and!; [done|apply Hf|done].
Qed.

(** X22: argsort returns a Series with the receiver's labels and name in
    which every missing value stays where it is and the other positions
    hold, in order, the positions that sort the sub-array of the
    non-missing values: the numbers count within that sub-array, not within
    the Series.  With the stable algorithm, allowed on every kind but
    object, equal values are listed in their original order. *)
Theorem argsort_among_valid (s : Series) (kind : sort_kind) :
  wf s →
  (kind = mergesort → dtype (values s) ≠ Object) →
  ∃ r p, argsort f s kind = Ok r ∧ index r = index s ∧ name r = name s ∧
    length (data (values r)) = length (data (values s)) ∧
    sorts (bool_select (notnull_arr (values s)) (data (values s))) p ∧
    (kind = mergesort →
     stable_on (bool_select (notnull_arr (values s)) (data (values s))) p) ∧
    bool_select (notnull_arr (values s)) (data (values r)) = as_values p ∧
    bool_select (isnull_arr (values s)) (data (values r))
    = bool_select (isnull_arr (values s)) (data (values s)).
Proof.
  intros Hwf Hk. unfold argsort.
  set (d := data (values s)).
  assert (negb <$> isnull_arr (values s) = notnull_arr (values s)) as Hnot.
  { unfold isnull_arr, notnull_arr. rewrite <-list_fmap_compose.
    by apply list_fmap_ext. }
  assert (isnull_arr (values s) = negb <$> notnull_arr (values s)) as Hnull.
  { unfold isnull_arr, notnull_arr. rewrite <-list_fmap_compose.
    apply list_fmap_ext. intros _ x _. simpl. unfold notnull.
    by rewrite negb_involutive. }
  assert (length (notnull_arr (values s)) = length d) as Hlen.
  { unfold notnull_arr. by rewrite length_fmap. }
  destruct (existsb id (isnull_arr (values s))) eqn:E.
  - rewrite Hnot. unfold np_getmask. rewrite decide_True by done. simp_ok.
    destruct (np_argsort_sorts kind
                (mk_ndarray (dtype (values s))
                            (bool_select (notnull_arr (values s)) d)))
      as (p & -> & Hp & Hst); [done|]. cbn [data] in Hp, Hst. simp_ok.
    assert (length (as_values p) = mask_sum (notnull_arr (values s))) as Hlp.
    { unfold as_values. rewrite length_fmap.
      destruct Hp as [Hp _]. rewrite Hp, length_seq.
      by apply bool_select_length. }
    unfold np_setmask. rewrite !decide_True by done. simp_ok.
    rewrite Series_new_same_length
      by (cbn [data]; rewrite bool_scatter_length; exact Hwf).
    eexists _, p. split; [done|]. cbn [index name values data].
    split_and!; try done.
    + apply bool_scatter_length.
    + by apply bool_select_scatter.
    + rewrite Hnull. by apply bool_select_scatter_compl.
  - apply existsb_id_false in E.
    assert (Forall (λ b, b = true) (notnull_arr (values s))) as Ht.
    { rewrite <-Hnot. apply Forall_fmap. eapply Forall_impl; [exact E|].
      by intros ? ->. }
    destruct (np_argsort_sorts kind (values s)) as (p & -> & Hp & Hst); [done|].
    fold d in Hp, Hst. simp_ok.
    assert (length (as_values p) = length d) as Hlp.
    { unfold as_values. rewrite length_fmap.
      destruct Hp as [Hp _]. by rewrite Hp, length_seq. }
    rewrite Series_new_same_length by (cbn [data]; rewrite Hlp; exact Hwf).
    eexists _, p. split; [done|]. cbn [index name values data].
    rewrite !(bool_select_all_true (notnull_arr (values s))) by congruence.
    rewrite !bool_select_all_false by done.
    by split_and!.
Qed.
End argsort_positions.

Lemma argsort_among_valid_witness :
  argsort_valid argsort_mergesort ∧ wf xy_B ∧
  argsort argsort_mergesort xy_B quicksort
  = Ok (mk_Series (mk_ndarray Floating [VNaN; VNum 0]) [LStr "x"; LStr "y"] None).
Proof.
  destruct (argsort_among_valid argsort_mergesort argsort_mergesort_valid
              xy_B quicksort eq_refl) as (r & p & Hr & _); [done|].
  split_and!; [exact argsort_mergesort_valid|reflexivity|].
  rewrite Hr. f_equal.
  assert (Ok r = argsort argsort_mergesort xy_B quicksort) as E by (by rewrite Hr).
  by injection E.
Defined.

(** ** Mapping through a Series *)

Lemma mapR_fmap {A B C} (f : B → result C) (g : A → B) (l : list A) :
  mapR f (g <$> l) = mapR (λ x, f (g x)) l.
Proof. induction l as [|x l IH]; [done|]. rewrite fmap_cons. simpl. by rewrite IH. Qed.

(** X23: mapping a Series through another Series never raises and looks
    every value up as a label of the argument: the result keeps the
    receiver's labels and name and holds, at each position, the argument's
    value at the label equal to the receiver's value there (the first one
    when the label is repeated), and NaN where the receiver's value is
    missing or is not a label of the argument.  The [na_action] flag has no
    effect on this path. *)
Theorem map_through_series (self arg : Series) (na_action_ignore : bool) :
  wf self → wf arg →
  ∃ r, map self (MapSeries arg) na_action_ignore = Ok r ∧
    index r = index self ∧ name r = name self ∧ wf r ∧
    data (values r)
    = (λ v, match label_of_value v with
            | Some l => value_at arg l VNaN
            | None => VNaN
            end) <$> data (values self).
Proof.
  intros Hwf Ha. unfold map, take_1d, get_indexer_values.
  rewrite mapR_fmap.
  rewrite (mapR_ext _ (λ v, Ok (match label_of_value v with
                                | Some l => value_at arg l VNaN
                                | None => VNaN
                                end))).
  - rewrite mapR_pure. simp_ok.
    rewrite Series_new_same_length by (cbn [data]; by rewrite length_fmap).
    eexists. split; [done|]. cbn [index name values data].
    split_and!; try done. unfold wf. cbn [index values data].
    by rewrite length_fmap.
  - intros v _. destruct (label_of_value v) as [l|]; simpl.
    + unfold value_at. destruct (get_loc (index arg) l) as [p|] eqn:E.
      * rewrite decide_False by lia. rewrite decide_True by lia.
        rewrite Nat2Z.id. apply get_loc_Some in E as [E _].
        apply lookup_lt_Some in E. rewrite <-Ha in E.
        apply lookup_lt_is_Some in E as [x ->]. done.
      * by rewrite decide_True.
    + done.
Qed.

Lemma map_through_series_witness :
  wf int123 ∧
  wf (mk_Series (mk_ndarray Integer [VNum 10; VNum 20]) [LInt 1; LInt 3] None) ∧
  map int123 (MapSeries (mk_Series (mk_ndarray Integer [VNum 10; VNum 20])
                                   [LInt 1; LInt 3] None)) false
  = Ok (mk_Series (mk_ndarray Floating [VNum 10; VNaN; VNum 20])
                  [LInt 0; LInt 1; LInt 2] None).
Proof.
  destruct (map_through_series int123
              (mk_Series (mk_ndarray Integer [VNum 10; VNum 20]) [LInt 1; LInt 3] None)
              false eq_refl eq_refl) as (r & Hr & _).
  split_and!; [reflexivity|reflexivity|].
  rewrite Hr. f_equal.
  assert (Ok r = map int123
                   (MapSeries (mk_Series (mk_ndarray Integer [VNum 10; VNum 20])
                                         [LInt 1; LInt 3] None)) false) as E
    by (by rewrite Hr).
  by injection E.
Defined.

(** ** Conversion to a dict and back *)





(** ** The last valid value as of a label *)

Lemma binsearch_right_spec (a : Index) (v : label) :
  StronglySorted label_le a →
  ∀ fuel lo hi,
    hi - lo ≤ fuel → lo ≤ hi → hi ≤ length a →
    (∀ i x, i < lo → a !! i = Some x → label_leb x v = true) →
    (∀ i x, hi ≤ i → a !! i = Some x → label_leb x v = false) →
    binsearch_right fuel a v lo hi ≤ hi ∧
    (∀ i x, i < binsearch_right fuel a v lo hi → a !! i = Some x →
            label_leb x v = true) ∧
    (∀ i x, binsearch_right fuel a v lo hi ≤ i → a !! i = Some x →
            label_leb x v = false).
Proof.
  intros Hs. induction fuel as [|fuel IH]; intros lo hi Hf Hlh Hhi Hlo Hup;
    cbn [binsearch_right].
  { split_and!; [done..|]. intros i x Hi. apply Hup. lia. }
  destruct (decide (lo < hi)) as [Hlt|Hge].
  2:{ split_and!; [done..|]. intros i x Hi. apply Hup. lia. }
  set (mid := lo + (hi - lo) / 2).
  assert (lo ≤ mid ∧ mid < hi) as [Hm1 Hm2].
  { unfold mid. pose proof (Nat.div_lt (hi - lo) 2). lia. }
  destruct (lookup_lt_is_Some_2 a mid) as [x Hx]; [lia|]. rewrite Hx.
  unfold label_ltb. destruct (label_leb x v) eqn:E; simpl.
  - destruct (IH (S mid) hi) as (H1 & H2 & H3); try lia; [|done|done].
    intros i y Hi Hy.
    destruct (decide (i = mid)) as [->|Hne]; [congruence|].
    apply (label_le_trans y x v); [|done].
    apply (StronglySorted_lookup _ a i mid y x Hs); [lia|done..].
  - destruct (IH lo mid) as (H1 & H2 & H3); try lia; [done| |].
    + intros i y Hi Hy.
      destruct (decide (i = mid)) as [->|Hne]; [congruence|].
      destruct (label_leb y v) eqn:E'; [|done].
      assert (label_le x v) as Hc; [|unfold label_le in Hc; congruence].
      apply (label_le_trans x y v); [|done].
      apply (StronglySorted_lookup _ a mid i x y Hs); [lia|done..].
    + split_and!; [lia|done..].
Qed.

Lemma searchsorted_right_spec (a : Index) (v : label) :
  StronglySorted label_le a →
  searchsorted_right a v ≤ length a ∧
  (∀ i x, i < searchsorted_right a v → a !! i = Some x → label_leb x v = true) ∧
  (∀ i x, searchsorted_right a v ≤ i → a !! i = Some x → label_leb x v = false).
Proof.
  intros Hs. apply binsearch_right_spec; try done; try lia.
  intros i x Hi Hx. apply lookup_lt_Some in Hx. lia.
Qed.

Lemma asof_scan_spec (vals : list value) (loc : nat) :
  loc < length vals →
  (∀ p v, p ≤ loc → vals !! p = Some v → isnull v = false →
     (∀ q v', p < q → q ≤ loc → vals !! q = Some v' → isnull v' = true) →
     asof_scan vals loc = Ok v) ∧
  ((∀ q v', q ≤ loc → vals !! q = Some v' → isnull v' = true) →
   ∃ v, asof_scan vals loc = Ok v ∧ isnull v = true).
Proof.
  induction loc as [|loc IH]; intros Hlt.
  - destruct (lookup_lt_is_Some_2 vals 0 Hlt) as [x Hx]. simpl. rewrite Hx. split.
    + intros p v Hp Hv Hn _. assert (p = 0) as -> by lia.
      assert (x = v) as -> by congruence. by rewrite Hn.
    + intros Hall. exists x. pose proof (Hall 0 x (le_n 0) Hx) as Hn.
      by rewrite Hn.
  - destruct (lookup_lt_is_Some_2 vals (S loc) Hlt) as [x Hx].
    destruct IH as [IH1 IH2]; [lia|].
    cbn [asof_scan]. rewrite Hx. split.
    + intros p v Hp Hv Hn Hafter. destruct (decide (p = S loc)) as [->|Hne].
      * assert (x = v) as -> by congruence. by rewrite Hn.
      * rewrite (Hafter (S loc) x) by (done || lia).
        apply (IH1 p); [lia|done..|]. intros q v' ? ?. apply Hafter; lia.
    + intros Hall. rewrite (Hall (S loc) x) by done.
      apply IH2. intros q v' ?. apply Hall. lia.
Qed.

(** X25: on a Series whose labels are in ascending order, [asof] of a
    number returns the value at the last position whose label is at most
    the number and whose value is not missing.  It returns NaN when the
    number lies before the first label, and a missing value when every
    value up to the number is missing; on an empty Series it raises
    IndexError. *)
Theorem asof_last_valid (s : Series) (w : Z) :
  wf s → StronglySorted (λ x y, label_leb x y = true) (index s) →
  (index s = [] → asof s w = Raise IndexError) ∧
  (∀ l0, index s !! 0 = Some l0 → label_leb l0 (LInt w) = false →
     asof s w = Ok VNaN) ∧
  (∀ l0, index s !! 0 = Some l0 → label_leb l0 (LInt w) = true →
     (∀ p l v, index s !! p = Some l → label_leb l (LInt w) = true →
        data (values s) !! p = Some v → isnull v = false →
        (∀ q l' v', p < q → index s !! q = Some l' →
           label_leb l' (LInt w) = true →
           data (values s) !! q = Some v' → isnull v' = true) →
        asof s w = Ok v) ∧
     ((∀ q l' v', index s !! q = Some l' → label_leb l' (LInt w) = true →
         data (values s) !! q = Some v' → isnull v' = true) →
      ∃ v, asof s w = Ok v ∧ isnull v = true)).
Proof.
  intros Hwf Hs. split_and!.
  - intros E. unfold asof, np_item. by rewrite E.
  - intros l0 H0 Hlt. unfold asof, np_item, label_ltb. rewrite H0. simp_ok.
    by rewrite Hlt.
  - intros l0 H0 Hle. unfold asof, np_item, label_ltb. rewrite H0. simp_ok.
    rewrite Hle. simpl.
    destruct (searchsorted_right_spec (index s) (LInt w) Hs)
      as (Hrn & Hbelow & Habove).
    set (r := searchsorted_right (index s) (LInt w)) in *.
    assert (0 < r) as Hr.
    { destruct (decide (0 < r)); [done|].
      rewrite (Habove 0 l0) in Hle by (done || lia). done. }
    rewrite decide_True by done.
    destruct (asof_scan_spec (data (values s)) (r - 1)) as [H1 H2].
    { unfold wf in Hwf. lia. }
    split.
    + intros p l v Hl Hlw Hv Hn Hafter. apply (H1 p); [|done..|].
      * destruct (decide (p ≤ r - 1)); [done|].
        rewrite (Habove p l) in Hlw by (done || lia). done.
      * intros q v' Hpq Hq Hv'.
        destruct (lookup_lt_is_Some_2 (index s) q) as [l' Hl']; [lia|].
        apply (Hafter q l' v'); try done. apply (Hbelow q); [lia|done].
    + intros Hall. apply H2. intros q v' Hq Hv'.
      destruct (lookup_lt_is_Some_2 (index s) q) as [l' Hl']; [lia|].
      apply (Hall q l' v'); try done. apply (Hbelow q); [lia|done].
Qed.

Lemma asof_last_valid_witness :
  wf gap_series ∧
  StronglySorted (λ x y, label_leb x y = true) (index gap_series) ∧
  asof gap_series 1 = Ok (VNum 1).
Proof.
  assert (StronglySorted (λ x y, label_leb x y = true) (index gap_series)) as Hs.
  { repeat constructor. }
  destruct (asof_last_valid gap_series 1 eq_refl Hs) as (_ & _ & H).
  destruct (H (LInt 0) eq_refl eq_refl) as [H1 _].
  split_and!; [reflexivity|exact Hs|].
  apply (H1 0 (LInt 0) (VNum 1)); try reflexivity.
  intros q l' v' Hq Hl Hle Hv.
  destruct q as [|[|[|q]]]; simpl in Hl, Hv; try lia.
  - by injection Hv as <-.
  - injection Hl as <-. discriminate Hle.
  - discriminate Hl.
Defined.
